(** * Wave hash aggregation: host-side recovery and result drain

    A shallow embedding of
    [velox/experimental/wave/exec/Instruction.cpp]: the error tally
    [countErrors], the allocator refill [restockAllocator], the capacity
    clamp [AggregateOperatorState::setSizesToSafe], the recovery routine
    [resupplyHashTable], the two [canAdvance] continuation checks, and the
    result drain [countResultRows] / [makeResultRows].

    Machine integers are [Z] with the wrap-around of the declared C++ type
    written out; C++ [/] is [Z.quot] (truncation towards zero).

    The second part embeds [velox/functions/lib/Utf8Utils.cpp]: the UTF-8
    decoder [tryGetUtf8CharLength] and [replaceInvalidUTF8Characters]. *)

From Stdlib Require Import ZArith List Bool Lia.
Import ListNotations.
Local Open Scope Z_scope.

(** ** Machine integers *)

Definition wrap32u (x : Z) : Z := x mod 2 ^ 32.
Definition wrap64u (x : Z) : Z := x mod 2 ^ 64.
Definition wrap32s (x : Z) : Z := (x + 2 ^ 31) mod 2 ^ 32 - 2 ^ 31.
Definition wrap64s (x : Z) : Z := (x + 2 ^ 63) mod 2 ^ 64 - 2 ^ 63.

Definition INT32_MAX : Z := 2 ^ 31 - 1.

(** [n] consecutive integers starting at [b]. *)
Fixpoint Zseq (b : Z) (n : nat) : list Z :=
  match n with
  | O => []
  | S n' => b :: Zseq (b + 1) n'
  end.

Definition Zsum (l : list Z) : Z := fold_right Z.add 0 l.

(** ** Device memory seen as 64-bit words

    [mem a] is the [uint64_t] stored at byte address [a].  The deletion
    bitmap of a range is the word array that starts at [range.base]. *)

Definition Memory := Z -> Z.

(** Modelled from the spec: [bits::isBitSet] (BitUtil.h) is not under src/;
    bit [idx] of a word array lives in word [idx / 64] at position
    [idx mod 64]. *)
Definition isBitSet (mem : Memory) (bits : Z) (idx : Z) : bool :=
  Z.testbit (mem (bits + 8 * (idx / 64))) (idx mod 64).

(** Modelled from the spec: [bits::countBits] (BitUtil.h) is not under src/;
    the number of set bits with index in [[begin, end)]. *)
Definition countBits (mem : Memory) (bits : Z) (begin_ end_ : Z) : Z :=
  Z.of_nat (length (filter (isBitSet mem bits)
                           (Zseq begin_ (Z.to_nat (end_ - begin_))))).

(** ** AllocationRange

    The struct is declared in HashTable.h, which is not under src/.  The
    fields below are the ones Instruction.cpp reads ([fixedFull], [base],
    [capacity], [firstRowOffset], [rowOffset], [stringOffset]) and the soft
    row limit of the data model. *)

Record AllocationRange := mkRange {
  fixedFull : bool;
  base : Z;
  capacity : Z;
  rowLimit : Z;
  firstRowOffset : Z;
  rowOffset : Z;
  stringOffset : Z
}.

(** ** countResultRows (Instruction.cpp 212-228)

    [numFree] is an [int32_t] and the two totals are [int64_t].  The type of
    [n] follows from the field declarations, which are not under src/; it is
    computed exactly here, which agrees with every width while the fields
    stay in the range the statements assume. *)

Definition countRange (mem : Memory) (rowSize : Z) (acc : Z * Z)
  (range : AllocationRange) : Z * Z :=
  let '(count, bytes) := acc in
  let numFree := wrap32s (countBits mem (base range) 0 (firstRowOffset range * 8)) in
  let n := Z.quot (rowOffset range - firstRowOffset range) rowSize - numFree in
  (wrap64s (count + n),
   wrap64s (bytes + (n * rowSize + (capacity range - stringOffset range)))).

Definition countResultRows (mem : Memory) (ranges : list AllocationRange)
  (rowSize : Z) : Z * Z :=
  fold_left (countRange mem rowSize) ranges (0, 0).

(** ** makeResultRows (Instruction.cpp 230-258)

    The cursor [(startRange, startRow)] is passed by reference and persists
    between calls; [result] is the prefix of the output array written so
    far and [fill] its length counter.  Both loops are driven by fuel: with
    a wrapped [limit] the inner loop need not terminate. *)

Record Cursor := mkCursor { startRange : Z; startRow : Z }.

Record Drained := mkDrained {
  d_cursor : Cursor;
  d_fill : Z;
  d_result : list Z
}.

Definition scanLimit (range : AllocationRange) (rowSize : Z) : Z :=
  wrap32u (rowOffset range - rowSize).

Definition scanStart (range : AllocationRange) (rowSize startRow : Z) : Z :=
  wrap32u (startRow * rowSize + firstRowOffset range).

(** The inner [for]: [Some (true, ...)] is the early [return fill],
    [Some (false, ...)] is the loop running off its limit. *)
Fixpoint scanRange (fuel : nat) (mem : Memory) (range : AllocationRange)
  (rowSize maxRows limit offset row fill : Z) (result : list Z)
  : option (bool * Z * Z * list Z) :=
  match fuel with
  | O => None
  | S fuel' =>
    if offset <=? limit then
      if isBitSet mem (base range) row then
        scanRange fuel' mem range rowSize maxRows limit
          (wrap32u (offset + rowSize)) (wrap32s (row + 1)) fill result
      else
        let result' := result ++ [wrap64u (base range + offset)] in
        let fill' := wrap32s (fill + 1) in
        if fill' >=? maxRows then
          Some (true, wrap32s (row + 1), fill', result')
        else
          scanRange fuel' mem range rowSize maxRows limit
            (wrap32u (offset + rowSize)) (wrap32s (row + 1)) fill' result'
    else Some (false, row, fill, result)
  end.

(** The outer [for]; indexing [ranges] outside the array is undefined and
    yields [None]. *)
Fixpoint rangesLoop (fuel : nat) (mem : Memory) (ranges : list AllocationRange)
  (numRanges rowSize maxRows : Z) (sRange sRow fill : Z) (result : list Z)
  : option Drained :=
  match fuel with
  | O => None
  | S fuel' =>
    if sRange <? numRanges then
      if sRange <? 0 then None else
      match nth_error ranges (Z.to_nat sRange) with
      | None => None
      | Some range =>
        match scanRange fuel' mem range rowSize maxRows
                (scanLimit range rowSize) (scanStart range rowSize sRow)
                sRow fill result with
        | None => None
        | Some (true, row', fill', result') =>
            Some (mkDrained (mkCursor sRange row') fill' result')
        | Some (false, _, fill', result') =>
            rangesLoop fuel' mem ranges numRanges rowSize maxRows
              (wrap32s (sRange + 1)) 0 fill' result'
        end
      end
    else Some (mkDrained (mkCursor sRange sRow) fill result)
  end.

Definition makeResultRows (fuel : nat) (mem : Memory)
  (ranges : list AllocationRange) (numRanges rowSize maxRows : Z)
  (cur : Cursor) : option Drained :=
  rangesLoop fuel mem ranges numRanges rowSize maxRows
    (startRange cur) (startRow cur) 0 [].

(** Repeated calls with the persisted cursor: the batches of [n] calls. *)
Fixpoint drain (fuel : nat) (mem : Memory) (ranges : list AllocationRange)
  (rowSize maxRows : Z) (cur : Cursor) (n : nat)
  : option (list (list Z) * Cursor) :=
  match n with
  | O => Some ([], cur)
  | S n' =>
    match makeResultRows fuel mem ranges (Z.of_nat (length ranges))
            rowSize maxRows cur with
    | None => None
    | Some d =>
      match drain fuel mem ranges rowSize maxRows (d_cursor d) n' with
      | None => None
      | Some (bs, cur') => Some (d_result d :: bs, cur')
      end
    end
  end.

(** *** The rows a drain is expected to hand out

    Row [i] of a range sits at [base + firstRowOffset + i * rowSize]; the
    range holds [(rowOffset - firstRowOffset) / rowSize] rows; a row is live
    when its bitmap bit is clear. *)

Definition rowSlots (range : AllocationRange) (rowSize : Z) : Z :=
  (rowOffset range - firstRowOffset range) / rowSize.

Definition rowAddress (range : AllocationRange) (rowSize i : Z) : Z :=
  base range + firstRowOffset range + i * rowSize.

Definition liveFrom (mem : Memory) (rowSize : Z) (range : AllocationRange)
  (s : Z) : list Z :=
  map (rowAddress range rowSize)
      (filter (fun i => negb (isBitSet mem (base range) i))
              (Zseq s (Z.to_nat (rowSlots range rowSize - s)))).

Definition liveRows (mem : Memory) (rowSize : Z)
  (ranges : list AllocationRange) : list Z :=
  flat_map (fun range => liveFrom mem rowSize range 0) ranges.

(** *** The scenario of the spec: one range of 10 rows of 16 bytes behind an
    8-byte bitmap, rows 0, 3 and 7 deleted. *)

Definition scenarioBase : Z := 4096.

Definition scenarioMem : Memory :=
  fun a => if a =? scenarioBase then 137 else 0.

Definition scenarioRange : AllocationRange :=
  mkRange false scenarioBase 168 168 8 168 168.

(** A range in which no row was allocated yet, behind the same 8-byte
    bitmap. *)
Definition freshRange : AllocationRange :=
  mkRange false scenarioBase 168 168 8 8 168.

Definition zeroMem : Memory := fun _ => 0.

(** ** Fatal conditions and the outcome of host-side routines *)

Inductive Failure :=
| ActiveBlocks        (* VELOX_CHECK_EQ(head->debugActiveBlockCounter, 0) *)
| NoExecutable        (* VELOX_CHECK_NOT_NULL(exe) *)
| ArenaExhausted      (* the arena cannot supply the request *)
| NullState           (* stream.operatorState(id) is null *)
| OutOfRange          (* an array is indexed outside its bounds *)
| DivideByZero
| Diverges.           (* the drain loops ran out of fuel *)

Inductive Outcome (A : Type) : Type :=
| Ok (a : A)
| Fatal (why : Failure).
Arguments Ok {A} a.
Arguments Fatal {A} why.

Definition bind {A B : Type} (m : Outcome A) (k : A -> Outcome B) : Outcome B :=
  match m with
  | Ok a => k a
  | Fatal why => Fatal why
  end.

Notation "x <- m ;; k" := (bind m (fun x => k))
  (at level 61, m at next level, right associativity).
Notation "' p <- m ;; k" := (bind m (fun p => k))
  (at level 61, p pattern, m at next level, right associativity).

Definition require (b : bool) (why : Failure) : Outcome unit :=
  if b then Ok tt else Fatal why.

Definition fromOption {A : Type} (o : option A) (why : Failure) : Outcome A :=
  match o with
  | Some a => Ok a
  | None => Fatal why
  end.

(** C++ integer division. *)
Definition cdiv (a b : Z) : Outcome Z :=
  if b =? 0 then Fatal DivideByZero else Ok (Z.quot a b).

(** [array[i]] for a C array or vector held as a list. *)
Definition at_ {A : Type} (l : list A) (i : Z) : Outcome A :=
  if i <? 0 then Fatal OutOfRange
  else fromOption (nth_error l (Z.to_nat i)) OutOfRange.

Fixpoint setNth {A : Type} (l : list A) (i : nat) (a : A) : list A :=
  match l, i with
  | [], _ => []
  | _ :: l', O => a :: l'
  | x :: l', S i' => x :: setNth l' i' a
  end.

(** [for (auto i = 0; i < n; ++i) body(i)] threading a state. *)
Fixpoint forEach {St : Type} (body : St -> Z -> Outcome St) (idxs : list Z)
  (s : St) : Outcome St :=
  match idxs with
  | [] => Ok s
  | i :: rest => s' <- body s i ;; forEach body rest s'
  end.

Definition upTo (n : Z) : list Z := Zseq 0 (Z.to_nat n).

(** ** Per-row error codes (BlockStatus)

    [BlockStatus] is declared outside src/: a row count and one error code
    per row of the block, as [countErrors] reads them. *)

(** Modelled from the spec: the enum is declared outside src/; the
    insufficient-memory code is the recoverable one, the others are owned
    by other instruction kinds. *)
Inductive ErrorCode := kOk | kError | kInsufficientMemory.

Definition ErrorCode_eqb (a b : ErrorCode) : bool :=
  match a, b with
  | kOk, kOk | kError, kError | kInsufficientMemory, kInsufficientMemory => true
  | _, _ => false
  end.

Record BlockStatus := mkBlockStatus {
  bsNumRows : Z;
  errors : list ErrorCode
}.

(** ** Hash table header and partition allocators

    Both structs are declared in HashTable.h, which is not under src/; the
    records hold the fields Instruction.cpp reads and writes.  Their widths
    are not visible, so header arithmetic is exact and only the locals that
    Instruction.cpp declares as [int32_t] or [int64_t] wrap. *)

Record GpuHashTableBase := mkHashTable {
  buckets : Z;
  sizeMask : Z;
  partitionMask : Z;
  numDistinct : Z;
  maxEntries : Z
}.

Record HashPartitionAllocator := mkAllocator {
  rowSize : Z;
  ranges0 : AllocationRange;
  ranges1 : AllocationRange
}.

Record WaveBuffer := mkBuffer { bufAddr : Z; bufSize : Z }.

(** Modelled from the spec: the arena is an external collaborator, "a
    bump-style allocator providing typed buffers"; a request that does not
    fit is the fatal arena-exhaustion condition. *)
Record Arena := mkArena { arenaNext : Z; arenaLimit : Z }.

Definition arenaAllocate (a : Arena) (bytes : Z) : Outcome (WaveBuffer * Arena) :=
  if (0 <=? bytes) && (arenaNext a + bytes <=? arenaLimit a)
  then Ok (mkBuffer (arenaNext a) bytes, mkArena (arenaNext a + bytes) (arenaLimit a))
  else Fatal ArenaExhausted.

(** What Instruction.cpp takes from headers that are not under src/: two
    layout constants, the default resume label of an [AdvanceResult], and
    the member functions of [AllocationRange] and [HashPartitionAllocator].
    Everything below is stated for an arbitrary implementation of them. *)
Class WaveHeaders := {
  kNumSlots : Z;            (* GpuBucketMembers::kNumSlots *)
  kBlockSize : Z;
  sizeofBucketMembers : Z;  (* sizeof(GpuBucketMembers) *)
  kNoLabel : Z;
  (* AllocationRange *)
  rangeEmpty : AllocationRange -> bool;
  rangeClearOverflows : AllocationRange -> Z -> AllocationRange;
  newAllocationRange : Z -> Z -> Z -> Z -> AllocationRange;
  defaultRange : AllocationRange;   (* what std::move leaves behind *)
  (* HashPartitionAllocator *)
  availableFixed : HashPartitionAllocator -> Z;
  clearOverflows : HashPartitionAllocator -> HashPartitionAllocator;
  raiseRowLimits : HashPartitionAllocator -> Z -> Z * HashPartitionAllocator;
  trimRows : HashPartitionAllocator -> Z -> HashPartitionAllocator
}.

(** ** Device stream effects, in program order

    The device stream is an external collaborator; a routine returns the
    list of operations it issued on it.  [EvTraceResupply] and
    [EvTraceRehashed] record the arguments of the two [TR1] trace calls. *)

Record AggregationControl := mkControl {
  ctlHead : Z;
  oldBuckets : Z;
  numOldBuckets : Z
}.

Inductive DeviceEvent :=
| EvPrefetchToHost (addr size : Z)
| EvPrefetchToDevice (addr size : Z)
| EvWait
| EvMemset (addr value size : Z)
| EvHostToDevice (dst : Z) (payload : list Z) (size : Z)
| EvSetupAggregation (control : AggregationControl) (entryPointIdx kernel : Z)
| EvTraceResupply (size newSize increment numFailed : Z)
| EvTraceRehashed
| EvRelease.

(** ** AggregateOperatorState

    [alignedHead] points at one allocation holding the aggregation header,
    the hash table header and the partition allocators back to back; the
    record keeps the three parts side by side. *)
Record AggregateOperatorState := mkState {
  alignedHead : Z;
  alignedHeadSize : Z;
  debugActiveBlockCounter : Z;
  headResultRowPointers : Z;
  numReadStreams : Z;
  hashTable : GpuHashTableBase;
  allocators : list HashPartitionAllocator;
  arena : Arena;
  ranges : list AllocationRange;
  buffers : list WaveBuffer;
  isGrouped : bool;
  isNew : bool;
  maxReadStreams : Z;
  stateRowSize : Z;
  rangeIdx : Z;
  rowIdx : Z;
  stateNumRows : Z;
  bytes : Z;
  resultRowPointers : option WaveBuffer;
  resultRows : list (option WaveBuffer);
  temp : option WaveBuffer;
  tempContents : list Z
}.

Definition withAllocators (st : AggregateOperatorState)
  (al : list HashPartitionAllocator) : AggregateOperatorState :=
  mkState (alignedHead st) (alignedHeadSize st) (debugActiveBlockCounter st)
    (headResultRowPointers st) (numReadStreams st) (hashTable st) al
    (arena st) (ranges st) (buffers st) (isGrouped st) (isNew st)
    (maxReadStreams st) (stateRowSize st) (rangeIdx st) (rowIdx st)
    (stateNumRows st) (bytes st) (resultRowPointers st) (resultRows st)
    (temp st) (tempContents st).

Definition withHashTable (st : AggregateOperatorState)
  (t : GpuHashTableBase) : AggregateOperatorState :=
  mkState (alignedHead st) (alignedHeadSize st) (debugActiveBlockCounter st)
    (headResultRowPointers st) (numReadStreams st) t (allocators st)
    (arena st) (ranges st) (buffers st) (isGrouped st) (isNew st)
    (maxReadStreams st) (stateRowSize st) (rangeIdx st) (rowIdx st)
    (stateNumRows st) (bytes st) (resultRowPointers st) (resultRows st)
    (temp st) (tempContents st).

(** The three members [restockAllocator] writes. *)
Definition withStorage (st : AggregateOperatorState) (a : Arena)
  (rs : list AllocationRange) (bs : list WaveBuffer) : AggregateOperatorState :=
  mkState (alignedHead st) (alignedHeadSize st) (debugActiveBlockCounter st)
    (headResultRowPointers st) (numReadStreams st) (hashTable st) (allocators st)
    a rs bs (isGrouped st) (isNew st)
    (maxReadStreams st) (stateRowSize st) (rangeIdx st) (rowIdx st)
    (stateNumRows st) (bytes st) (resultRowPointers st) (resultRows st)
    (temp st) (tempContents st).

(** ** Instructions, streams and the continuation record

    [AbstractAggregation], [WaveStream], the compiled program and
    [AdvanceResult] are declared in Wave.h, which is not under src/; the
    records hold the members Instruction.cpp uses.  A stream finds the grid
    state of an instruction by the instruction's status offset, and is
    [None] before the first launch. *)

Module AggregateReturn.
(** Grid-level state of a group by, written once per launch; a nonzero
    [numDistinct] reports failed inserts. *)
Record t := mk { numDistinct : Z }.
End AggregateReturn.

Record AbstractAggregation := mkAggregation {
  keys : list Z;
  instructionStatus : Z;      (* InstructionStatus::gridState offset *)
  aggContinueLabel : Z;
  stateId : Z;
  serial : Z;
  aggRowSize : Z
}.

Record Program := mkProgram {
  entryPointIdxBySerial : Z -> Z;
  kernel : Z
}.

Record WaveStream := mkStream {
  streamNumRows : Z;
  streamIdx : Z;
  hostBlockStatus : list BlockStatus;
  gridStatus : Z -> option AggregateReturn.t;
  operatorStates : list (Z * AggregateOperatorState);
  executableByInstruction : AbstractAggregation -> option Program
}.

Fixpoint operatorState (l : list (Z * AggregateOperatorState)) (id : Z)
  : option AggregateOperatorState :=
  match l with
  | [] => None
  | (k, s) :: l' => if k =? id then Some s else operatorState l' id
  end.

Fixpoint storeOperatorState (l : list (Z * AggregateOperatorState)) (id : Z)
  (s : AggregateOperatorState) : list (Z * AggregateOperatorState) :=
  match l with
  | [] => []
  | (k, s0) :: l' =>
      if k =? id then (k, s) :: l' else (k, s0) :: storeOperatorState l' id s
  end.

Definition withOperatorStates (stream : WaveStream)
  (l : list (Z * AggregateOperatorState)) : WaveStream :=
  mkStream (streamNumRows stream) (streamIdx stream) (hostBlockStatus stream)
    (gridStatus stream) l (executableByInstruction stream).

(** Modelled from the spec: [WaveStream::checkBlockStatuses] is not under
    src/; it "tallies per-block error statuses (diagnostics)" and leaves
    the stream as it is. *)
Definition checkBlockStatuses (stream : WaveStream) : WaveStream := stream.

(** Modelled from the spec: [WaveStream::clearGridStatus] is not under
    src/; it clears the grid-level state of the instruction "so the next
    launch starts clean". *)
Definition clearGridStatus (stream : WaveStream) (status : Z) : WaveStream :=
  mkStream (streamNumRows stream) (streamIdx stream) (hostBlockStatus stream)
    (fun k => if k =? status
              then match gridStatus stream k with
                   | Some _ => Some (AggregateReturn.mk 0)
                   | None => None
                   end
              else gridStatus stream k)
    (operatorStates stream) (executableByInstruction stream).

Record AdvanceResult := mkAdvance {
  numRows : Z;
  continueLabel : Z;
  isRetry : bool;
  syncDrivers : bool;
  syncStreams : bool;
  updateStatus :
    option (WaveStream -> AbstractAggregation ->
            Outcome (WaveStream * list DeviceEvent));
  reason : Z                  (* OperatorState*, 0 for nullptr *)
}.

(** The value-initialised record, [AdvanceResult{}] or a default
    constructed [AdvanceResult result]: no rows, no retry, no
    synchronisation, no callback, no payload. *)
Definition emptyResult `{WaveHeaders} : AdvanceResult :=
  mkAdvance 0 kNoLabel false false false None 0.

(** ** countErrors (Instruction.cpp 51-59) *)

Definition countBlockErrors (error : ErrorCode) (b : BlockStatus) (count : Z)
  : Outcome Z :=
  forEach (fun c j =>
             e <- at_ (errors b) j ;;
             Ok (wrap32s (c + (if ErrorCode_eqb e error then 1 else 0))))
          (upTo (bsNumRows b)) count.

Definition countErrors (status : list BlockStatus) (numBlocks : Z)
  (error : ErrorCode) : Outcome Z :=
  forEach (fun c i => b <- at_ status i ;; countBlockErrors error b c)
          (upTo numBlocks) 0.

(** ** restockAllocator (Instruction.cpp 61-86) *)

Definition retireIfFull `{WaveHeaders} (retired : list AllocationRange)
  (allocator : HashPartitionAllocator)
  : list AllocationRange * HashPartitionAllocator :=
  if fixedFull (ranges0 allocator)
  then (retired ++ [ranges0 allocator],
        mkAllocator (rowSize allocator) (ranges1 allocator) defaultRange)
  else (retired, allocator).

Definition installRange `{WaveHeaders} (allocator : HashPartitionAllocator)
  (newRange : AllocationRange) : HashPartitionAllocator :=
  if rangeEmpty (ranges0 allocator)
  then mkAllocator (rowSize allocator) newRange (ranges1 allocator)
  else mkAllocator (rowSize allocator) (ranges0 allocator) newRange.

Definition restockAllocator `{WaveHeaders} (state : AggregateOperatorState)
  (size : Z) (allocator : HashPartitionAllocator)
  : Outcome (AggregateOperatorState * HashPartitionAllocator) :=
  let '(raised, allocator) := raiseRowLimits allocator size in
  let adjustedSize := wrap32s (size - raised) in
  if adjustedSize <=? 0 then Ok (state, allocator)
  else
    let '(retired, allocator) := retireIfFull (ranges state) allocator in
    '(buffer, arena') <- arenaAllocate (arena state) size ;;
    let newRange :=
      newAllocationRange (bufAddr buffer) size size (rowSize allocator) in
    Ok (withStorage state arena' retired (buffers state ++ [buffer]),
        installRange allocator newRange).

(** ** AggregateOperatorState::setSizesToSafe (Instruction.cpp 88-102) *)

Definition trimPartition `{WaveHeaders} (rowSize allowedPerPartition : Z)
  (st : AggregateOperatorState) (i : Z) : Outcome AggregateOperatorState :=
  a <- at_ (allocators st) i ;;
  availableInAllocator <- cdiv (availableFixed a) rowSize ;;
  if availableInAllocator >? allowedPerPartition
  then Ok (withAllocators st
             (setNth (allocators st) (Z.to_nat i)
                (trimRows a (wrap32s (allowedPerPartition * rowSize)))))
  else Ok st.

Definition setSizesToSafe `{WaveHeaders} (st : AggregateOperatorState)
  : Outcome AggregateOperatorState :=
  let t := hashTable st in
  let numPartitions := wrap32s (partitionMask t + 1) in
  a0 <- at_ (allocators st) 0 ;;
  let rowSize := rowSize a0 in
  let spaceInTable := wrap32s (maxEntries t - numDistinct t) in
  allowedPerPartition <- cdiv spaceInTable numPartitions ;;
  forEach (trimPartition rowSize allowedPerPartition) (upTo numPartitions) st.

(** ** resupplyHashTable (Instruction.cpp 104-181) *)

(** Modelled from the spec: [bits::nextPowerOfTwo] (BitUtil.h) is not under
    src/; "next power of two >= x". *)
Definition nextPowerOfTwo (x : Z) : Z := 2 ^ Z.log2_up x.

(** Modelled from the spec: [bits::roundUp] (BitUtil.h) is not under src/;
    [value] rounded up to a multiple of [factor]. *)
Definition roundUp (value factor : Z) : Outcome Z :=
  q <- cdiv (value + (factor - 1)) factor ;; Ok (q * factor).

Definition numSlots `{WaveHeaders} (t : GpuHashTableBase) : Z :=
  (sizeMask t + 1) * kNumSlots.

Definition resupplyNewSize (numFailed : Z) (t : GpuHashTableBase) : Z :=
  wrap64s (nextPowerOfTwo (numFailed + numDistinct t * 2)).

Definition resupplyIncrement (rowSize newSize numPartitions : Z)
  (t : GpuHashTableBase) : Outcome Z :=
  q <- cdiv (wrap64s (rowSize * (newSize - numDistinct t))) numPartitions ;;
  Ok (wrap64s q).

Definition resupplyPartition `{WaveHeaders} (increment : Z)
  (st : AggregateOperatorState) (i : Z) : Outcome AggregateOperatorState :=
  a <- at_ (allocators st) i ;;
  let a := clearOverflows a in
  if availableFixed a <? increment
  then
    '(st', a') <- restockAllocator st (wrap32s increment) a ;;
    Ok (withAllocators st' (setNth (allocators st') (Z.to_nat i) a'))
  else Ok (withAllocators st (setNth (allocators st) (Z.to_nat i) a)).

(** The [if (newSize > numSlots(hashTable))] block: the new state, the
    device events, and the old bucket array kept for the rehash kernel. *)
Definition growBuckets `{WaveHeaders} (newSize : Z) (st : AggregateOperatorState)
  : Outcome (AggregateOperatorState * list DeviceEvent * option (Z * Z)) :=
  let t := hashTable st in
  if newSize >? numSlots t then
    oldBuffer <- at_ (buffers st) 1 ;;
    let numOld := wrap32s (sizeMask t + 1) in
    n <- cdiv newSize kNumSlots ;;
    '(buffer, arena') <- arenaAllocate (arena st) (n * sizeofBucketMembers) ;;
    let t' := mkHashTable (bufAddr buffer) (n - 1) (partitionMask t)
                (numDistinct t) (Z.quot newSize 6 * 5) in
    Ok (withHashTable
          (withStorage st arena' (ranges st) (setNth (buffers st) 1 buffer)) t',
        [EvMemset (bufAddr buffer) 0 (bufSize buffer)],
        Some (bufAddr oldBuffer, numOld))
  else Ok (st, [], None).

Definition launchRehash (stream : WaveStream) (inst : AbstractAggregation)
  (head : Z) (old : option (Z * Z)) : Outcome (list DeviceEvent) :=
  match old with
  | None => Ok []
  | Some (oldAddr, numOld) =>
      program <- fromOption (executableByInstruction stream inst) NoExecutable ;;
      Ok [EvSetupAggregation (mkControl head oldAddr numOld)
            (entryPointIdxBySerial program (serial inst)) (kernel program)]
  end.

Definition resupplyHashTable `{WaveHeaders} (stream : WaveStream)
  (inst : AbstractAggregation) : Outcome (WaveStream * list DeviceEvent) :=
  state <- fromOption (operatorState (operatorStates stream) (stateId inst))
             NullState ;;
  let t := hashTable state in
  _ <- require (debugActiveBlockCounter state =? 0) ActiveBlocks ;;
  rounded <- roundUp (streamNumRows stream) kBlockSize ;;
  q <- cdiv rounded kBlockSize ;;
  let numBlocks := wrap32s q in
  numFailed <- countErrors (hostBlockStatus stream) numBlocks kInsufficientMemory ;;
  let rowSize := aggRowSize inst in
  let numPartitions := wrap32s (partitionMask t + 1) in
  let newSize := resupplyNewSize numFailed t in
  increment <- resupplyIncrement rowSize newSize numPartitions t ;;
  st1 <- forEach (resupplyPartition increment) (upTo numPartitions) state ;;
  '(st2, grown, old) <- growBuckets newSize st1 ;;
  st3 <- setSizesToSafe st2 ;;
  launched <- launchRehash stream inst (alignedHead state) old ;;
  Ok (withOperatorStates stream
        (storeOperatorState (operatorStates stream) (stateId inst) st3),
      [EvPrefetchToHost (alignedHead state) (alignedHeadSize state); EvWait;
       EvTraceResupply (numSlots t) newSize increment numFailed]
      ++ grown
      ++ [EvPrefetchToDevice (alignedHead state) (alignedHeadSize state)]
      ++ launched
      ++ [EvWait]
      ++ (match old with Some _ => [EvTraceRehashed] | None => [] end)
      ++ [EvRelease]).

(** ** AbstractAggregation::canAdvance (Instruction.cpp 183-210) *)

Module AbstractAggregation.
Definition canAdvance `{WaveHeaders} (self : AbstractAggregation)
  (stream : WaveStream) (state : Z) : AdvanceResult * WaveStream :=
  match keys self with
  | [] => (emptyResult, stream)
  | _ :: _ =>
    match gridStatus stream (instructionStatus self) with
    | None => (emptyResult, stream)
    | Some gridState =>
      if AggregateReturn.numDistinct gridState =? 0
      then (emptyResult, stream)
      else
        let stream := checkBlockStatuses stream in
        let stream := clearGridStatus stream (instructionStatus self) in
        (mkAdvance (streamNumRows stream) (aggContinueLabel self) true true
           false (Some resupplyHashTable) state,
         stream)
    end
  end.
End AbstractAggregation.

(** ** AbstractReadAggregation::canAdvance (Instruction.cpp 260-357)

    [batchSize] is the flag [wave_max_reader_batch_rows]; [transfer] is the
    process-wide small transfer arena; [mem] is the device memory holding
    the deletion bitmaps.  The mutex is held for the whole call and is not
    part of the state. *)

Module AbstractReadAggregation.

(** The members the drain writes. *)
Definition withDrain (st : AggregateOperatorState)
  (al : list HashPartitionAllocator) (a : Arena) (rs : list AllocationRange)
  (new : bool) (headPtrs streams : Z) (rIdx rwIdx nRows nBytes : Z)
  (ptrs : option WaveBuffer) (rows : list (option WaveBuffer))
  (tmp : option WaveBuffer) (tmpContents : list Z) : AggregateOperatorState :=
  mkState (alignedHead st) (alignedHeadSize st) (debugActiveBlockCounter st)
    headPtrs streams (hashTable st) al a rs (buffers st) (isGrouped st) new
    (maxReadStreams st) (stateRowSize st) rIdx rwIdx nRows nBytes ptrs rows
    tmp tmpContents.

Definition setIsNew (st : AggregateOperatorState) (new : bool) :=
  withDrain st (allocators st) (arena st) (ranges st) new
    (headResultRowPointers st) (numReadStreams st) (rangeIdx st) (rowIdx st)
    (stateNumRows st) (bytes st) (resultRowPointers st) (resultRows st)
    (temp st) (tempContents st).

(** [if (!allocators[i].ranges[j].empty()) { push_back(move); clearOverflows }] *)
Definition moveOutRange `{WaveHeaders} (i : Z) (st : AggregateOperatorState)
  (j : Z) : Outcome AggregateOperatorState :=
  a <- at_ (allocators st) i ;;
  let r := if j =? 0 then ranges0 a else ranges1 a in
  if rangeEmpty r then Ok st
  else
    let a' := if j =? 0
              then mkAllocator (rowSize a) defaultRange (ranges1 a)
              else mkAllocator (rowSize a) (ranges0 a) defaultRange in
    Ok (withDrain st (setNth (allocators st) (Z.to_nat i) a') (arena st)
          (ranges st ++ [rangeClearOverflows r (stateRowSize st)])
          (isNew st) (headResultRowPointers st) (numReadStreams st)
          (rangeIdx st) (rowIdx st) (stateNumRows st) (bytes st)
          (resultRowPointers st) (resultRows st) (temp st) (tempContents st)).

Definition resize {A : Type} (l : list A) (n : Z) (d : A) : list A :=
  firstn (Z.to_nat n) l ++ repeat d (Z.to_nat n - length l).

(** The [if (aggState->isNew)] block of the grouped case. *)
Definition setUpDrain `{WaveHeaders} (batchSize : Z) (mem : Memory)
  (transfer : Arena) (st : AggregateOperatorState)
  : Outcome (AggregateOperatorState * Arena * list DeviceEvent) :=
  let st := setIsNew st false in
  let numPartitions := wrap32s (partitionMask (hashTable st) + 1) in
  st <- forEach (fun s i => forEach (moveOutRange i) [0; 1] s)
          (upTo numPartitions) st ;;
  let '(r, b) := countResultRows mem (ranges st) (stateRowSize st) in
  '(ptrs, arena') <- arenaAllocate (arena st) (maxReadStreams st * 8) ;;
  '(tmp, transfer') <- arenaAllocate transfer (wrap32s (batchSize + 1) * 8) ;;
  Ok (withDrain st (allocators st) arena' (ranges st) false
        (bufAddr ptrs) (maxReadStreams st) 0 0 r b (Some ptrs)
        (resize (resultRows st) (maxReadStreams st) None)
        (Some tmp) (tempContents st),
      transfer',
      [EvMemset (bufAddr ptrs) 0 (maxReadStreams st * 8);
       EvPrefetchToDevice (alignedHead st) (alignedHeadSize st)]).

(** The [if (!aggState->resultRows[streamIdx])] block. *)
Definition ensureStreamBuffer (batchSize idx : Z) (st : AggregateOperatorState)
  : Outcome (AggregateOperatorState * list DeviceEvent) :=
  slot <- at_ (resultRows st) idx ;;
  match slot with
  | Some _ => Ok (st, [])
  | None =>
    '(buffer, arena') <- arenaAllocate (arena st) (wrap32s (batchSize + 1) * 8) ;;
    ptrs <- fromOption (resultRowPointers st) NullState ;;
    Ok (withDrain st (allocators st) arena' (ranges st) (isNew st)
          (headResultRowPointers st) (numReadStreams st) (rangeIdx st)
          (rowIdx st) (stateNumRows st) (bytes st) (resultRowPointers st)
          (setNth (resultRows st) (Z.to_nat idx) (Some buffer))
          (temp st) (tempContents st),
        [EvHostToDevice (bufAddr ptrs + 8 * idx) [bufAddr buffer] 8])
  end.

Definition canAdvance `{WaveHeaders} (label batchSize : Z)
  (fuel : nat) (mem : Memory) (stream : WaveStream) (transfer : Arena)
  (aggState : AggregateOperatorState)
  : Outcome (AdvanceResult * AggregateOperatorState * Arena * list DeviceEvent) :=
  let result := emptyResult in
  let rowSize := stateRowSize aggState in
  if isGrouped aggState then
    let maxStreams := maxReadStreams aggState in
    let idx := streamIdx stream in
    if idx >=? maxStreams then Ok (result, aggState, transfer, [])
    else
      '(st, transfer, ev1) <-
        (if isNew aggState then setUpDrain batchSize mem transfer aggState
         else Ok (aggState, transfer, [])) ;;
      '(st, ev2) <- ensureStreamBuffer batchSize idx st ;;
      _ <- fromOption (temp st) NullState ;;
      d <- fromOption
             (makeResultRows fuel mem (ranges st)
                (wrap32s (Z.of_nat (length (ranges st)))) rowSize batchSize
                (mkCursor (rangeIdx st) (rowIdx st)))
             Diverges ;;
      let n := d_fill d in
      let st := withDrain st (allocators st) (arena st) (ranges st) (isNew st)
                  (headResultRowPointers st) (numReadStreams st)
                  (startRange (d_cursor d)) (startRow (d_cursor d))
                  (stateNumRows st) (bytes st) (resultRowPointers st)
                  (resultRows st) (temp st) (n :: d_result d) in
      if n =? 0 then Ok (result, st, transfer, ev1 ++ ev2)
      else
        slot <- at_ (resultRows st) idx ;;
        buffer <- fromOption slot NullState ;;
        Ok (mkAdvance n (continueLabel result) (isRetry result)
              (syncDrivers result) (syncStreams result) (updateStatus result)
              (reason result),
            st, transfer,
            ev1 ++ ev2
            ++ [EvHostToDevice (bufAddr buffer) (n :: d_result d) ((n + 1) * 8);
                EvWait])
  else if isNew aggState then
    Ok (mkAdvance 1 label (isRetry result) (syncDrivers result)
          (syncStreams result) (updateStatus result) (reason result),
        setIsNew aggState false, transfer, [])
  else Ok (result, aggState, transfer, []).

End AbstractReadAggregation.

(** ** A reference implementation of the absent headers

    Used for the closed examples only; every general statement below
    quantifies over [WaveHeaders]. *)

Module Reference.

(** Modelled from the spec: [AllocationRange::availableFixed] is not under
    src/; the bytes left below the soft row limit, none when the fill raced
    past it. *)
Definition rangeAvailableFixed (r : AllocationRange) : Z :=
  if rowOffset r >? rowLimit r then 0 else rowLimit r - rowOffset r.

Definition setLimit (r : AllocationRange) (full : bool) (limit : Z) :=
  mkRange full (base r) (capacity r) limit (firstRowOffset r) (rowOffset r)
    (stringOffset r).

(** Modelled from the spec: [AllocationRange::raiseRowLimit] is not under
    src/; raising the soft cap uses capacity that is already reserved (the
    gap below the string heap) and returns the amount satisfied. *)
Definition raiseRowLimit (r : AllocationRange) (size : Z) : Z * AllocationRange :=
  let delta := Z.min (stringOffset r - rowLimit r) size in
  (delta, setLimit r (if delta >? 0 then false else fixedFull r)
            (rowLimit r + delta)).

(** Modelled from the spec: [AllocationRange::clearOverflows] is not under
    src/; a fill that raced past its limit is reset to the last whole row
    below the limit. *)
Definition rangeClearOverflowsRef (r : AllocationRange) (rowSize : Z) : AllocationRange :=
  let ro := if rowOffset r >? rowLimit r
            then firstRowOffset r
                 + Z.quot (rowLimit r - firstRowOffset r) rowSize * rowSize
            else rowOffset r in
  mkRange (fixedFull r) (base r) (capacity r) (rowLimit r) (firstRowOffset r)
    ro (Z.max (stringOffset r) (rowLimit r)).

(** Modelled from the spec: the per-range part of [trimRows] is not under
    src/; it caps the usable bytes of one range. *)
Definition trimFixed (r : AllocationRange) (target : Z) : AllocationRange :=
  if rowLimit r - rowOffset r >? target
  then setLimit r (fixedFull r) (rowOffset r + target)
  else r.

(** Modelled from the spec: the constructor of [AllocationRange] is not
    under src/; a new range starts with a bitmap of one bit per row slot, in
    whole 64-bit words, followed by the rows. *)
Definition newAllocationRangeRef (base capacity rowLimit rowSize : Z) : AllocationRange :=
  let first := (Z.quot capacity rowSize + 63) / 64 * 8 in
  mkRange false base capacity rowLimit first first capacity.

(** Modelled from the spec: the default constructor of [AllocationRange] is
    not under src/; a range without memory, which a move leaves behind. *)
Definition defaultRangeRef : AllocationRange := mkRange true 0 0 0 0 0 0.

(** Modelled from the spec: [HashPartitionAllocator::availableFixed] is not
    under src/; the available fixed capacity of both ranges. *)
Definition availableFixedRef (a : HashPartitionAllocator) : Z :=
  rangeAvailableFixed (ranges0 a) + rangeAvailableFixed (ranges1 a).

(** Modelled from the spec: [HashPartitionAllocator::clearOverflows] is not
    under src/; it reconciles both ranges. *)
Definition clearOverflowsRef (a : HashPartitionAllocator) : HashPartitionAllocator :=
  mkAllocator (rowSize a) (rangeClearOverflowsRef (ranges0 a) (rowSize a))
    (rangeClearOverflowsRef (ranges1 a) (rowSize a)).

(** Modelled from the spec: [HashPartitionAllocator::raiseRowLimits] is not
    under src/; it raises the soft cap of the primary range, then of the
    secondary one, and returns the amount satisfied. *)
Definition raiseRowLimitsRef (a : HashPartitionAllocator) (size : Z)
  : Z * HashPartitionAllocator :=
  let '(raised0, r0) := raiseRowLimit (ranges0 a) size in
  let '(raised1, r1) := raiseRowLimit (ranges1 a) (size - raised0) in
  (raised0 + raised1, mkAllocator (rowSize a) r0 r1).

(** Modelled from the spec: [HashPartitionAllocator::trimRows] is not under
    src/; it "caps usable rows to n". *)
Definition trimRowsRef (a : HashPartitionAllocator) (target : Z) : HashPartitionAllocator :=
  let r0 := trimFixed (ranges0 a) target in
  let r1 := trimFixed (ranges1 a) (target - rangeAvailableFixed r0) in
  mkAllocator (rowSize a) r0 r1.

(** Modelled from the spec: the constants are not under src/; four slots
    per bucket of 128 bytes, row blocks of 256 rows, and -1 for "no resume
    label". *)
Definition headers : WaveHeaders := {|
  kNumSlots := 4;
  kBlockSize := 256;
  sizeofBucketMembers := 128;
  kNoLabel := -1;
  rangeEmpty := fun r => capacity r =? 0;
  rangeClearOverflows := rangeClearOverflowsRef;
  newAllocationRange := newAllocationRangeRef;
  defaultRange := defaultRangeRef;
  availableFixed := availableFixedRef;
  clearOverflows := clearOverflowsRef;
  raiseRowLimits := raiseRowLimitsRef;
  trimRows := trimRowsRef
|}.

End Reference.

(** ** Closed examples *)

Definition exampleRange (distinct : Z) : AllocationRange :=
  mkRange false 1048576 16384 (128 + distinct * 16 + 6000) 128
    (128 + distinct * 16) 16384.

Definition exampleAllocator (distinct : Z) : HashPartitionAllocator :=
  mkAllocator 16 (exampleRange distinct) Reference.defaultRangeRef.

(** One partition of 16-byte rows, 64 buckets of 4 slots (256 slots, at most
    210 entries), [distinct] rows inserted, 6000 bytes of row space left. *)
Definition exampleState (distinct : Z) : AggregateOperatorState :=
  mkState 4096 512 0 0 0
    (mkHashTable 65536 63 0 distinct 210)
    [exampleAllocator distinct]
    (mkArena 2097152 4194304)
    []
    [mkBuffer 4096 512; mkBuffer 65536 8192]
    true true 2 16 0 0 0 0 None [] None [].

Definition exampleProgram : Program := mkProgram (fun s => s + 1) 77.

Definition exampleAggregation : AbstractAggregation :=
  mkAggregation [1] 0 3 7 11 16.

Definition exampleGlobalAggregation : AbstractAggregation :=
  mkAggregation [] 0 3 7 11 16.

(** A stream whose last launch of 100 rows failed every insert for lack of
    memory. *)
Definition exampleStream (distinct : Z) : WaveStream :=
  mkStream 100 0
    [mkBlockStatus 100 (repeat kInsufficientMemory 256)]
    (fun k => if k =? 0 then Some (AggregateReturn.mk 100) else None)
    [(7, exampleState distinct)]
    (fun _ => Some exampleProgram).

(** An allocator whose primary range is full up to its soft limit and has 40
    reserved bytes left under the string heap; the secondary slot is
    empty. *)
Definition fullAllocator : HashPartitionAllocator :=
  mkAllocator 16 (mkRange true 1048576 1000 960 8 960 1000)
    Reference.defaultRangeRef.

(** An allocator whose primary range is full with nothing left to raise. *)
Definition spentAllocator : HashPartitionAllocator :=
  mkAllocator 16 (mkRange true 1048576 1000 1000 8 1000 1000)
    Reference.defaultRangeRef.

(** ** Reference quantities for the statements *)

(** Rows of one block that carry the error code: the first [numRows]
    entries of its error array. *)
Definition failedInBlock (error : ErrorCode) (b : BlockStatus) : Z :=
  Z.of_nat (length (filter (fun e => ErrorCode_eqb e error)
                           (firstn (Z.to_nat (bsNumRows b)) (errors b)))).

Definition failedRows (error : ErrorCode) (status : list BlockStatus) : Z :=
  Zsum (map (failedInBlock error) status).

(** [p] is the least power of two that is at least [x]. *)
Definition LeastPowerOfTwo (p x : Z) : Prop :=
  (exists k, 0 <= k /\ p = 2 ^ k) /\ x <= p /\
  forall j, 0 <= j -> x <= 2 ^ j -> p <= 2 ^ j.

(** What the partition loop of [resupplyHashTable] does to one allocator:
    reconcile overflows, then restock exactly when the available fixed
    capacity is below the increment. *)
Definition Restocked `{WaveHeaders} (increment : Z)
  (a mid : HashPartitionAllocator) : Prop :=
  (availableFixed (clearOverflows a) < increment ->
   exists s0 s1,
     restockAllocator s0 (wrap32s increment) (clearOverflows a) = Ok (s1, mid))
  /\ (increment <= availableFixed (clearOverflows a) -> mid = clearOverflows a).

(** What [setSizesToSafe] does to one allocator. *)
Definition trimToShare `{WaveHeaders} (rowSize allowedPerPartition : Z)
  (a : HashPartitionAllocator) : HashPartitionAllocator :=
  if Z.quot (availableFixed a) rowSize >? allowedPerPartition
  then trimRows a (wrap32s (allowedPerPartition * rowSize))
  else a.

(** ** Predicates and reference quantities of the drain *)

(** A row range the scan handles without wrap-around: it lies in the
    64-bit address space, its rows start at or after the bitmap, and
    [rowOffset] is at least one row size and fits [int32_t], so that
    [rowOffset - rowSize] and [startRow * rowSize + firstRowOffset] are
    exact. *)
Record RangeOK (rowSize : Z) (r : AllocationRange) : Prop := {
  ok_base : 0 <= base r;
  ok_first : 0 <= firstRowOffset r <= rowOffset r;
  ok_nowrap : rowSize <= rowOffset r;
  ok_int32 : rowOffset r <= INT32_MAX;
  ok_addr : base r + rowOffset r < 2 ^ 64
}.

(** The live rows still to hand out from row [s] of the first range of
    [rest] onwards. *)
Definition remFrom (mem : Memory) (rowSize : Z) (rest : list AllocationRange)
  (s : Z) : list Z :=
  match rest with
  | [] => []
  | r :: rest' => liveFrom mem rowSize r s ++ liveRows mem rowSize rest'
  end.

(** The live rows still to hand out at a cursor. *)
Definition remaining (mem : Memory) (rowSize : Z) (ranges : list AllocationRange)
  (c : Cursor) : list Z :=
  remFrom mem rowSize (skipn (Z.to_nat (startRange c)) ranges) (startRow c).

(** A cursor as the calls leave it: inside the range list or just past
    it, at a row index no greater than the row count of its range. *)
Definition validCursor (rowSize : Z) (ranges : list AllocationRange)
  (c : Cursor) : Prop :=
  0 <= startRange c /\ 0 <= startRow c /\
  forall r rest, skipn (Z.to_nat (startRange c)) ranges = r :: rest ->
                 startRow c <= rowSlots r rowSize.

(** Loop iterations that suffice for one call: one per row and two per
    range. *)
Fixpoint fuelFor (rowSize : Z) (ranges : list AllocationRange) : nat :=
  match ranges with
  | [] => 1
  | r :: rest => S (S (Z.to_nat (rowSlots r rowSize))) + fuelFor rowSize rest
  end.

(** The enumeration [live] cut into [n] consecutive batches of [maxRows]. *)
Definition batches (live : list Z) (maxRows : Z) (n : nat) : list (list Z) :=
  map (fun k => firstn (Z.to_nat maxRows) (skipn (k * Z.to_nat maxRows) live))
      (seq 0 n).

(** A row range that holds at least one full row. *)
Definition AtLeastOneRow (rowSize : Z) (r : AllocationRange) : Prop :=
  0 <= base r /\ 0 <= firstRowOffset r /\
  firstRowOffset r + rowSize <= rowOffset r /\
  rowOffset r <= INT32_MAX /\ base r + rowOffset r < 2 ^ 64.

(** The deletion bitmap of a range marks only rows that exist in it. *)
Definition BitmapOK (mem : Memory) (rowSize : Z) (r : AllocationRange) : Prop :=
  0 <= firstRowOffset r <= rowOffset r /\ rowOffset r <= INT32_MAX /\
  forall i, 0 <= i < firstRowOffset r * 8 ->
            isBitSet mem (base r) i = true -> i < rowSlots r rowSize.

(** Row slots of a range minus the set bits of its leading bitmap. *)
Definition liveInRange (mem : Memory) (rowSize : Z) (r : AllocationRange) : Z :=
  (rowOffset r - firstRowOffset r) / rowSize
  - countBits mem (base r) 0 (firstRowOffset r * 8).

(** State of the allocator array after the first [j] partitions. *)
Definition partitionsDone `{WaveHeaders} (increment : Z) (st0 : AggregateOperatorState)
  (j : Z) (st : AggregateOperatorState) : Prop :=
  hashTable st = hashTable st0 /\ alignedHead st = alignedHead st0 /\
  length (allocators st) = length (allocators st0) /\
  (forall i, j <= i ->
     nth_error (allocators st) (Z.to_nat i) = nth_error (allocators st0) (Z.to_nat i)) /\
  (forall i, 0 <= i < j ->
     exists a mid,
       nth_error (allocators st0) (Z.to_nat i) = Some a /\
       nth_error (allocators st) (Z.to_nat i) = Some mid /\
       Restocked increment a mid).

(** State of the allocator array after [setSizesToSafe] visited the first
    [j] partitions. *)
Definition partitionsTrimmed `{WaveHeaders} (rowSize0 allowed : Z) (st0 : AggregateOperatorState)
  (j : Z) (st : AggregateOperatorState) : Prop :=
  hashTable st = hashTable st0 /\ buffers st = buffers st0 /\
  length (allocators st) = length (allocators st0) /\
  (forall i, j <= i ->
     nth_error (allocators st) (Z.to_nat i) = nth_error (allocators st0) (Z.to_nat i)) /\
  (forall i, 0 <= i < j ->
     exists a,
       nth_error (allocators st0) (Z.to_nat i) = Some a /\
       nth_error (allocators st) (Z.to_nat i)
         = Some (trimToShare rowSize0 allowed a)).

(** ** Reference quantities for the drain set-up and the allocators *)

(** The leading bitmap of a range has a bit for every row slot. *)
Definition BitmapCovers (rowSize : Z) (r : AllocationRange) : Prop :=
  rowSlots r rowSize <= firstRowOffset r * 8.


(** The ranges the first grouped read moves out of one allocator: the
    non-empty ones, primary first, each reconciled by [clearOverflows]. *)
Definition movedRanges `{WaveHeaders} (rowSize0 : Z) (a : HashPartitionAllocator)
  : list AllocationRange :=
  map (fun r => rangeClearOverflows r rowSize0)
      (filter (fun r => negb (rangeEmpty r)) [ranges0 a; ranges1 a]).

(** The allocator the move leaves behind. *)
Definition emptiedAllocator `{WaveHeaders} (a : HashPartitionAllocator)
  : HashPartitionAllocator :=
  mkAllocator (rowSize a)
    (if rangeEmpty (ranges0 a) then ranges0 a else defaultRange)
    (if rangeEmpty (ranges1 a) then ranges1 a else defaultRange).

(** The ranges an allocator and the retired list hold together. *)
Definition heldRanges (retired : list AllocationRange)
  (a : HashPartitionAllocator) : list AllocationRange :=
  retired ++ [ranges0 a; ranges1 a].

(** Rows a partition can still take. *)
Definition availableRows `{WaveHeaders} (rowSize0 : Z)
  (a : HashPartitionAllocator) : Z :=
  Z.quot (availableFixed a) rowSize0.

(** A grouped state in the middle of a drain: the scenario range is
    flattened, stream 0 has its row-pointer array, stream 1 has none yet. *)
Definition drainingState : AggregateOperatorState :=
  mkState 4096 512 0 2097152 2
    (mkHashTable 65536 63 0 7 210)
    [mkAllocator 16 Reference.defaultRangeRef Reference.defaultRangeRef]
    (mkArena 2097232 4194304)
    [scenarioRange]
    [mkBuffer 4096 512; mkBuffer 65536 8192]
    true false 2 16 0 0 7 112 (Some (mkBuffer 2097152 16))
    [Some (mkBuffer 2097168 48); None] (Some (mkBuffer 0 48)) [].

(** A keyless (global) aggregation state before its single row is read. *)
Definition globalState : AggregateOperatorState :=
  mkState 4096 512 0 0 0
    (mkHashTable 0 0 0 0 0) [] (mkArena 0 0) [] []
    false true 1 16 0 0 0 0 None [] None [].



(** A state with its allocators and flattened ranges replaced. *)
Definition withRanges (st : AggregateOperatorState)
  (al : list HashPartitionAllocator) (rs : list AllocationRange)
  : AggregateOperatorState :=
  AbstractReadAggregation.withDrain st al (arena st) rs (isNew st)
    (headResultRowPointers st) (numReadStreams st) (rangeIdx st) (rowIdx st)
    (stateNumRows st) (bytes st) (resultRowPointers st) (resultRows st)
    (temp st) (tempContents st).

(** * UTF-8 validation (velox/functions/lib/Utf8Utils.cpp)

    A [const char*] is the list of the bytes from the pointer onwards, each
    byte as its unsigned value; reading past the list is [OutOfRange].  The
    source reads [char]s, which may be signed, but uses them only under
    masks or where they are below 128, so the unsigned value gives the same
    results.  The debug-only [VELOX_DCHECK]s are not modelled. *)

Module Utf8.

(** firstByteCharLength (Utf8Utils.cpp 20-56). *)
Definition firstByteCharLength (u_input : list Z) : Outcome Z :=
  u0 <- at_ u_input 0 ;;
  Ok (if u0 <? 128 then 1
      else if u0 <? 192 then -1
      else if u0 <? 224 then 2
      else if u0 <? 240 then 3
      else if u0 <? 248 then 4
      else if u0 <? 252 then 5
      else if u0 <? 254 then 6
      else -1).

(** Modelled from the spec: [utf_cont] is a macro of utf8procImpl.h, which
    is not under src/; a continuation byte is 10xx_xxxx, as the comments of
    [tryGetUtf8CharLength] write it. *)
Definition utf_cont (ch : Z) : bool := Z.land ch 192 =? 128.

(** Modelled from the spec: [IS_ASCII] is a macro of a header that is not
    under src/; a byte whose top bit is clear. *)
Definition IS_ASCII (ch : Z) : bool := Z.land ch 128 =? 0.

Definition kMinSurrogate : Z := 55296.
Definition kMaxSurrogate : Z := 57343.

(** tryGetUtf8CharLength (Utf8Utils.cpp 58-174): the returned length and
    the value left in [codePoint]. *)
Definition tryGetUtf8CharLength (input : list Z) (size : Z) : Outcome (Z * Z) :=
  charLength <- firstByteCharLength input ;;
  if charLength <? 0 then Ok (-1, -1)
  else if charLength =? 1 then
    b0 <- at_ input 0 ;; Ok (1, b0)
  else
    firstByte <- at_ input 0 ;;
    if size <? 2 then Ok (-1, -1) else
    secondByte <- at_ input 1 ;;
    if negb (utf_cont secondByte) then Ok (-1, -1) else
    if charLength =? 2 then
      let codePoint :=
        Z.lor (Z.shiftl (Z.land firstByte 31) 6) (Z.land secondByte 63) in
      Ok (if codePoint <? 128 then -2 else 2, codePoint)
    else
    if size <? 3 then Ok (-2, -1) else
    thirdByte <- at_ input 2 ;;
    if negb (utf_cont thirdByte) then Ok (-2, -1) else
    if charLength =? 3 then
      let codePoint :=
        Z.lor (Z.lor (Z.shiftl (Z.land firstByte 15) 12)
                     (Z.shiftl (Z.land secondByte 63) 6))
              (Z.land thirdByte 63) in
      if (kMinSurrogate <=? codePoint) && (codePoint <=? kMaxSurrogate)
      then Ok (-3, codePoint)
      else Ok (if codePoint <? 2048 then -3 else 3, codePoint)
    else
    if size <? 4 then Ok (-3, -1) else
    forthByte <- at_ input 3 ;;
    if negb (utf_cont forthByte) then Ok (-3, -1) else
    if charLength =? 4 then
      let codePoint :=
        Z.lor (Z.lor (Z.lor (Z.shiftl (Z.land firstByte 7) 18)
                            (Z.shiftl (Z.land secondByte 63) 12))
                     (Z.shiftl (Z.land thirdByte 63) 6))
              (Z.land forthByte 63) in
      if (codePoint <? 1114112) && (codePoint >=? 65536)
      then Ok (4, codePoint)
      else Ok (-4, codePoint)
    else
    if size <? 5 then Ok (-4, -1) else
    fifthByte <- at_ input 4 ;;
    if negb (utf_cont fifthByte) then Ok (-4, -1) else
    if charLength =? 5 then Ok (-5, -1) else
    if size <? 6 then Ok (-5, -1) else
    sixthByte <- at_ input 5 ;;
    if negb (utf_cont sixthByte) then Ok (-5, -1) else
    if charLength =? 6 then Ok (-6, -1) else
    Ok (-1, -1).

(** [memcpy] of [n] bytes out of a buffer. *)
Definition readBytes (input : list Z) (n : Z) : Outcome (list Z) :=
  if (0 <=? n) && (n <=? Z.of_nat (length input))
  then Ok (firstn (Z.to_nat n) input)
  else Fatal OutOfRange.

(** replaceInvalidUTF8Characters (Utf8Utils.cpp 176-210).  [out] is the
    written prefix of [outputBuffer], so the returned [outputIndex] is its
    length.  [replacement] is [getInvalidUTF8ReplacementString], declared
    in Utf8Utils.h, which is not under src/. *)
Fixpoint replaceLoop (replacement : list Z -> Z -> Z -> list Z) (fuel : nat)
  (input : list Z) (len inputIndex : Z) (out : list Z) : Outcome (list Z) :=
  match fuel with
  | O => Fatal Diverges
  | S fuel' =>
    if inputIndex <? wrap64u len then
      b <- at_ input inputIndex ;;
      if IS_ASCII b then
        replaceLoop replacement fuel' input len (wrap64u (inputIndex + 1))
          (out ++ [b])
      else
        let rest := skipn (Z.to_nat inputIndex) input in
        let left := wrap64u (len - inputIndex) in
        '(charLength, _) <- tryGetUtf8CharLength rest (wrap64s left) ;;
        if charLength >? 0 then
          chunk <- readBytes rest charLength ;;
          replaceLoop replacement fuel' input len
            (wrap64u (inputIndex + charLength)) (out ++ chunk)
        else
          replaceLoop replacement fuel' input len
            (wrap64u (inputIndex + wrap32s (- charLength)))
            (out ++ replacement rest left (wrap32s (- charLength)))
    else Ok out
  end.

Definition replaceInvalidUTF8Characters
  (replacement : list Z -> Z -> Z -> list Z) (fuel : nat) (input : list Z)
  (len : Z) : Outcome (list Z) :=
  replaceLoop replacement fuel input len 0 [].

(** The [std::string] overload (Utf8Utils.cpp 212-222): the buffer holds
    [len * kReplacementCharacterStrings[0].size()] bytes, a [size_t]
    product, and writing past it is [OutOfRange].  [replacementSize] is
    that size. *)
Definition replaceInvalidUTF8CharactersString
  (replacement : list Z -> Z -> Z -> list Z) (replacementSize : Z)
  (fuel : nat) (input : list Z) (len : Z) : Outcome (list Z) :=
  let maxLen := wrap64u (wrap64u len * replacementSize) in
  out <- replaceInvalidUTF8Characters replacement fuel input len ;;
  if Z.of_nat (length out) <=? maxLen then Ok out else Fatal OutOfRange.

(** *** Reference quantities *)

(** A Unicode scalar value: a code point outside the surrogate range. *)
Definition isScalar (cp : Z) : Prop :=
  0 <= cp < 1114112 /\ ~ (kMinSurrogate <= cp <= kMaxSurrogate).

(** The UTF-8 encoding of a scalar value (RFC 3629). *)
Definition encode (cp : Z) : list Z :=
  if cp <? 128 then [cp]
  else if cp <? 2048 then [192 + cp / 64; 128 + cp mod 64]
  else if cp <? 65536 then
    [224 + cp / 4096; 128 + (cp / 64) mod 64; 128 + cp mod 64]
  else
    [240 + cp / 262144; 128 + (cp / 4096) mod 64; 128 + (cp / 64) mod 64;
     128 + cp mod 64].

Definition isByte (b : Z) : Prop := 0 <= b < 256.

(** A replacement policy for the closed examples: U+FFFD, the replacement
    character, once per invalid byte. *)
Definition replaceEachByte (input : list Z) (len size : Z) : list Z :=
  concat (repeat [239; 191; 189] (Z.to_nat size)).

End Utf8.

(** * Properties *)

Lemma wrap32u_small x : 0 <= x < 2 ^ 32 -> wrap32u x = x.
Proof. intros; unfold wrap32u; apply Z.mod_small; assumption. Qed.

Lemma wrap64u_small x : 0 <= x < 2 ^ 64 -> wrap64u x = x.
Proof. intros; unfold wrap64u; apply Z.mod_small; assumption. Qed.

Lemma wrap32s_small x : - 2 ^ 31 <= x < 2 ^ 31 -> wrap32s x = x.
Proof. intros; unfold wrap32s; rewrite Z.mod_small; lia. Qed.

Lemma wrap64s_small x : - 2 ^ 63 <= x < 2 ^ 63 -> wrap64s x = x.
Proof. intros; unfold wrap64s; rewrite Z.mod_small; lia. Qed.

Lemma Zseq_length b n : length (Zseq b n) = n.
Proof. revert b; induction n; simpl; intros; [reflexivity | now rewrite IHn]. Qed.

Lemma Zseq_In b n x : In x (Zseq b n) <-> b <= x < b + Z.of_nat n.
Proof.
  revert b; induction n as [|n IH]; intros b; simpl.
  - lia.
  - rewrite IH. lia.
Qed.

Lemma Zseq_NoDup b n : NoDup (Zseq b n).
Proof.
  revert b; induction n as [|n IH]; intros b; simpl; constructor.
  - rewrite Zseq_In. lia.
  - apply IH.
Qed.

Section Scan.
Variables (mem : Memory) (rowSize maxRows : Z) (r : AllocationRange).
Hypothesis Hrow : 0 < rowSize.
Hypothesis Hcap : maxRows <= INT32_MAX.
Hypothesis Hr : RangeOK rowSize r.

Let slots := rowSlots r rowSize.

Lemma slots_bound : slots * rowSize <= rowOffset r - firstRowOffset r < (slots + 1) * rowSize.
Proof.
  unfold slots, rowSlots.
  pose proof (Z.mul_div_le (rowOffset r - firstRowOffset r) rowSize Hrow).
  pose proof (Z.mul_succ_div_gt (rowOffset r - firstRowOffset r) rowSize Hrow).
  lia.
Qed.

Lemma in_range_iff s :
  firstRowOffset r + s * rowSize <= rowOffset r - rowSize <-> s < slots.
Proof.
  pose proof slots_bound. split; intros; nia.
Qed.

Lemma liveFrom_done s : slots <= s -> liveFrom mem rowSize r s = [].
Proof.
  intros. unfold liveFrom. fold slots.
  replace (Z.to_nat (slots - s)) with O by lia. reflexivity.
Qed.

Lemma liveFrom_step s : s < slots ->
  liveFrom mem rowSize r s =
  (if isBitSet mem (base r) s then [] else [rowAddress r rowSize s])
  ++ liveFrom mem rowSize r (s + 1).
Proof.
  intros. unfold liveFrom. fold slots.
  replace (Z.to_nat (slots - s)) with (S (Z.to_nat (slots - (s + 1)))) by lia.
  simpl. destruct (isBitSet mem (base r) s); reflexivity.
Qed.

Lemma scanRange_spec n : forall s fuel fill res L k,
  n = Z.to_nat (slots - s) -> (n < fuel)%nat ->
  0 <= s <= slots -> 0 <= fill < maxRows ->
  L = liveFrom mem rowSize r s ->
  k = Z.to_nat (maxRows - fill) ->
  (length L < k)%nat /\
    (exists row, scanRange fuel mem r rowSize maxRows (rowOffset r - rowSize)
       (firstRowOffset r + s * rowSize) s fill res
     = Some (false, row, fill + Z.of_nat (length L), res ++ L))
  \/
  (k <= length L)%nat /\
    (exists s', s < s' <= slots /\
       liveFrom mem rowSize r s' = skipn k L /\
       scanRange fuel mem r rowSize maxRows (rowOffset r - rowSize)
         (firstRowOffset r + s * rowSize) s fill res
       = Some (true, s', maxRows, res ++ firstn k L)).
Proof.
  destruct Hr as [Hb Hf Hnw Hi Ha]. unfold INT32_MAX in *.
  pose proof slots_bound as SB.
  induction n as [|n IH]; intros s fuel fill res L k Hn Hfuel Hs Hfill HL Hk.
  - (* no row left in this range *)
    assert (slots <= s) by lia.
    left. subst L. rewrite liveFrom_done by assumption. simpl.
    split; [subst k; lia|].
    destruct fuel as [|fuel]; [lia|]. simpl.
    destruct (Z.leb_spec (firstRowOffset r + s * rowSize) (rowOffset r - rowSize)).
    + apply in_range_iff in H0. lia.
    + exists s. rewrite Z.add_0_r, app_nil_r. reflexivity.
  - assert (Hlt : s < slots) by lia.
    destruct fuel as [|fuel]; [lia|]. simpl.
    pose proof (proj2 (in_range_iff s) Hlt) as Hle.
    destruct (Z.leb_spec (firstRowOffset r + s * rowSize) (rowOffset r - rowSize)); [|lia].
    assert (Hoff : wrap32u (firstRowOffset r + s * rowSize + rowSize)
                   = firstRowOffset r + (s + 1) * rowSize).
    { rewrite wrap32u_small by nia. ring. }
    assert (Hrow1 : wrap32s (s + 1) = s + 1).
    { apply wrap32s_small. nia. }
    rewrite Hoff, Hrow1.
    subst L. rewrite (liveFrom_step s Hlt).
    destruct (isBitSet mem (base r) s) eqn:Hbit.
    + simpl app.
      destruct (IH (s + 1) fuel fill res _ k ltac:(lia) ltac:(lia) ltac:(lia)
                   ltac:(lia) eq_refl Hk)
        as [Hleft|[Hlen [s' [Hs' Hrest]]]]; [left; exact Hleft|].
      right. split; [exact Hlen|]. exists s'. split; [lia|exact Hrest].
    + assert (Haddr : wrap64u (base r + (firstRowOffset r + s * rowSize))
                      = rowAddress r rowSize s).
      { unfold rowAddress. rewrite wrap64u_small by nia. ring. }
      rewrite Haddr.
      assert (Hfill1 : wrap32s (fill + 1) = fill + 1) by (apply wrap32s_small; lia).
      rewrite Hfill1.
      destruct (Z.geb_spec (fill + 1) maxRows) as [Hge|Hnge].
      * (* the cap is reached: early return *)
        right. assert (k = 1%nat) by (subst k; lia). rewrite H0.
        split; [simpl; lia|].
        exists (s + 1). split; [lia|]. split; [reflexivity|].
        simpl. f_equal. f_equal. f_equal. lia.
      * specialize (IH (s + 1) fuel (fill + 1) (res ++ [rowAddress r rowSize s])
                        _ _ ltac:(lia) ltac:(lia) ltac:(lia) ltac:(lia) eq_refl eq_refl).
        destruct IH as [[Hlen [row Heq]]|[Hlen [s' [Hs' [Hrest Heq]]]]]; try lia.
        -- left. split; [subst k; simpl; lia|].
           exists row. rewrite Heq. simpl. rewrite <- app_assoc. simpl.
           f_equal. f_equal. f_equal. lia.
        -- right.
           replace k with (S (Z.to_nat (maxRows - (fill + 1)))) by (subst k; lia).
           split; [simpl; lia|].
           exists s'. split; [lia|]. split; [exact Hrest|].
           rewrite Heq. simpl. rewrite <- app_assoc. reflexivity.
Qed.
End Scan.

Lemma skipn_cons_nth {A} (l : list A) i r rest :
  skipn i l = r :: rest ->
  nth_error l i = Some r /\ skipn (S i) l = rest /\ (i < length l)%nat.
Proof.
  revert l; induction i as [|i IH]; intros l H.
  - destruct l; simpl in *; [discriminate|]. inversion H; subst.
    repeat split; simpl; lia.
  - destruct l as [|x l]; simpl in H; [discriminate|].
    destruct (IH l H) as [H1 [H2 H3]]. repeat split; simpl; auto; lia.
Qed.

Lemma skipn_nil_length {A} (l : list A) i : skipn i l = [] -> (length l <= i)%nat.
Proof.
  revert l; induction i as [|i IH]; intros l H.
  - simpl in H; subst; simpl; lia.
  - destruct l; simpl in *; [lia|]. specialize (IH l H). lia.
Qed.

Lemma fuelFor_skipn rowSize l i : (fuelFor rowSize (skipn i l) <= fuelFor rowSize l)%nat.
Proof.
  revert l; induction i as [|i IH]; intros l; simpl; [lia|].
  destruct l as [|r l]; simpl; [lia|]. specialize (IH l). lia.
Qed.

Lemma remFrom_zero mem rowSize rest :
  remFrom mem rowSize rest 0 = liveRows mem rowSize rest.
Proof. destruct rest; reflexivity. Qed.

Lemma rowSlots_nonneg rowSize r :
  0 < rowSize -> RangeOK rowSize r -> 0 <= rowSlots r rowSize.
Proof.
  intros Hrow [_ Hf _ _ _]. unfold rowSlots. apply Z.div_pos; lia.
Qed.

Section Drain.
Variables (mem : Memory) (rowSize maxRows : Z) (ranges : list AllocationRange).
Hypothesis Hrow : 0 < rowSize.
Hypothesis Hcap : 1 <= maxRows <= INT32_MAX.
Hypothesis Hlen : Z.of_nat (length ranges) <= INT32_MAX.
Hypothesis Hok : Forall (RangeOK rowSize) ranges.

Lemma rangesLoop_spec rest : forall i s fuel fill res,
  0 <= i -> skipn (Z.to_nat i) ranges = rest ->
  (fuelFor rowSize rest <= fuel)%nat ->
  0 <= s -> (forall r rest', rest = r :: rest' -> s <= rowSlots r rowSize) ->
  0 <= fill < maxRows ->
  exists d,
    rangesLoop fuel mem ranges (Z.of_nat (length ranges)) rowSize maxRows
      i s fill res = Some d /\
    d_result d = res ++ firstn (Z.to_nat (maxRows - fill)) (remFrom mem rowSize rest s) /\
    d_fill d = fill + Z.of_nat (length (firstn (Z.to_nat (maxRows - fill))
                                          (remFrom mem rowSize rest s))) /\
    validCursor rowSize ranges (d_cursor d) /\
    remaining mem rowSize ranges (d_cursor d)
      = skipn (Z.to_nat (maxRows - fill)) (remFrom mem rowSize rest s).
Proof.
  unfold INT32_MAX in *.
  induction rest as [|r rest IH]; intros i s fuel fill res Hi Hskip Hfuel Hs Hsl Hfill.
  - (* past the last range *)
    apply skipn_nil_length in Hskip as Hge.
    destruct fuel as [|fuel]; [simpl in Hfuel; lia|]. simpl.
    destruct (Z.ltb_spec i (Z.of_nat (length ranges))); [lia|].
    eexists; split; [reflexivity|]. simpl.
    rewrite firstn_nil, skipn_nil, app_nil_r. simpl.
    split; [reflexivity|]. split; [lia|]. split.
    + unfold validCursor; simpl. repeat split; try lia.
      intros r0 rest0 H0. rewrite Hskip in H0; discriminate.
    + unfold remaining; simpl. rewrite Hskip. reflexivity.
  - destruct (skipn_cons_nth _ _ _ _ Hskip) as [Hnth [Hnext Hlt]].
    assert (Hr : RangeOK rowSize r).
    { rewrite Forall_forall in Hok. apply Hok. eapply nth_error_In; eauto. }
    pose proof (rowSlots_nonneg _ _ Hrow Hr) as Hnn.
    specialize (Hsl r rest eq_refl).
    destruct fuel as [|fuel]; [simpl in Hfuel; lia|]. simpl in Hfuel. simpl rangesLoop.
    destruct (Z.ltb_spec i (Z.of_nat (length ranges))); [|lia].
    destruct (Z.ltb_spec i 0); [lia|].
    rewrite Hnth.
    assert (Hlim : scanLimit r rowSize = rowOffset r - rowSize).
    { unfold scanLimit. destruct Hr. unfold INT32_MAX in *. apply wrap32u_small; lia. }
    assert (Hstart : scanStart r rowSize s = firstRowOffset r + s * rowSize).
    { unfold scanStart. destruct Hr. unfold INT32_MAX in *.
      pose proof (slots_bound rowSize r Hrow).
      rewrite wrap32u_small by nia. ring. }
    rewrite Hlim, Hstart.
    destruct (scanRange_spec mem rowSize maxRows r Hrow ltac:(unfold INT32_MAX; lia) Hr
                _ s fuel fill res _ _ eq_refl ltac:(lia) ltac:(lia) Hfill eq_refl eq_refl)
      as [[Hshort [row Heq]]|[Hlong [s' [Hs' [Hrest Heq]]]]].
    + (* the range is exhausted below the cap: on to the next range *)
      rewrite Heq.
      assert (Hw : wrap32s (i + 1) = i + 1) by (apply wrap32s_small; lia).
      rewrite Hw.
      set (L := liveFrom mem rowSize r s) in *.
      destruct (IH (i + 1) 0 fuel (fill + Z.of_nat (length L)) (res ++ L))
        as [d [Hd [Hres [Hfl [Hval Hrem]]]]]; try lia.
      * replace (Z.to_nat (i + 1)) with (S (Z.to_nat i)) by lia. exact Hnext.
      * intros r0 rest0 ->. apply rowSlots_nonneg; auto.
        rewrite Forall_forall in Hok. apply Hok.
        apply (nth_error_In ranges (S (Z.to_nat i))).
        destruct (skipn_cons_nth _ _ _ _ Hnext) as [Hn _]. exact Hn.
      * exists d. split; [exact Hd|].
        rewrite remFrom_zero in *. simpl remFrom. fold L.
        replace (Z.to_nat (maxRows - (fill + Z.of_nat (length L))))
          with (Z.to_nat (maxRows - fill) - length L)%nat in * by lia.
        rewrite firstn_app, skipn_app.
        rewrite (firstn_all2 L) by lia. rewrite (skipn_all2 L) by lia.
        rewrite Hres, Hfl, Hrem. rewrite <- app_assoc. simpl.
        split; [reflexivity|]. split; [rewrite length_app; lia|].
        split; [exact Hval|reflexivity].
    + (* the cap is reached inside this range *)
      rewrite Heq. eexists; split; [reflexivity|]. simpl.
      set (L := liveFrom mem rowSize r s) in *.
      rewrite firstn_app, skipn_app.
      replace (Z.to_nat (maxRows - fill) - length L)%nat with O by lia.
      simpl. rewrite app_nil_r.
      split; [reflexivity|]. split; [rewrite length_firstn; lia|]. split.
      * unfold validCursor; simpl. split; [lia|]. split; [lia|].
        replace (Z.to_nat (Z.of_nat (Z.to_nat i))) with (Z.to_nat i) by lia.
        intros r0 rest0 H1. rewrite Hskip in H1. inversion H1; subst. lia.
      * unfold remaining. simpl. rewrite Hskip. simpl. rewrite Hrest. reflexivity.
Qed.

Lemma makeResultRows_spec c fuel :
  validCursor rowSize ranges c ->
  (fuelFor rowSize ranges <= fuel)%nat ->
  exists d,
    makeResultRows fuel mem ranges (Z.of_nat (length ranges)) rowSize maxRows c
      = Some d /\
    d_result d = firstn (Z.to_nat maxRows) (remaining mem rowSize ranges c) /\
    d_fill d = Z.of_nat (length (d_result d)) /\
    validCursor rowSize ranges (d_cursor d) /\
    remaining mem rowSize ranges (d_cursor d)
      = skipn (Z.to_nat maxRows) (remaining mem rowSize ranges c).
Proof.
  intros [Hc1 [Hc2 Hc3]] Hfuel.
  pose proof (fuelFor_skipn rowSize ranges (Z.to_nat (startRange c))).
  destruct (rangesLoop_spec _ (startRange c) (startRow c) fuel 0 [] Hc1 eq_refl
              ltac:(lia) Hc2 Hc3 ltac:(lia))
    as [d [Hd [Hres [Hfl [Hval Hrem]]]]].
  rewrite Z.sub_0_r in *. simpl in Hres.
  exists d. unfold makeResultRows, remaining.
  split; [exact Hd|]. split; [exact Hres|]. split; [rewrite Hfl, Hres; lia|].
  split; [exact Hval|exact Hrem].
Qed.

Lemma drain_spec n : forall c fuel,
  validCursor rowSize ranges c ->
  (fuelFor rowSize ranges <= fuel)%nat ->
  exists c',
    drain fuel mem ranges rowSize maxRows c n
      = Some (batches (remaining mem rowSize ranges c) maxRows n, c').
Proof.
  induction n as [|n IH]; intros c fuel Hc Hfuel.
  - exists c. reflexivity.
  - simpl. destruct (makeResultRows_spec c fuel Hc Hfuel)
      as [d [Hd [Hres [_ [Hval Hrem]]]]].
    rewrite Hd. destruct (IH (d_cursor d) fuel Hval Hfuel) as [c' Hc'].
    rewrite Hc'. exists c'. f_equal. f_equal.
    unfold batches. simpl. rewrite Hres. f_equal.
    rewrite <- seq_shift, map_map. apply map_ext. intros k.
    rewrite Hrem, skipn_skipn. f_equal. f_equal. lia.
Qed.
End Drain.

Lemma firstn_plus {A} (l : list A) a b :
  firstn (a + b) l = firstn a l ++ firstn b (skipn a l).
Proof.
  revert l; induction a as [|a IH]; intros l; simpl; [reflexivity|].
  destruct l as [|x l]; simpl; [now rewrite firstn_nil|]. now rewrite IH.
Qed.

Lemma batches_S live maxRows n :
  batches live maxRows (S n) =
  firstn (Z.to_nat maxRows) live
  :: batches (skipn (Z.to_nat maxRows) live) maxRows n.
Proof.
  unfold batches. simpl. f_equal.
  rewrite <- seq_shift, map_map. apply map_ext. intros k.
  rewrite skipn_skipn. f_equal. f_equal. lia.
Qed.

Lemma concat_batches maxRows n : forall live,
  concat (batches live maxRows n) = firstn (n * Z.to_nat maxRows) live.
Proof.
  induction n as [|n IH]; intros live; [reflexivity|].
  rewrite batches_S. simpl. rewrite IH, <- firstn_plus. reflexivity.
Qed.



Lemma liveFrom_In mem rowSize r s a :
  In a (liveFrom mem rowSize r s) ->
  exists i, s <= i < rowSlots r rowSize /\ a = rowAddress r rowSize i /\
            isBitSet mem (base r) i = false.
Proof.
  unfold liveFrom. intros H. apply in_map_iff in H as [i [<- Hi]].
  apply filter_In in Hi as [Hi Hb]. apply Zseq_In in Hi.
  exists i. split; [lia|]. split; [reflexivity|].
  now destruct (isBitSet mem (base r) i).
Qed.

Lemma liveRows_In mem rowSize ranges a :
  In a (liveRows mem rowSize ranges) ->
  exists r i, In r ranges /\ 0 <= i < rowSlots r rowSize /\
              a = rowAddress r rowSize i.
Proof.
  unfold liveRows. intros H. apply in_flat_map in H as [r [Hr Ha]].
  apply liveFrom_In in Ha as [i [Hi [Ha _]]]. exists r, i. auto.
Qed.

Lemma remaining_In mem rowSize ranges c a :
  0 <= startRow c ->
  In a (remaining mem rowSize ranges c) ->
  exists r i, In r ranges /\ 0 <= i < rowSlots r rowSize /\
              a = rowAddress r rowSize i.
Proof.
  intros Hs. unfold remaining, remFrom.
  destruct (skipn (Z.to_nat (startRange c)) ranges) as [|r rest] eqn:Hskip;
    [intros []|].
  intros H. apply in_app_or in H as [H|H].
  - apply liveFrom_In in H as [i [Hi [Ha _]]].
    exists r, i. split; [|split; [lia|exact Ha]].
    destruct (skipn_cons_nth _ _ _ _ Hskip) as [Hn _].
    eapply nth_error_In; eauto.
  - apply liveRows_In in H as [r' [i [Hr' Hi]]]. exists r', i. split; [|exact Hi].
    assert (In r' (skipn (Z.to_nat (startRange c)) ranges)) by (rewrite Hskip; now right).
    rewrite <- (firstn_skipn (Z.to_nat (startRange c)) ranges).
    apply in_or_app. now right.
Qed.

Lemma rowAddress_bounds rowSize r i :
  0 < rowSize -> 0 <= i < rowSlots r rowSize ->
  base r + firstRowOffset r <= rowAddress r rowSize i
  <= base r + rowOffset r - rowSize.
Proof.
  intros Hrow Hi. unfold rowAddress.
  pose proof (Z.mul_div_le (rowOffset r - firstRowOffset r) rowSize Hrow).
  unfold rowSlots in Hi. nia.
Qed.

(** With a cap of at most one row the call stops at its first write, as it
    does for a cap of exactly one. *)
Lemma scanRange_cap_le1 fuel mem r rowSize maxRows limit :
  maxRows <= 1 -> forall offset row res,
  scanRange fuel mem r rowSize maxRows limit offset row 0 res
  = scanRange fuel mem r rowSize 1 limit offset row 0 res /\
  forall row' f res',
    scanRange fuel mem r rowSize 1 limit offset row 0 res
    = Some (false, row', f, res') -> f = 0.
Proof.
  intros Hm. induction fuel as [|fuel IH]; intros offset row res; simpl.
  - split; [reflexivity|discriminate].
  - destruct (offset <=? limit).
    + destruct (isBitSet mem (base r) row); [apply IH|].
      assert (Hw : wrap32s 1 = 1) by reflexivity.
      assert (H1 : (1 >=? maxRows) = true) by (apply Z.geb_le; lia).
      rewrite !Hw, H1. change (1 >=? 1) with true. cbv iota.
      split; [reflexivity|discriminate].
    + split; [reflexivity|]. intros row' f res' H. now inversion H.
Qed.

Lemma rangesLoop_cap_le1 fuel mem ranges numRanges rowSize maxRows :
  maxRows <= 1 -> forall i s res,
  rangesLoop fuel mem ranges numRanges rowSize maxRows i s 0 res
  = rangesLoop fuel mem ranges numRanges rowSize 1 i s 0 res.
Proof.
  intros Hm. induction fuel as [|fuel IH]; intros i s res; simpl; [reflexivity|].
  destruct (i <? numRanges); [|reflexivity].
  destruct (i <? 0); [reflexivity|].
  destruct (nth_error ranges (Z.to_nat i)) as [r|]; [|reflexivity].
  destruct (scanRange_cap_le1 fuel mem r rowSize maxRows (scanLimit r rowSize) Hm
              (scanStart r rowSize s) s res) as [Heq Hf].
  rewrite Heq.
  destruct (scanRange fuel mem r rowSize 1 (scanLimit r rowSize)
              (scanStart r rowSize s) s 0 res) as [[[[[] row'] f] res']|];
    try reflexivity.
  rewrite (Hf row' f res' eq_refl). apply IH.
Qed.

Lemma scenarioRange_ok : RangeOK 16 scenarioRange.
Proof. constructor; vm_compute; try split; congruence. Qed.

Lemma AtLeastOneRow_ok rowSize r :
  0 < rowSize -> AtLeastOneRow rowSize r -> RangeOK rowSize r.
Proof. intros Hrow (Hb & Hf & Hone & Hi & Ha). constructor; lia. Qed.

Lemma countBits_le_slots mem rowSize r :
  0 < rowSize -> BitmapOK mem rowSize r ->
  0 <= countBits mem (base r) 0 (firstRowOffset r * 8) <= rowSlots r rowSize.
Proof.
  intros Hrow (Hf & Hi & Hbits). unfold countBits. split; [lia|].
  assert (Hnn : 0 <= rowSlots r rowSize) by (apply Z.div_pos; lia).
  set (l := filter (isBitSet mem (base r))
              (Zseq 0 (Z.to_nat (firstRowOffset r * 8 - 0)))).
  assert (Hincl : incl l (Zseq 0 (Z.to_nat (rowSlots r rowSize)))).
  { intros i Hin. subst l. apply filter_In in Hin as [Hin Hset].
    apply Zseq_In in Hin. apply Zseq_In.
    specialize (Hbits i ltac:(lia) Hset). lia. }
  assert (Hnd : NoDup l) by (subst l; apply NoDup_filter, Zseq_NoDup).
  pose proof (NoDup_incl_length Hnd Hincl) as Hlen.
  rewrite Zseq_length in Hlen. lia.
Qed.

Lemma countRange_step mem rowSize r count bytes :
  0 < rowSize -> BitmapOK mem rowSize r ->
  - 2 ^ 63 <= count -> count + 2 ^ 31 < 2 ^ 63 ->
  0 <= liveInRange mem rowSize r < 2 ^ 31 /\
  fst (countRange mem rowSize (count, bytes) r)
    = count + liveInRange mem rowSize r.
Proof.
  intros Hrow Hr Hlo Hhi.
  pose proof (countBits_le_slots mem rowSize r Hrow Hr) as Hbits.
  destruct Hr as (Hf & Hi & _). unfold INT32_MAX in Hi.
  assert (Hslots : rowSlots r rowSize <= rowOffset r - firstRowOffset r).
  { unfold rowSlots. apply Z.div_le_upper_bound; nia. }
  unfold countRange, liveInRange. cbn [fst].
  rewrite Z.quot_div_nonneg by lia. fold (rowSlots r rowSize).
  rewrite (wrap32s_small (countBits _ _ _ _)) by lia.
  split; [lia|]. apply wrap64s_small. lia.
Qed.

Lemma countResultRows_fold mem rowSize ranges :
  0 < rowSize -> Forall (BitmapOK mem rowSize) ranges ->
  forall acc,
    0 <= fst acc ->
    fst acc + 2 ^ 31 * Z.of_nat (length ranges) < 2 ^ 63 ->
    fst (fold_left (countRange mem rowSize) ranges acc)
      = fst acc + Zsum (map (liveInRange mem rowSize) ranges)
    /\ fst acc <= fst (fold_left (countRange mem rowSize) ranges acc).
Proof.
  intros Hrow Hok. induction Hok as [|r rest Hr Hrest IH]; intros [count bytes] Hc Hb.
  - simpl. lia.
  - cbn [fold_left map fst] in *.
    assert (Hlen1 : Z.of_nat (length (r :: rest)) = Z.of_nat (length rest) + 1)
      by (simpl length; lia).
    rewrite Hlen1 in Hb.
    destruct (countRange_step mem rowSize r count bytes Hrow Hr) as [Hn Hstep];
      [lia | lia |].
    destruct (IH (countRange mem rowSize (count, bytes) r)) as [Heq Hle];
      [lia | lia |].
    unfold Zsum in *. cbn [fold_right]. lia.
Qed.

(** ** makeResultRows and countResultRows: the statements *)


Lemma scenario_bitmap_ok : BitmapOK scenarioMem 16 scenarioRange.
Proof.
  split; [vm_compute; split; congruence|]. split; [vm_compute; congruence|].
  intros i Hi Hset. change (firstRowOffset scenarioRange * 8) with 64 in Hi.
  change (rowSlots scenarioRange 16) with 10.
  destruct (Z.ltb_spec i 10) as [|Hge]; [assumption|exfalso].
  unfold isBitSet, scenarioMem in Hset.
  rewrite (Z.div_small i 64), (Z.mod_small i 64) in Hset by lia.
  change (base scenarioRange + 8 * 0 =? scenarioBase) with true in Hset.
  cbv iota in Hset.
  assert (Hhi : Z.testbit 137 i = false).
  { apply Z.bits_above_log2; [lia|]. change (Z.log2 137) with 7. lia. }
  congruence.
Qed.


Lemma validCursor_origin rowSize ranges :
  0 < rowSize -> Forall (RangeOK rowSize) ranges ->
  validCursor rowSize ranges (mkCursor 0 0).
Proof.
  intros Hrow Hok. unfold validCursor; simpl. split; [lia|]. split; [lia|].
  intros r rest Hskip. apply rowSlots_nonneg; [assumption|].
  rewrite Forall_forall in Hok. apply Hok. subst ranges. now left.
Qed.

Lemma In_firstn {A} (a : A) n l : In a (firstn n l) -> In a l.
Proof.
  intros H. rewrite <- (firstn_skipn n l). apply in_or_app. now left.
Qed.

Lemma remaining_origin mem rowSize ranges :
  remaining mem rowSize ranges (mkCursor 0 0) = liveRows mem rowSize ranges.
Proof. unfold remaining; simpl. apply remFrom_zero. Qed.




(** C10. The scan limit of a range is the unsigned 32-bit difference
    [rowOffset - rowSize].  When every range holds at least one full row
    ([rowOffset >= firstRowOffset + rowSize]) every address a call writes lies
    between [base + firstRowOffset] and [base + rowOffset - rowSize] of one of
    the ranges.  When [rowOffset < rowSize] the difference wraps around and
    the call writes addresses beyond the range. *)
Theorem makeResultRows_in_bounds :
  (forall r rowSize, scanLimit r rowSize = (rowOffset r - rowSize) mod 2 ^ 32)
  /\ (forall mem rowSize maxRows ranges c fuel,
        0 < rowSize ->
        maxRows <= INT32_MAX ->
        Z.of_nat (length ranges) <= INT32_MAX ->
        Forall (AtLeastOneRow rowSize) ranges ->
        validCursor rowSize ranges c ->
        (fuelFor rowSize ranges <= fuel)%nat ->
        exists d,
          makeResultRows fuel mem ranges (Z.of_nat (length ranges)) rowSize
            maxRows c = Some d /\
          Forall (fun a => exists r, In r ranges /\
                     base r + firstRowOffset r <= a
                     <= base r + rowOffset r - rowSize)
                 (d_result d))
  /\ (rowOffset freshRange < 16
      /\ scanLimit freshRange 16 = 2 ^ 32 - 8
      /\ exists d,
           makeResultRows 16 zeroMem [freshRange] 1 16 2 (mkCursor 0 0) = Some d
           /\ d_result d = [4104; 4120]
           /\ Forall (fun a => base freshRange + rowOffset freshRange - 16 < a)
                     (d_result d)).
Proof.
  split; [reflexivity|]. split.
  - intros mem rowSize maxRows ranges c fuel Hrow Hcap Hlen Hone Hc Hfuel.
    assert (Hok : Forall (RangeOK rowSize) ranges).
    { eapply Forall_impl; [|exact Hone]. intros r. now apply AtLeastOneRow_ok. }
    assert (Hmax : makeResultRows fuel mem ranges (Z.of_nat (length ranges))
                     rowSize maxRows c
                   = makeResultRows fuel mem ranges (Z.of_nat (length ranges))
                       rowSize (Z.max 1 maxRows) c).
    { destruct (Z.max_spec 1 maxRows) as [[Hlt ->]|[Hge ->]]; [reflexivity|].
      unfold makeResultRows. apply rangesLoop_cap_le1; assumption. }
    destruct (makeResultRows_spec mem rowSize (Z.max 1 maxRows) ranges Hrow
                ltac:(unfold INT32_MAX in *; lia) Hlen Hok c fuel Hc Hfuel)
      as [d [Hd [Hres _]]].
    exists d. split; [now rewrite Hmax|].
    rewrite Hres, Forall_forall. intros a Ha.
    apply In_firstn in Ha.
    destruct Hc as [_ [Hs _]].
    apply remaining_In in Ha as [r [i [Hr [Hi ->]]]]; [|assumption].
    exists r. split; [assumption|]. now apply rowAddress_bounds.
  - split; [vm_compute; reflexivity|]. split; [reflexivity|].
    eexists. split; [reflexivity|]. split; [reflexivity|].
    simpl. repeat constructor.
Qed.

Lemma scenario_at_least_one_row : AtLeastOneRow 16 scenarioRange.
Proof.
  unfold AtLeastOneRow, INT32_MAX, scenarioRange, scenarioBase.
  cbn [base firstRowOffset rowOffset]. lia.
Qed.

Lemma makeResultRows_in_bounds_witness :
  exists d,
    makeResultRows 16 scenarioMem [scenarioRange] (Z.of_nat 1) 16 5 (mkCursor 0 0)
      = Some d /\
    Forall (fun a => exists r, In r [scenarioRange] /\
               base r + firstRowOffset r <= a <= base r + rowOffset r - 16)
           (d_result d).
Proof.
  apply (proj1 (proj2 makeResultRows_in_bounds) scenarioMem 16 5 [scenarioRange]
           (mkCursor 0 0) 16%nat).
  - lia.
  - unfold INT32_MAX; lia.
  - unfold INT32_MAX; simpl; lia.
  - constructor; [exact scenario_at_least_one_row | constructor].
  - apply validCursor_origin; [lia|].
    constructor; [exact scenarioRange_ok | constructor].
  - vm_compute. lia.
Defined.

Section Continuation.
Context `{WaveHeaders}.

(** C4. With grouping keys and a grid-level state that reports failures,
    [AbstractAggregation::canAdvance] returns a retry for the stream's row
    count at the continue label, synchronised over drivers, with
    [resupplyHashTable] as the recovery callback and the operator state as
    payload; the grid-level state is cleared, so the next check finds nothing
    to retry, and nothing else in the stream changes. *)
Theorem canAdvance_requests_resupply :
  forall self stream state gridState,
    keys self <> [] ->
    gridStatus stream (instructionStatus self) = Some gridState ->
    AggregateReturn.numDistinct gridState <> 0 ->
    exists result stream',
      AbstractAggregation.canAdvance self stream state = (result, stream') /\
      numRows result = streamNumRows stream /\
      continueLabel result = aggContinueLabel self /\
      isRetry result = true /\
      syncDrivers result = true /\
      syncStreams result = false /\
      updateStatus result = Some resupplyHashTable /\
      reason result = state /\
      gridStatus stream' (instructionStatus self) = Some (AggregateReturn.mk 0) /\
      (forall other, other <> instructionStatus self ->
                     gridStatus stream' other = gridStatus stream other) /\
      streamNumRows stream' = streamNumRows stream /\
      hostBlockStatus stream' = hostBlockStatus stream /\
      operatorStates stream' = operatorStates stream /\
      fst (AbstractAggregation.canAdvance self stream' state) = emptyResult.
Proof.
  intros self stream state gridState Hkeys Hgrid Hfail.
  unfold AbstractAggregation.canAdvance.
  destruct (keys self) as [|key rest] eqn:Hk; [congruence|].
  rewrite Hgrid.
  destruct (Z.eqb_spec (AggregateReturn.numDistinct gridState) 0); [contradiction|].
  eexists. eexists. split; [reflexivity|].
  cbn [numRows continueLabel isRetry syncDrivers syncStreams updateStatus reason
       clearGridStatus checkBlockStatuses gridStatus streamNumRows
       hostBlockStatus operatorStates].
  unfold checkBlockStatuses. rewrite Z.eqb_refl, Hgrid.
  repeat (split; [reflexivity|]).
  split.
  - intros other Hother. destruct (Z.eqb_spec other (instructionStatus self));
      [contradiction|reflexivity].
  - repeat (split; [reflexivity|]). reflexivity.
Qed.

(** C5. [AbstractAggregation::canAdvance] returns the empty result, and
    leaves the stream alone, when the aggregation has no grouping keys,
    when there is no grid-level state because nothing was launched, and when
    the grid-level state reports no failure. *)
Theorem canAdvance_empty_cases :
  (forall self stream state,
     keys self = [] ->
     AbstractAggregation.canAdvance self stream state = (emptyResult, stream))
  /\ (forall self stream state,
        gridStatus stream (instructionStatus self) = None ->
        AbstractAggregation.canAdvance self stream state = (emptyResult, stream))
  /\ (forall self stream state gridState,
        gridStatus stream (instructionStatus self) = Some gridState ->
        AggregateReturn.numDistinct gridState = 0 ->
        AbstractAggregation.canAdvance self stream state = (emptyResult, stream)).
Proof.
  unfold AbstractAggregation.canAdvance. repeat split.
  - intros self stream state ->. reflexivity.
  - intros self stream state ->. destruct (keys self); reflexivity.
  - intros self stream state gridState -> ->. destruct (keys self); reflexivity.
Qed.

(** C9. A grouped read from a stream whose index is at least the maximum
    number of read streams returns the empty result, launches nothing, and
    leaves the operator state, cursor included, and the transfer arena as
    they were. *)
Theorem readCanAdvance_excess_stream_idle :
  forall label batchSize fuel mem stream transfer aggState,
    isGrouped aggState = true ->
    maxReadStreams aggState <= streamIdx stream ->
    AbstractReadAggregation.canAdvance label batchSize fuel mem stream transfer
      aggState
    = Ok (emptyResult, aggState, transfer, []).
Proof.
  intros label batchSize fuel mem stream transfer aggState Hgrouped Hidx.
  unfold AbstractReadAggregation.canAdvance. rewrite Hgrouped.
  destruct (Z.geb_spec (streamIdx stream) (maxReadStreams aggState)); [reflexivity|lia].
Qed.

End Continuation.

Lemma canAdvance_requests_resupply_witness :
  exists result stream',
    @AbstractAggregation.canAdvance Reference.headers exampleAggregation
      (exampleStream 50) 9 = (result, stream') /\
    numRows result = 100 /\
    continueLabel result = 3 /\
    isRetry result = true /\
    syncDrivers result = true /\
    syncStreams result = false /\
    updateStatus result = Some (@resupplyHashTable Reference.headers) /\
    reason result = 9 /\
    gridStatus stream' 0 = Some (AggregateReturn.mk 0) /\
    (forall other, other <> 0 ->
                   gridStatus stream' other = gridStatus (exampleStream 50) other) /\
    streamNumRows stream' = 100 /\
    hostBlockStatus stream' = hostBlockStatus (exampleStream 50) /\
    operatorStates stream' = operatorStates (exampleStream 50) /\
    fst (@AbstractAggregation.canAdvance Reference.headers exampleAggregation
           stream' 9) = @emptyResult Reference.headers.
Proof.
  apply (@canAdvance_requests_resupply Reference.headers exampleAggregation
           (exampleStream 50) 9 (AggregateReturn.mk 100)).
  - discriminate.
  - reflexivity.
  - discriminate.
Defined.

Lemma canAdvance_empty_cases_witness :
  @AbstractAggregation.canAdvance Reference.headers exampleGlobalAggregation
    (exampleStream 50) 9
  = (@emptyResult Reference.headers, exampleStream 50).
Proof.
  apply (proj1 (@canAdvance_empty_cases Reference.headers)). reflexivity.
Defined.

Lemma readCanAdvance_excess_stream_idle_witness :
  @AbstractReadAggregation.canAdvance Reference.headers 3 81920 16 zeroMem
    (mkStream 100 2 [] (fun _ => None) [] (fun _ => None))
    (mkArena 0 1024) (exampleState 50)
  = Ok (@emptyResult Reference.headers, exampleState 50, mkArena 0 1024, []).
Proof.
  apply (@readCanAdvance_excess_stream_idle Reference.headers).
  - reflexivity.
  - simpl. lia.
Defined.

(** ** The outcome monad and indexed loops *)

Lemma bind_Ok {A B} (m : Outcome A) (k : A -> Outcome B) b :
  bind m k = Ok b -> exists a, m = Ok a /\ k a = Ok b.
Proof. destruct m as [a|why]; simpl; [eauto | discriminate]. Qed.

Tactic Notation "bind_inv" hyp(H) "as" ident(a) ident(E) :=
  apply bind_Ok in H as [a [E H]].

Lemma at_Ok {A} (l : list A) i a :
  at_ l i = Ok a -> 0 <= i /\ nth_error l (Z.to_nat i) = Some a.
Proof.
  unfold at_. destruct (Z.ltb_spec i 0); [discriminate|].
  destruct (nth_error l (Z.to_nat i)); simpl; [|discriminate].
  intros [= ->]. split; [lia|reflexivity].
Qed.

Lemma cdiv_Ok a b q : cdiv a b = Ok q -> b <> 0 /\ q = Z.quot a b.
Proof.
  unfold cdiv. destruct (Z.eqb_spec b 0); [discriminate|].
  intros [= <-]. auto.
Qed.

Lemma setNth_length {A} (l : list A) i a : length (setNth l i a) = length l.
Proof.
  revert i; induction l as [|x l IH]; intros [|i]; simpl; auto.
Qed.

Lemma setNth_same {A} (l : list A) i a :
  (i < length l)%nat -> nth_error (setNth l i a) i = Some a.
Proof.
  revert i; induction l as [|x l IH]; intros [|i] Hi; simpl in *; try lia; auto.
  apply IH. lia.
Qed.

Lemma setNth_other {A} (l : list A) i j a :
  i <> j -> nth_error (setNth l i a) j = nth_error l j.
Proof.
  revert i j; induction l as [|x l IH]; intros [|i] [|j] Hij; simpl; auto;
    try congruence.
Qed.

Lemma nth_error_lt {A} (l : list A) i a :
  nth_error l i = Some a -> (i < length l)%nat.
Proof. intros Hn. apply nth_error_Some. congruence. Qed.

(** An invariant indexed by the loop counter is carried through the loop. *)
Lemma forEach_invariant {St} (body : St -> Z -> Outcome St) (P : Z -> St -> Prop) :
  forall n k s s',
    (forall i t t', k <= i < k + Z.of_nat n -> P i t -> body t i = Ok t' ->
                    P (i + 1) t') ->
    P k s -> forEach body (Zseq k n) s = Ok s' -> P (k + Z.of_nat n) s'.
Proof.
  induction n as [|n IH]; intros k s s' Hstep Hk Hrun.
  - simpl in Hrun. inversion Hrun; subst. now rewrite Z.add_0_r.
  - simpl in Hrun. bind_inv Hrun as t1 E1.
    replace (k + Z.of_nat (S n)) with (k + 1 + Z.of_nat n) by lia.
    apply (IH (k + 1) t1 s'); [|eapply Hstep; eauto; lia|exact Hrun].
    intros i t t' Hi. apply Hstep. lia.
Qed.

Lemma upTo_invariant {St} (body : St -> Z -> Outcome St) (P : Z -> St -> Prop)
  n s s' :
  0 <= n ->
  (forall i t t', 0 <= i < n -> P i t -> body t i = Ok t' -> P (i + 1) t') ->
  P 0 s -> forEach body (upTo n) s = Ok s' -> P n s'.
Proof.
  intros Hn Hstep H0 Hrun. unfold upTo in Hrun.
  replace n with (0 + Z.of_nat (Z.to_nat n)) at 1 by lia.
  eapply forEach_invariant; eauto.
  intros i t t' Hi. apply Hstep. lia.
Qed.

Lemma upTo_nonpos {St} (body : St -> Z -> Outcome St) n s :
  n <= 0 -> forEach body (upTo n) s = Ok s.
Proof.
  intros Hn. unfold upTo. replace (Z.to_nat n) with O by lia. reflexivity.
Qed.

(** ** nextPowerOfTwo *)

Lemma nextPowerOfTwo_least x : LeastPowerOfTwo (nextPowerOfTwo x) x.
Proof.
  unfold LeastPowerOfTwo, nextPowerOfTwo.
  pose proof (Z.log2_up_nonneg x) as Hk.
  split; [exists (Z.log2_up x); auto|]. split.
  - destruct (Z.lt_ge_cases 1 x) as [H1|H1].
    + apply Z.log2_up_spec in H1. lia.
    + rewrite Z.log2_up_eqn0 by lia. simpl. lia.
  - intros j Hj Hx. apply Z.pow_le_mono_r; [lia|].
    destruct (Z.lt_ge_cases 0 x) as [H0|H0].
    + apply Z.log2_up_le_pow2; assumption.
    + rewrite Z.log2_up_nonpos by lia. assumption.
Qed.

Lemma LeastPowerOfTwo_unique p q x :
  LeastPowerOfTwo p x -> LeastPowerOfTwo q x -> p = q.
Proof.
  intros [[k [Hk ->]] [Hp Hpmin]] [[j [Hj ->]] [Hq Hqmin]].
  specialize (Hpmin j Hj Hq). specialize (Hqmin k Hk Hp). lia.
Qed.

(** ** countErrors *)

Lemma nth_error_skipn_cons {A} (l : list A) i a :
  nth_error l i = Some a -> skipn i l = a :: skipn (S i) l.
Proof.
  revert l; induction i as [|i IH]; intros [|x l] Hn; simpl in *;
    try discriminate.
  - now inversion Hn.
  - now apply IH.
Qed.

Section CountErrors.
Variable error : ErrorCode.

Let hit (e : ErrorCode) : Z := if ErrorCode_eqb e error then 1 else 0.
Let hits (l : list ErrorCode) : Z :=
  Z.of_nat (length (filter (fun e => ErrorCode_eqb e error) l)).

Lemma hits_cons e l : hits (e :: l) = hit e + hits l.
Proof.
  unfold hits, hit. simpl. destruct (ErrorCode_eqb e error); simpl length; lia.
Qed.

Lemma hits_nonneg l : 0 <= hits l.
Proof. unfold hits. lia. Qed.

Lemma countRows_spec errs : forall n k count count',
  0 <= k -> 0 <= count ->
  forEach (fun c j =>
             e <- at_ errs j ;;
             Ok (wrap32s (c + (if ErrorCode_eqb e error then 1 else 0))))
          (Zseq k n) count = Ok count' ->
  count + hits (firstn n (skipn (Z.to_nat k) errs)) <= INT32_MAX ->
  count' = count + hits (firstn n (skipn (Z.to_nat k) errs)).
Proof.
  unfold INT32_MAX.
  induction n as [|n IH]; intros k count count' Hk Hc Hrun Hfit.
  - simpl in *. inversion Hrun. unfold hits. simpl. lia.
  - simpl in Hrun. bind_inv Hrun as c1 E1. bind_inv E1 as e Ee.
    apply at_Ok in Ee as [_ Hnth]. inversion E1; subst c1; clear E1.
    rewrite (nth_error_skipn_cons _ _ _ Hnth) in *.
    cbn [firstn] in *. rewrite hits_cons in *.
    fold (hit e) in Hrun.
    pose proof (hits_nonneg (firstn n (skipn (S (Z.to_nat k)) errs))).
    assert (0 <= hit e <= 1) by (unfold hit; destruct (ErrorCode_eqb e error); lia).
    rewrite wrap32s_small in Hrun by lia.
    replace (S (Z.to_nat k)) with (Z.to_nat (k + 1)) in * by lia.
    rewrite (IH (k + 1) (count + hit e) count'); try lia. exact Hrun.
Qed.

Lemma countBlockErrors_spec b count count' :
  0 <= count ->
  countBlockErrors error b count = Ok count' ->
  count + failedInBlock error b <= INT32_MAX ->
  count' = count + failedInBlock error b.
Proof.
  intros Hc Hrun Hfit. unfold countBlockErrors, upTo in Hrun.
  apply (countRows_spec (errors b) _ 0 count count') in Hrun;
    [exact Hrun | lia | lia | exact Hfit].
Qed.

Lemma countBlocks_spec status : forall n k count count',
  0 <= k -> 0 <= count ->
  forEach (fun c i => b <- at_ status i ;; countBlockErrors error b c)
          (Zseq k n) count = Ok count' ->
  count + failedRows error (firstn n (skipn (Z.to_nat k) status)) <= INT32_MAX ->
  count' = count + failedRows error (firstn n (skipn (Z.to_nat k) status)).
Proof.
  induction n as [|n IH]; intros k count count' Hk Hc Hrun Hfit.
  - simpl in *. inversion Hrun. unfold failedRows. simpl. lia.
  - simpl in Hrun. bind_inv Hrun as c1 E1. bind_inv E1 as b Eb.
    apply at_Ok in Eb as [_ Hnth].
    rewrite (nth_error_skipn_cons _ _ _ Hnth) in *.
    unfold failedRows in *. cbn [firstn map Zsum fold_right] in *.
    fold (Zsum (map (failedInBlock error)
                    (firstn n (skipn (S (Z.to_nat k)) status)))) in *.
    assert (Hrest : 0 <= Zsum (map (failedInBlock error)
                                 (firstn n (skipn (S (Z.to_nat k)) status)))).
    { clear. induction (firstn n (skipn (S (Z.to_nat k)) status)); simpl;
        [lia|]. unfold failedInBlock at 1. lia. }
    assert (Hb : 0 <= failedInBlock error b) by (unfold failedInBlock; lia).
    apply countBlockErrors_spec in E1; [|lia|lia]. subst c1.
    replace (S (Z.to_nat k)) with (Z.to_nat (k + 1)) in * by lia.
    rewrite (IH (k + 1) (count + failedInBlock error b) count'); try lia.
    exact Hrun.
Qed.

Lemma countErrors_spec status numBlocks count :
  numBlocks = Z.of_nat (length status) ->
  countErrors status numBlocks error = Ok count ->
  failedRows error status <= INT32_MAX ->
  count = failedRows error status.
Proof.
  intros Hn Hrun Hfit. unfold countErrors, upTo in Hrun.
  subst numBlocks. rewrite Nat2Z.id in Hrun.
  apply (countBlocks_spec status _ 0 0 count) in Hrun; try lia.
  - simpl in Hrun. rewrite firstn_all in Hrun. lia.
  - simpl. rewrite firstn_all. lia.
Qed.
End CountErrors.


Lemma operatorState_store l id s s' :
  operatorState l id = Some s ->
  operatorState (storeOperatorState l id s') id = Some s'.
Proof.
  induction l as [|[k s0] l IH]; simpl; [discriminate|].
  destruct (Z.eqb_spec k id) as [->|Hne]; simpl.
  - intros _. now rewrite Z.eqb_refl.
  - intros Hl. destruct (Z.eqb_spec k id); [contradiction|]. now apply IH.
Qed.

Lemma arenaAllocate_size a bytes buffer a' :
  arenaAllocate a bytes = Ok (buffer, a') ->
  bufSize buffer = bytes /\ bufAddr buffer = arenaNext a.
Proof.
  unfold arenaAllocate.
  destruct ((0 <=? bytes) && (arenaNext a + bytes <=? arenaLimit a));
    [|discriminate].
  intros [= <- <-]. auto.
Qed.

Lemma quot_keeps_capacity n s k :
  0 < k -> s * k < n -> s * k <= Z.quot n k * k.
Proof.
  intros Hk Hn.
  pose proof (Z.quot_rem' n k) as Hqr.
  destruct (Z.lt_ge_cases n 0) as [Hneg|Hpos].
  - pose proof (Z.rem_nonpos n k ltac:(lia) ltac:(lia)) as Hr.
    revert Hqr Hr. generalize (Z.quot n k) (Z.rem n k). intros q r Hqr Hr. nia.
  - pose proof (Z.rem_bound_pos n k Hpos Hk) as Hr.
    revert Hqr Hr. generalize (Z.quot n k) (Z.rem n k). intros q r Hqr Hr.
    assert (Hsq : s <= q).
    { destruct (Z.le_gt_cases s q) as [|Hgt]; [assumption|exfalso].
      assert ((q + 1) * k <= s * k) by (apply Z.mul_le_mono_nonneg_r; lia). lia. }
    apply Z.mul_le_mono_nonneg_r; lia.
Qed.

Section Resupply.
Context `{WaveHeaders}.

Lemma restockAllocator_frame st size a st' a' :
  restockAllocator st size a = Ok (st', a') ->
  hashTable st' = hashTable st /\ allocators st' = allocators st /\
  alignedHead st' = alignedHead st.
Proof.
  unfold restockAllocator.
  destruct (raiseRowLimits a size) as [raised a1].
  destruct (wrap32s (size - raised) <=? 0).
  - intros [= <- <-]. auto.
  - destruct (retireIfFull (ranges st) a1) as [retired a2].
    intros Hrun. bind_inv Hrun as alloc Ealloc. destruct alloc as [buffer arena'].
    inversion Hrun; subst. auto.
Qed.

Lemma resupplyPartition_step increment st i st' :
  resupplyPartition increment st i = Ok st' ->
  0 <= i /\ hashTable st' = hashTable st /\ alignedHead st' = alignedHead st /\
  exists a mid,
    nth_error (allocators st) (Z.to_nat i) = Some a /\
    allocators st' = setNth (allocators st) (Z.to_nat i) mid /\
    Restocked increment a mid.
Proof.
  unfold resupplyPartition. intros Hrun. bind_inv Hrun as v Ev.
  apply at_Ok in Ev as [Hi Hnth]. split; [exact Hi|].
  destruct (Z.ltb_spec (availableFixed (clearOverflows v)) increment) as [Hlow|Hok].
  - bind_inv Hrun as restocked Er. destruct restocked as [st1 a1].
    inversion Hrun; subst st'; clear Hrun.
    destruct (restockAllocator_frame _ _ _ _ _ Er) as [Ht [Ha Hh]].
    cbn [withAllocators hashTable alignedHead allocators].
    split; [exact Ht|]. split; [exact Hh|].
    exists v, a1. rewrite Ha. split; [exact Hnth|]. split; [reflexivity|].
    split; [intros _; eauto | lia].
  - inversion Hrun; subst st'; clear Hrun.
    cbn [withAllocators hashTable alignedHead allocators].
    split; [reflexivity|]. split; [reflexivity|].
    exists v, (clearOverflows v). split; [exact Hnth|]. split; [reflexivity|].
    split; [lia | reflexivity].
Qed.

Lemma resupplyPartitions_done increment n st0 st1 :
  forEach (resupplyPartition increment) (upTo n) st0 = Ok st1 ->
  partitionsDone increment st0 (Z.max 0 n) st1.
Proof.
  intros Hrun.
  destruct (Z.le_gt_cases n 0) as [Hn|Hn].
  - rewrite upTo_nonpos in Hrun by assumption. inversion Hrun; subst.
    rewrite Z.max_l by lia. unfold partitionsDone.
    repeat split; auto. intros i Hi. lia.
  - rewrite Z.max_r by lia.
    apply (upTo_invariant (resupplyPartition increment)
             (partitionsDone increment st0) n st0 st1); try lia; auto.
    + intros i t t' Hi (Ht & Hh & Hlen & Hrest & Hdone) Hstep.
      apply resupplyPartition_step in Hstep
        as (_ & Ht' & Hh' & a & mid & Hnth & Hal & Hre).
      unfold partitionsDone. rewrite Ht', Hh', Hal, setNth_length.
      split; [exact Ht|]. split; [exact Hh|]. split; [exact Hlen|]. split.
      * intros k Hk. rewrite setNth_other by lia. apply Hrest. lia.
      * intros k Hk. destruct (Z.eq_dec k i) as [->|Hne].
        -- exists a, mid. rewrite <- Hrest, Hnth by lia.
           split; [reflexivity|]. split; [|exact Hre].
           apply setNth_same. eapply nth_error_lt; eauto.
        -- destruct (Hdone k ltac:(lia)) as (a' & mid' & H1 & H2 & H3).
           exists a', mid'. split; [exact H1|]. split; [|exact H3].
           rewrite setNth_other by lia. exact H2.
    + unfold partitionsDone. repeat split; auto. intros i Hi. lia.
Qed.

Lemma trimPartition_step rowSize0 allowed st i st' :
  trimPartition rowSize0 allowed st i = Ok st' ->
  0 <= i /\ hashTable st' = hashTable st /\ buffers st' = buffers st /\
  exists a,
    nth_error (allocators st) (Z.to_nat i) = Some a /\
    allocators st' = setNth (allocators st) (Z.to_nat i)
                       (trimToShare rowSize0 allowed a).
Proof.
  unfold trimPartition, trimToShare. intros Hrun. bind_inv Hrun as v Ev.
  apply at_Ok in Ev as [Hi Hnth]. split; [exact Hi|].
  bind_inv Hrun as q Eq. apply cdiv_Ok in Eq as [_ ->].
  destruct (Z.quot (availableFixed v) rowSize0 >? allowed) eqn:Hc;
    inversion Hrun; subst st'; clear Hrun;
    cbn [withAllocators hashTable buffers allocators];
    (split; [reflexivity|]); (split; [reflexivity|]); exists v;
    (split; [exact Hnth|]); rewrite Hc; [reflexivity|].
  clear - Hnth. revert Hnth. generalize (Z.to_nat i). generalize (allocators st).
  induction l as [|x l IH]; intros [|n]; simpl; try discriminate.
  - now intros [= ->].
  - intros Hn. f_equal. now apply IH.
Qed.

Lemma trimPartitions_done rowSize0 allowed n st0 st1 :
  forEach (trimPartition rowSize0 allowed) (upTo n) st0 = Ok st1 ->
  partitionsTrimmed rowSize0 allowed st0 (Z.max 0 n) st1.
Proof.
  intros Hrun.
  destruct (Z.le_gt_cases n 0) as [Hn|Hn].
  - rewrite upTo_nonpos in Hrun by assumption. inversion Hrun; subst.
    rewrite Z.max_l by lia. unfold partitionsTrimmed.
    repeat split; auto. intros i Hi. lia.
  - rewrite Z.max_r by lia.
    apply (upTo_invariant (trimPartition rowSize0 allowed)
             (partitionsTrimmed rowSize0 allowed st0) n st0 st1); try lia; auto.
    + intros i t t' Hi (Ht & Hb & Hlen & Hrest & Hdone) Hstep.
      apply trimPartition_step in Hstep as (_ & Ht' & Hb' & a & Hnth & Hal).
      unfold partitionsTrimmed. rewrite Ht', Hb', Hal, setNth_length.
      split; [exact Ht|]. split; [exact Hb|]. split; [exact Hlen|]. split.
      * intros k Hk. rewrite setNth_other by lia. apply Hrest. lia.
      * intros k Hk. destruct (Z.eq_dec k i) as [->|Hne].
        -- exists a. rewrite <- Hrest, Hnth by lia. split; [reflexivity|].
           apply setNth_same. eapply nth_error_lt; eauto.
        -- destruct (Hdone k ltac:(lia)) as (a' & H1 & H2).
           exists a'. split; [exact H1|].
           rewrite setNth_other by lia. exact H2.
    + unfold partitionsTrimmed. repeat split; auto. intros i Hi. lia.
Qed.

End Resupply.


Section ResupplySteps.
Context `{WaveHeaders}.

Lemma growBuckets_cases newSize st st' grown old :
  growBuckets newSize st = Ok (st', grown, old) ->
  allocators st' = allocators st /\
  ((numSlots (hashTable st) < newSize /\
    exists oldBuffer buffer arena',
      nth_error (buffers st) 1 = Some oldBuffer /\
      kNumSlots <> 0 /\
      arenaAllocate (arena st) (Z.quot newSize kNumSlots * sizeofBucketMembers)
        = Ok (buffer, arena') /\
      hashTable st' = mkHashTable (bufAddr buffer) (Z.quot newSize kNumSlots - 1)
                        (partitionMask (hashTable st)) (numDistinct (hashTable st))
                        (Z.quot newSize 6 * 5) /\
      buffers st' = setNth (buffers st) 1 buffer /\
      grown = [EvMemset (bufAddr buffer) 0 (bufSize buffer)] /\
      old = Some (bufAddr oldBuffer, wrap32s (sizeMask (hashTable st) + 1)))
   \/ (newSize <= numSlots (hashTable st) /\ st' = st /\ grown = [] /\ old = None)).
Proof.
  unfold growBuckets.
  destruct (Z.gtb_spec newSize (numSlots (hashTable st))) as [Hgt|Hle].
  - intros Hrun. bind_inv Hrun as oldBuffer Eold. apply at_Ok in Eold as [_ Hold].
    bind_inv Hrun as n En. apply cdiv_Ok in En as [Hk ->].
    bind_inv Hrun as alloc Ealloc. destruct alloc as [buffer arena'].
    inversion Hrun; subst; clear Hrun.
    split; [reflexivity|]. left. split; [lia|].
    exists oldBuffer, buffer, arena'. repeat split; auto.
  - intros [= <- <- <-]. split; [reflexivity|]. right. auto.
Qed.

Lemma setSizesToSafe_trims st st' :
  setSizesToSafe st = Ok st' ->
  exists a0 allowed,
    nth_error (allocators st) 0 = Some a0 /\
    cdiv (wrap32s (maxEntries (hashTable st) - numDistinct (hashTable st)))
         (wrap32s (partitionMask (hashTable st) + 1)) = Ok allowed /\
    partitionsTrimmed (rowSize a0) allowed st
      (Z.max 0 (wrap32s (partitionMask (hashTable st) + 1))) st'.
Proof.
  unfold setSizesToSafe. intros Hrun. bind_inv Hrun as a0 E0.
  apply at_Ok in E0 as [_ H0]. bind_inv Hrun as allowed Eal.
  exists a0, allowed. split; [exact H0|]. split; [exact Eal|].
  now apply trimPartitions_done.
Qed.

(** The steps of a call of [resupplyHashTable] that returns. *)
Lemma resupplyHashTable_steps stream inst stream' events :
  resupplyHashTable stream inst = Ok (stream', events) ->
  exists state numFailed increment st1 st2 grown old st3 launched,
    let t := hashTable state in
    let newSize := resupplyNewSize numFailed t in
    let numPartitions := wrap32s (partitionMask t + 1) in
    operatorState (operatorStates stream) (stateId inst) = Some state /\
    debugActiveBlockCounter state = 0 /\
    kBlockSize <> 0 /\
    countErrors (hostBlockStatus stream)
      (wrap32s (Z.quot (Z.quot (streamNumRows stream + (kBlockSize - 1)) kBlockSize
                        * kBlockSize) kBlockSize))
      kInsufficientMemory = Ok numFailed /\
    resupplyIncrement (aggRowSize inst) newSize numPartitions t = Ok increment /\
    forEach (resupplyPartition increment) (upTo numPartitions) state = Ok st1 /\
    growBuckets newSize st1 = Ok (st2, grown, old) /\
    setSizesToSafe st2 = Ok st3 /\
    launchRehash stream inst (alignedHead state) old = Ok launched /\
    stream' = withOperatorStates stream
                (storeOperatorState (operatorStates stream) (stateId inst) st3) /\
    events =
      [EvPrefetchToHost (alignedHead state) (alignedHeadSize state); EvWait;
       EvTraceResupply (numSlots t) newSize increment numFailed]
      ++ grown
      ++ [EvPrefetchToDevice (alignedHead state) (alignedHeadSize state)]
      ++ launched
      ++ [EvWait]
      ++ (match old with Some _ => [EvTraceRehashed] | None => [] end)
      ++ [EvRelease].
Proof.
  unfold resupplyHashTable. intros Hrun.
  bind_inv Hrun as state Est.
  destruct (operatorState (operatorStates stream) (stateId inst)) as [s|] eqn:Hst;
    [|discriminate]. inversion Est; subst s; clear Est.
  bind_inv Hrun as u Ereq. unfold require in Ereq.
  destruct (Z.eqb_spec (debugActiveBlockCounter state) 0) as [Hzero|]; [|discriminate].
  clear Ereq u.
  bind_inv Hrun as rounded Eround. unfold roundUp in Eround.
  bind_inv Eround as q0 Eq0.
  apply cdiv_Ok in Eq0 as [Hk ->]. inversion Eround; subst rounded; clear Eround.
  bind_inv Hrun as q Eq. apply cdiv_Ok in Eq as [_ ->].
  bind_inv Hrun as numFailed Ecount.
  bind_inv Hrun as increment Einc.
  bind_inv Hrun as st1 Eloop.
  bind_inv Hrun as grownSt Egrow. destruct grownSt as [[st2 grown] old].
  bind_inv Hrun as st3 Esafe.
  bind_inv Hrun as launched Elaunch.
  inversion Hrun; subst; clear Hrun.
  exists state, numFailed, increment, st1, st2, grown, old, st3, launched.
  cbv zeta. repeat (split; [assumption || reflexivity|]). reflexivity.
Qed.

End ResupplySteps.

Section ResupplyClaims.
Context `{WaveHeaders}.

Lemma numBlocks_exact n k :
  0 < k -> 0 <= n <= INT32_MAX ->
  wrap32s (Z.quot (Z.quot (n + (k - 1)) k * k) k) = (n + (k - 1)) / k.
Proof.
  unfold INT32_MAX. intros Hk Hn.
  rewrite Z.quot_mul by lia. rewrite Z.quot_div_nonneg by lia.
  assert (0 <= (n + (k - 1)) / k) by (apply Z.div_pos; lia).
  assert ((n + (k - 1)) / k <= n).
  { destruct (Z.eq_dec n 0) as [->|Hne].
    - rewrite Z.div_small; lia.
    - apply Z.div_le_upper_bound; nia. }
  apply wrap32s_small. lia.
Qed.

(** C1. The target size of [resupplyHashTable] is the least power of two
    that is at least [numFailed + 2 * numDistinct], where [numFailed] is the
    number of rows of the stream's row blocks whose error code is
    insufficient-memory and [numDistinct] the table's distinct-row count; for
    100 failed rows and 50 distinct rows it is 256. *)
Theorem resupply_target_size :
  forall stream inst state stream' events,
    0 < kBlockSize ->
    0 <= streamNumRows stream <= INT32_MAX ->
    Z.of_nat (length (hostBlockStatus stream))
      = (streamNumRows stream + (kBlockSize - 1)) / kBlockSize ->
    failedRows kInsufficientMemory (hostBlockStatus stream) <= INT32_MAX ->
    operatorState (operatorStates stream) (stateId inst) = Some state ->
    0 <= numDistinct (hashTable state) ->
    failedRows kInsufficientMemory (hostBlockStatus stream)
      + 2 * numDistinct (hashTable state) <= 2 ^ 62 ->
    resupplyHashTable stream inst = Ok (stream', events) ->
    exists slots newSize increment numFailed,
      nth_error events 2 = Some (EvTraceResupply slots newSize increment numFailed) /\
      numFailed = failedRows kInsufficientMemory (hostBlockStatus stream) /\
      LeastPowerOfTwo newSize (numFailed + 2 * numDistinct (hashTable state)) /\
      (numFailed = 100 -> numDistinct (hashTable state) = 50 -> newSize = 256).
Proof.
  intros stream inst state stream' events Hk Hrows Hblocks Hfit Hstate Hnd Hsum Hrun.
  apply resupplyHashTable_steps in Hrun
    as (state0 & numFailed & increment & st1 & st2 & grown & old & st3 & launched
        & Hst & _ & _ & Hcount & _ & _ & _ & _ & _ & _ & Hev).
  cbv zeta in *. rewrite Hstate in Hst. inversion Hst; subst state0; clear Hst.
  rewrite numBlocks_exact in Hcount by assumption.
  apply countErrors_spec in Hcount; [|symmetry; exact Hblocks|exact Hfit].
  exists (numSlots (hashTable state)), (resupplyNewSize numFailed (hashTable state)),
    increment, numFailed.
  split; [rewrite Hev; reflexivity|]. split; [exact Hcount|].
  rewrite <- Hcount in Hsum.
  pose proof (nextPowerOfTwo_least (numFailed + numDistinct (hashTable state) * 2))
    as Hleast.
  assert (Hsmall : nextPowerOfTwo (numFailed + numDistinct (hashTable state) * 2)
                   <= 2 ^ 62).
  { destruct Hleast as (_ & _ & Hmin). apply Hmin; lia. }
  assert (Hpos : 0 < nextPowerOfTwo (numFailed + numDistinct (hashTable state) * 2)).
  { unfold nextPowerOfTwo. apply Z.pow_pos_nonneg; [lia|apply Z.log2_up_nonneg]. }
  unfold resupplyNewSize. rewrite wrap64s_small by lia.
  replace (numFailed + 2 * numDistinct (hashTable state))
    with (numFailed + numDistinct (hashTable state) * 2) by lia.
  split; [exact Hleast|].
  intros -> ->. reflexivity.
Qed.

(** C2. [resupplyHashTable] rehashes exactly when the target size exceeds the
    current slot count [(sizeMask + 1) * kNumSlots]: then it installs a new
    zeroed bucket array, sets size mask, bucket pointer and max-entries, and
    launches the rehash entry point; otherwise the header is left as it is
    and nothing is zeroed or launched.  The slot count never decreases. *)
Theorem resupply_rehash_decision :
  forall stream inst stream' events,
    0 < kNumSlots ->
    resupplyHashTable stream inst = Ok (stream', events) ->
    exists state st' slots newSize increment numFailed,
      operatorState (operatorStates stream) (stateId inst) = Some state /\
      operatorState (operatorStates stream') (stateId inst) = Some st' /\
      nth_error events 2 = Some (EvTraceResupply slots newSize increment numFailed) /\
      slots = numSlots (hashTable state) /\
      newSize = resupplyNewSize numFailed (hashTable state) /\
      (slots < newSize ->
       exists buffer program oldAddr,
         nth_error (buffers st') 1 = Some buffer /\
         bufSize buffer = Z.quot newSize kNumSlots * sizeofBucketMembers /\
         In (EvMemset (bufAddr buffer) 0 (bufSize buffer)) events /\
         sizeMask (hashTable st') = Z.quot newSize kNumSlots - 1 /\
         buckets (hashTable st') = bufAddr buffer /\
         maxEntries (hashTable st') = Z.quot newSize 6 * 5 /\
         executableByInstruction stream inst = Some program /\
         In (EvSetupAggregation
               (mkControl (alignedHead state) oldAddr
                  (wrap32s (sizeMask (hashTable state) + 1)))
               (entryPointIdxBySerial program (serial inst)) (kernel program))
            events) /\
      (newSize <= slots ->
       hashTable st' = hashTable state /\
       (forall control idx k, ~ In (EvSetupAggregation control idx k) events) /\
       (forall addr value size, ~ In (EvMemset addr value size) events)) /\
      numSlots (hashTable state) <= numSlots (hashTable st').
Proof.
  intros stream inst stream' events Hslots Hrun.
  apply resupplyHashTable_steps in Hrun
    as (state & numFailed & increment & st1 & st2 & grown & old & st3 & launched
        & Hst & _ & _ & _ & _ & Hloop & Hgrow & Hsafe & Hlaunch & -> & ->).
  cbv zeta in *.
  apply resupplyPartitions_done in Hloop as (Ht1 & _).
  apply setSizesToSafe_trims in Hsafe as (a0 & allowed & _ & _ & Ht3 & Hb3 & _).
  apply growBuckets_cases in Hgrow as [_ Hgrow]. rewrite Ht1 in Hgrow.
  exists state, st3, (numSlots (hashTable state)),
    (resupplyNewSize numFailed (hashTable state)), increment, numFailed.
  split; [exact Hst|].
  split; [cbn [withOperatorStates operatorStates];
          eapply operatorState_store; exact Hst|].
  split; [reflexivity|]. split; [reflexivity|]. split; [reflexivity|].
  destruct Hgrow as [(Hgt & oldBuffer & buffer & arena' & Hold & Hk & Halloc & Ht2
                       & Hb2 & -> & ->)
                    |(Hle & -> & -> & ->)].
  - (* the table grows *)
    apply arenaAllocate_size in Halloc as [Hsize _].
    unfold launchRehash in Hlaunch.
    destruct (executableByInstruction stream inst) as [program|] eqn:Hexe;
      [|discriminate]. cbn in Hlaunch. inversion Hlaunch; subst launched; clear Hlaunch.
    split; [|split; [lia|]].
    + intros _. exists buffer, program, (bufAddr oldBuffer).
      rewrite Hb3, Hb2, Ht3, Ht2. cbn [sizeMask buckets maxEntries].
      split; [apply setNth_same; eapply nth_error_lt; eauto|].
      split; [exact Hsize|].
      split; [cbn; auto 10|].
      split; [reflexivity|]. split; [reflexivity|]. split; [reflexivity|].
      split; [reflexivity|]. cbn. auto 10.
    + rewrite Ht3, Ht2. unfold numSlots. cbn [sizeMask].
      replace (Z.quot (resupplyNewSize numFailed (hashTable state)) kNumSlots - 1 + 1)
        with (Z.quot (resupplyNewSize numFailed (hashTable state)) kNumSlots) by lia.
      apply quot_keeps_capacity; assumption.
  - (* the table keeps its buckets *)
    cbn in Hlaunch. inversion Hlaunch; subst launched; clear Hlaunch.
    rewrite Ht3, Ht1.
    split; [lia|]. split; [|lia].
    intros _. split; [reflexivity|].
    split; intros; cbn; intuition discriminate.
Qed.

(** C3 (amended). When [resupplyHashTable] returns, every partition's
    allocator went through [clearOverflows] and then through
    [restockAllocator] exactly when its available fixed capacity was below
    the increment [rowSize * (newSize - numDistinct) / numPartitions]
    (passed on as a 32-bit size); the final [setSizesToSafe] then trims it
    when its available rows exceed [(maxEntries - numDistinct) /
    numPartitions].  A partition that needed no restock and is within that
    share ends with at least the increment available. *)
Theorem resupply_partition_capacity :
  forall stream inst stream' events,
    resupplyHashTable stream inst = Ok (stream', events) ->
    exists state st' slots newSize increment numFailed rowSize0 allowed,
      let numPartitions := wrap32s (partitionMask (hashTable state) + 1) in
      operatorState (operatorStates stream) (stateId inst) = Some state /\
      operatorState (operatorStates stream') (stateId inst) = Some st' /\
      nth_error events 2 = Some (EvTraceResupply slots newSize increment numFailed) /\
      resupplyIncrement (aggRowSize inst) newSize numPartitions (hashTable state)
        = Ok increment /\
      cdiv (wrap32s (maxEntries (hashTable st') - numDistinct (hashTable st')))
           numPartitions = Ok allowed /\
      forall i, 0 <= i < numPartitions ->
        exists a mid,
          nth_error (allocators state) (Z.to_nat i) = Some a /\
          Restocked increment a mid /\
          nth_error (allocators st') (Z.to_nat i)
            = Some (trimToShare rowSize0 allowed mid) /\
          (increment <= availableFixed (clearOverflows a) ->
           Z.quot (availableFixed (clearOverflows a)) rowSize0 <= allowed ->
           increment <= availableFixed (trimToShare rowSize0 allowed mid)) /\
          (i = 0 -> rowSize0 = rowSize mid).
Proof.
  intros stream inst stream' events Hrun.
  apply resupplyHashTable_steps in Hrun
    as (state & numFailed & increment & st1 & st2 & grown & old & st3 & launched
        & Hst & _ & _ & _ & Hinc & Hloop & Hgrow & Hsafe & _ & -> & ->).
  cbv zeta in *.
  apply resupplyPartitions_done in Hloop as (Ht1 & _ & _ & _ & Hdone).
  apply growBuckets_cases in Hgrow as [Hal2 Hgrow].
  apply setSizesToSafe_trims in Hsafe
    as (a0 & allowed & Ha0 & Hallowed & Ht3 & _ & _ & _ & Htrim).
  assert (Hpm : partitionMask (hashTable st2) = partitionMask (hashTable state)).
  { destruct Hgrow as [(_ & ? & ? & ? & _ & _ & _ & -> & _)|(_ & -> & _)];
      cbn [partitionMask]; now rewrite Ht1. }
  rewrite Hpm in *.
  exists state, st3, (numSlots (hashTable state)),
    (resupplyNewSize numFailed (hashTable state)), increment, numFailed,
    (rowSize a0), allowed.
  split; [exact Hst|].
  split; [cbn [withOperatorStates operatorStates];
          eapply operatorState_store; exact Hst|].
  split; [reflexivity|]. split; [exact Hinc|].
  split; [rewrite Ht3; exact Hallowed|].
  intros i Hi.
  destruct (Hdone i ltac:(lia)) as (a & mid & Ha & Hmid & Hre).
  destruct (Htrim i ltac:(lia)) as (a2 & Ha2 & Hfinal).
  rewrite Hal2, Hmid in Ha2. inversion Ha2; subst a2; clear Ha2.
  exists a, mid. split; [exact Ha|]. split; [exact Hre|]. split; [exact Hfinal|].
  split.
  - intros Henough Hshare. destruct Hre as [_ Hkeep]. rewrite (Hkeep Henough).
    unfold trimToShare.
    destruct (Z.gtb_spec (Z.quot (availableFixed (clearOverflows a)) (rowSize a0))
                allowed); [lia|exact Henough].
  - intros ->. rewrite Hal2 in Ha0. change (Z.to_nat 0) with O in Hmid.
    rewrite Hmid in Ha0. now inversion Ha0.
Qed.

(** C7 (amended). [restockAllocator] subtracts what [raiseRowLimits] could
    raise from the request and returns at once, allocating and moving
    nothing, when nothing remains.  Otherwise a fixed-full primary range is
    moved to the operator state's retired ranges and the secondary range
    promoted; a buffer of the full requested size (not of the remainder) is
    taken from the arena and recorded; the new range over it goes to the
    primary slot when that is empty and to the secondary slot otherwise.  An
    arena that cannot supply the request is fatal. *)
Theorem restockAllocator_steps :
  forall state size allocator raised raisedAllocator,
    raiseRowLimits allocator size = (raised, raisedAllocator) ->
    (wrap32s (size - raised) <= 0 ->
     restockAllocator state size allocator = Ok (state, raisedAllocator))
    /\ (0 < wrap32s (size - raised) ->
        forall buffer arena',
          arenaAllocate (arena state) size = Ok (buffer, arena') ->
          bufSize buffer = size /\
          restockAllocator state size allocator
          = Ok (withStorage state arena'
                  (if fixedFull (ranges0 raisedAllocator)
                   then ranges state ++ [ranges0 raisedAllocator]
                   else ranges state)
                  (buffers state ++ [buffer]),
                installRange
                  (if fixedFull (ranges0 raisedAllocator)
                   then mkAllocator (rowSize raisedAllocator)
                          (ranges1 raisedAllocator) defaultRange
                   else raisedAllocator)
                  (newAllocationRange (bufAddr buffer) size size
                     (rowSize raisedAllocator))))
    /\ (0 < wrap32s (size - raised) ->
        forall why,
          arenaAllocate (arena state) size = Fatal why ->
          restockAllocator state size allocator = Fatal why)
    /\ (forall a r,
          installRange a r
          = if rangeEmpty (ranges0 a)
            then mkAllocator (rowSize a) r (ranges1 a)
            else mkAllocator (rowSize a) (ranges0 a) r).
Proof.
  intros state size allocator raised a1 Hraise.
  unfold restockAllocator. rewrite Hraise.
  split; [|split; [|split; [|reflexivity]]].
  - intros Hdone. destruct (Z.leb_spec (wrap32s (size - raised)) 0); [reflexivity|lia].
  - intros Hrest buffer arena' Halloc.
    split; [now apply arenaAllocate_size in Halloc|].
    destruct (Z.leb_spec (wrap32s (size - raised)) 0); [lia|].
    unfold retireIfFull. rewrite Halloc.
    destruct (fixedFull (ranges0 a1)); reflexivity.
  - intros Hrest why Hfail.
    destruct (Z.leb_spec (wrap32s (size - raised)) 0); [lia|].
    unfold retireIfFull. rewrite Hfail.
    destruct (fixedFull (ranges0 a1)); reflexivity.
Qed.

End ResupplyClaims.

Lemma resupply_target_size_witness :
  exists stream' events,
    @resupplyHashTable Reference.headers (exampleStream 50) exampleAggregation
      = Ok (stream', events) /\
    exists slots newSize increment numFailed,
      nth_error events 2 = Some (EvTraceResupply slots newSize increment numFailed) /\
      numFailed = failedRows kInsufficientMemory (hostBlockStatus (exampleStream 50)) /\
      LeastPowerOfTwo newSize (numFailed + 2 * numDistinct (hashTable (exampleState 50))) /\
      (numFailed = 100 -> numDistinct (hashTable (exampleState 50)) = 50 ->
       newSize = 256).
Proof.
  destruct (@resupplyHashTable Reference.headers (exampleStream 50) exampleAggregation)
    as [[stream' events]|why] eqn:Hrun; [|vm_compute in Hrun; discriminate Hrun].
  exists stream', events. split; [reflexivity|].
  apply (@resupply_target_size Reference.headers (exampleStream 50)
           exampleAggregation (exampleState 50) stream' events).
  - reflexivity.
  - vm_compute. split; discriminate.
  - reflexivity.
  - vm_compute. discriminate.
  - reflexivity.
  - vm_compute. discriminate.
  - vm_compute. discriminate.
  - exact Hrun.
Defined.

Lemma resupply_rehash_decision_witness :
  exists stream' events,
    @resupplyHashTable Reference.headers (exampleStream 200) exampleAggregation
      = Ok (stream', events) /\
    exists state st' slots newSize increment numFailed,
      operatorState (operatorStates (exampleStream 200)) (stateId exampleAggregation)
        = Some state /\
      operatorState (operatorStates stream') (stateId exampleAggregation) = Some st' /\
      nth_error events 2 = Some (EvTraceResupply slots newSize increment numFailed) /\
      slots = @numSlots Reference.headers (hashTable state) /\
      newSize = resupplyNewSize numFailed (hashTable state) /\
      (slots < newSize ->
       exists buffer program oldAddr,
         nth_error (buffers st') 1 = Some buffer /\
         bufSize buffer = Z.quot newSize 4 * 128 /\
         In (EvMemset (bufAddr buffer) 0 (bufSize buffer)) events /\
         sizeMask (hashTable st') = Z.quot newSize 4 - 1 /\
         buckets (hashTable st') = bufAddr buffer /\
         maxEntries (hashTable st') = Z.quot newSize 6 * 5 /\
         executableByInstruction (exampleStream 200) exampleAggregation
           = Some program /\
         In (EvSetupAggregation
               (mkControl (alignedHead state) oldAddr
                  (wrap32s (sizeMask (hashTable state) + 1)))
               (entryPointIdxBySerial program (serial exampleAggregation))
               (kernel program))
            events) /\
      (newSize <= slots ->
       hashTable st' = hashTable state /\
       (forall control idx k, ~ In (EvSetupAggregation control idx k) events) /\
       (forall addr value size, ~ In (EvMemset addr value size) events)) /\
      @numSlots Reference.headers (hashTable state)
      <= @numSlots Reference.headers (hashTable st').
Proof.
  destruct (@resupplyHashTable Reference.headers (exampleStream 200) exampleAggregation)
    as [[stream' events]|why] eqn:Hrun; [|vm_compute in Hrun; discriminate Hrun].
  exists stream', events. split; [reflexivity|].
  apply (@resupply_rehash_decision Reference.headers (exampleStream 200)
           exampleAggregation stream' events).
  - reflexivity.
  - exact Hrun.
Defined.

Lemma resupply_partition_capacity_witness :
  exists stream' events,
    @resupplyHashTable Reference.headers (exampleStream 50) exampleAggregation
      = Ok (stream', events) /\
    exists state st' slots newSize increment numFailed rowSize0 allowed,
      operatorState (operatorStates (exampleStream 50)) (stateId exampleAggregation)
        = Some state /\
      operatorState (operatorStates stream') (stateId exampleAggregation) = Some st' /\
      nth_error events 2 = Some (EvTraceResupply slots newSize increment numFailed) /\
      resupplyIncrement (aggRowSize exampleAggregation) newSize
        (wrap32s (partitionMask (hashTable state) + 1)) (hashTable state)
        = Ok increment /\
      cdiv (wrap32s (maxEntries (hashTable st') - numDistinct (hashTable st')))
           (wrap32s (partitionMask (hashTable state) + 1)) = Ok allowed /\
      forall i, 0 <= i < wrap32s (partitionMask (hashTable state) + 1) ->
        exists a mid,
          nth_error (allocators state) (Z.to_nat i) = Some a /\
          @Restocked Reference.headers increment a mid /\
          nth_error (allocators st') (Z.to_nat i)
            = Some (@trimToShare Reference.headers rowSize0 allowed mid) /\
          (increment <= Reference.availableFixedRef (Reference.clearOverflowsRef a) ->
           Z.quot (Reference.availableFixedRef (Reference.clearOverflowsRef a)) rowSize0
           <= allowed ->
           increment
           <= Reference.availableFixedRef
                (@trimToShare Reference.headers rowSize0 allowed mid)) /\
          (i = 0 -> rowSize0 = rowSize mid).
Proof.
  destruct (@resupplyHashTable Reference.headers (exampleStream 50) exampleAggregation)
    as [[stream' events]|why] eqn:Hrun; [|vm_compute in Hrun; discriminate Hrun].
  exists stream', events. split; [reflexivity|].
  apply (@resupply_partition_capacity Reference.headers (exampleStream 50)
           exampleAggregation stream' events).
  exact Hrun.
Defined.

(** After a resupply that rehashes 256 slots into 512, the only partition
    is trimmed to 225 rows (3600 bytes), below the increment of 4992 bytes it
    had available before the trim. *)
Lemma resupply_partition_capacity_counterexample :
  exists stream' events st' a,
    @resupplyHashTable Reference.headers (exampleStream 200) exampleAggregation
      = Ok (stream', events) /\
    nth_error events 2 = Some (EvTraceResupply 256 512 4992 100) /\
    Reference.availableFixedRef
      (Reference.clearOverflowsRef (exampleAllocator 200)) = 6000 /\
    operatorState (operatorStates stream') (stateId exampleAggregation) = Some st' /\
    nth_error (allocators st') 0 = Some a /\
    Reference.availableFixedRef a = 3600 /\
    ~ 4992 <= Reference.availableFixedRef a.
Proof.
  destruct (@resupplyHashTable Reference.headers (exampleStream 200) exampleAggregation)
    as [[stream' events]|why] eqn:Hrun; [|vm_compute in Hrun; discriminate Hrun].
  vm_compute in Hrun. inversion Hrun; subst stream' events; clear Hrun.
  eexists. eexists. eexists. eexists.
  split; [reflexivity|]. split; [reflexivity|]. split; [reflexivity|].
  split; [reflexivity|]. split; [reflexivity|]. split; [reflexivity|].
  intros Hle. vm_compute in Hle. now apply Hle.
Qed.

Lemma restockAllocator_steps_witness :
  (wrap32s (100 - 0) <= 0 ->
   @restockAllocator Reference.headers (exampleState 50) 100 spentAllocator
   = Ok (exampleState 50, spentAllocator))
  /\ (0 < wrap32s (100 - 0) ->
      forall buffer arena',
        arenaAllocate (arena (exampleState 50)) 100 = Ok (buffer, arena') ->
        bufSize buffer = 100 /\
        @restockAllocator Reference.headers (exampleState 50) 100 spentAllocator
        = Ok (withStorage (exampleState 50) arena'
                (if fixedFull (ranges0 spentAllocator)
                 then ranges (exampleState 50) ++ [ranges0 spentAllocator]
                 else ranges (exampleState 50))
                (buffers (exampleState 50) ++ [buffer]),
              @installRange Reference.headers
                (if fixedFull (ranges0 spentAllocator)
                 then mkAllocator (rowSize spentAllocator)
                        (ranges1 spentAllocator) Reference.defaultRangeRef
                 else spentAllocator)
                (Reference.newAllocationRangeRef (bufAddr buffer) 100 100
                   (rowSize spentAllocator))))
  /\ (0 < wrap32s (100 - 0) ->
      forall why,
        arenaAllocate (arena (exampleState 50)) 100 = Fatal why ->
        @restockAllocator Reference.headers (exampleState 50) 100 spentAllocator
        = Fatal why)
  /\ (forall a r,
        @installRange Reference.headers a r
        = if capacity (ranges0 a) =? 0
          then mkAllocator (rowSize a) r (ranges1 a)
          else mkAllocator (rowSize a) (ranges0 a) r).
Proof.
  apply (@restockAllocator_steps Reference.headers (exampleState 50) 100
           spentAllocator 0 spentAllocator).
  reflexivity.
Defined.

(** A request of 100 bytes of which 40 are covered by raising the row limit
    leaves a remainder of 60, yet the buffer taken from the arena and the new
    range over it measure 100 bytes. *)
Lemma restockAllocator_steps_counterexample :
  exists raisedAllocator st' a' buffer,
    Reference.raiseRowLimitsRef fullAllocator 100 = (40, raisedAllocator) /\
    wrap32s (100 - 40) = 60 /\
    @restockAllocator Reference.headers (exampleState 50) 100 fullAllocator
      = Ok (st', a') /\
    buffers st' = buffers (exampleState 50) ++ [buffer] /\
    bufSize buffer = 100 /\
    capacity (ranges1 a') = 100 /\
    bufSize buffer <> 60.
Proof.
  eexists. eexists. eexists. eexists.
  split; [reflexivity|]. split; [reflexivity|]. split; [reflexivity|].
  split; [reflexivity|]. split; [reflexivity|]. split; [reflexivity|].
  discriminate.
Qed.

(** * Further properties of Instruction.cpp *)

(** ** The row count and the drain agree *)

Lemma Zseq_app b n m : Zseq b (n + m) = Zseq b n ++ Zseq (b + Z.of_nat n) m.
Proof.
  revert b; induction n as [|n IH]; intros b.
  - simpl. now rewrite Z.add_0_r.
  - cbn [Nat.add Zseq app]. rewrite IH. do 3 f_equal. lia.
Qed.

Lemma filter_none {A} (f : A -> bool) l :
  (forall x, In x l -> f x = false) -> filter f l = [].
Proof.
  induction l as [|x l IH]; intros Hf; [reflexivity|].
  simpl. rewrite (Hf x) by now left. apply IH. intros y Hy. apply Hf. now right.
Qed.

Lemma liveInRange_length mem rowSize r :
  0 < rowSize -> BitmapOK mem rowSize r -> BitmapCovers rowSize r ->
  liveInRange mem rowSize r
  = Z.of_nat (length (liveFrom mem rowSize r 0)).
Proof.
  intros Hrow (Hf & Hi & Hbits) Hcov. unfold BitmapCovers in Hcov.
  assert (Hnn : 0 <= rowSlots r rowSize) by (apply Z.div_pos; lia).
  unfold liveInRange, liveFrom, countBits. fold (rowSlots r rowSize).
  rewrite length_map, !Z.sub_0_r.
  replace (Z.to_nat (firstRowOffset r * 8))
    with (Z.to_nat (rowSlots r rowSize)
          + Z.to_nat (firstRowOffset r * 8 - rowSlots r rowSize))%nat by lia.
  rewrite Zseq_app, filter_app, length_app.
  rewrite (filter_none _ (Zseq (0 + _) _)).
  - pose proof (filter_length (isBitSet mem (base r))
                  (Zseq 0 (Z.to_nat (rowSlots r rowSize)))) as Hsplit.
    rewrite Zseq_length in Hsplit. cbn [length]. lia.
  - intros i Hin. apply Zseq_In in Hin.
    destruct (isBitSet mem (base r) i) eqn:Hset; [|reflexivity].
    specialize (Hbits i ltac:(lia) Hset). lia.
Qed.

Lemma liveRows_length mem rowSize ranges :
  0 < rowSize ->
  Forall (BitmapOK mem rowSize) ranges ->
  Forall (BitmapCovers rowSize) ranges ->
  Zsum (map (liveInRange mem rowSize) ranges)
  = Z.of_nat (length (liveRows mem rowSize ranges)).
Proof.
  intros Hrow Hok Hcov. induction Hok as [|r rest Hr Hrest IH]; [reflexivity|].
  pose proof (Forall_inv Hcov) as Hc. pose proof (Forall_inv_tail Hcov) as Hct.
  unfold liveRows, Zsum in *. cbn [map fold_right flat_map].
  rewrite length_app, IH by assumption.
  rewrite (liveInRange_length mem rowSize r Hrow Hr Hc). lia.
Qed.

(** X1. [countResultRows] announces exactly the rows the drain hands out:
    for ranges whose bitmap has a bit per row slot and marks only existing
    rows, the count equals the number of live rows, and the calls of
    [makeResultRows] that persist the cursor from (0, 0) return that many
    addresses in total once [n] batches of [maxRows] can hold them. *)
Theorem countResultRows_matches_drain :
  forall mem rowSize maxRows ranges fuel n,
    0 < rowSize ->
    1 <= maxRows <= INT32_MAX ->
    Z.of_nat (length ranges) <= INT32_MAX ->
    Forall (RangeOK rowSize) ranges ->
    Forall (BitmapOK mem rowSize) ranges ->
    Forall (BitmapCovers rowSize) ranges ->
    (fuelFor rowSize ranges <= fuel)%nat ->
    fst (countResultRows mem ranges rowSize) <= Z.of_nat n * maxRows ->
    fst (countResultRows mem ranges rowSize)
    = Z.of_nat (length (liveRows mem rowSize ranges))
    /\ exists bs c',
         drain fuel mem ranges rowSize maxRows (mkCursor 0 0) n = Some (bs, c') /\
         Z.of_nat (length (concat bs))
         = fst (countResultRows mem ranges rowSize).
Proof.
  intros mem rowSize maxRows ranges fuel n Hrow Hcap Hlen Hok Hbits Hcov Hfuel Hn.
  assert (Hcount : fst (countResultRows mem ranges rowSize)
                   = Z.of_nat (length (liveRows mem rowSize ranges))).
  { unfold INT32_MAX in Hlen.
    destruct (countResultRows_fold mem rowSize ranges Hrow Hbits (0, 0))
      as [Heq _]; [cbn [fst]; lia | cbn [fst]; lia |].
    unfold countResultRows. rewrite Heq. cbn [fst].
    rewrite liveRows_length by assumption. lia. }
  split; [exact Hcount|].
  destruct (drain_spec mem rowSize maxRows ranges Hrow Hcap Hlen Hok n
              (mkCursor 0 0) fuel (validCursor_origin _ _ Hrow Hok) Hfuel)
    as [c' Hd].
  rewrite remaining_origin in Hd.
  exists (batches (liveRows mem rowSize ranges) maxRows n), c'.
  split; [exact Hd|].
  rewrite concat_batches, firstn_all2; [symmetry; exact Hcount|].
  rewrite Hcount in Hn. nia.
Qed.

Lemma countResultRows_matches_drain_witness :
  fst (countResultRows scenarioMem [scenarioRange] 16)
  = Z.of_nat (length (liveRows scenarioMem 16 [scenarioRange]))
  /\ exists bs c',
       drain 16 scenarioMem [scenarioRange] 16 5 (mkCursor 0 0) 2
       = Some (bs, c') /\
       Z.of_nat (length (concat bs))
       = fst (countResultRows scenarioMem [scenarioRange] 16).
Proof.
  apply (countResultRows_matches_drain scenarioMem 16 5 [scenarioRange]
           16%nat 2%nat).
  - lia.
  - unfold INT32_MAX; lia.
  - unfold INT32_MAX; simpl; lia.
  - constructor; [exact scenarioRange_ok | constructor].
  - constructor; [exact scenario_bitmap_ok | constructor].
  - constructor; [|constructor]. unfold BitmapCovers. vm_compute. congruence.
  - vm_compute. lia.
  - vm_compute. congruence.
Defined.

(** ** No address is handed out twice *)






(** ** countErrors returns *)

Lemma forEach_total {St} (body : St -> Z -> Outcome St) idxs :
  (forall t i, In i idxs -> exists t', body t i = Ok t') ->
  forall s, exists s', forEach body idxs s = Ok s'.
Proof.
  induction idxs as [|i rest IH]; intros Hbody s; [exists s; reflexivity|].
  cbn [forEach]. destruct (Hbody s i ltac:(now left)) as [t Ht]. rewrite Ht.
  cbn [bind]. apply IH. intros t0 j Hj. apply Hbody. now right.
Qed.

Lemma at_total {A} (l : list A) i :
  0 <= i < Z.of_nat (length l) ->
  exists a, at_ l i = Ok a /\ nth_error l (Z.to_nat i) = Some a.
Proof.
  intros Hi. unfold at_. destruct (Z.ltb_spec i 0); [lia|].
  destruct (nth_error l (Z.to_nat i)) as [a|] eqn:E.
  - exists a. auto.
  - apply nth_error_None in E. lia.
Qed.

Lemma nth_error_In_firstn {A} (l : list A) i n a :
  nth_error l i = Some a -> (i < n)%nat -> In a (firstn n l).
Proof.
  revert i n; induction l as [|x l IH]; intros [|i] [|n] Hn Hi;
    simpl in *; try discriminate; try lia.
  - inversion Hn. now left.
  - right. apply (IH i); [assumption|lia].
Qed.

Lemma countBlockErrors_total error b count :
  bsNumRows b <= Z.of_nat (length (errors b)) ->
  exists count', countBlockErrors error b count = Ok count'.
Proof.
  intros Hrows. unfold countBlockErrors. apply forEach_total.
  intros c j Hj. unfold upTo in Hj. apply Zseq_In in Hj.
  destruct (at_total (errors b) j ltac:(lia)) as [e [He _]].
  rewrite He. cbn [bind]. eauto.
Qed.

Lemma countErrors_total status numBlocks error :
  numBlocks <= Z.of_nat (length status) ->
  Forall (fun b => bsNumRows b <= Z.of_nat (length (errors b)))
         (firstn (Z.to_nat numBlocks) status) ->
  exists count, countErrors status numBlocks error = Ok count.
Proof.
  intros Hn Hrows. unfold countErrors. apply forEach_total.
  intros c i Hi. unfold upTo in Hi. apply Zseq_In in Hi.
  destruct (at_total status i ltac:(lia)) as [b [Hb Hnth]].
  rewrite Hb. cbn [bind]. apply countBlockErrors_total.
  rewrite Forall_forall in Hrows. apply Hrows.
  apply (nth_error_In_firstn _ _ _ _ Hnth). lia.
Qed.

Lemma failedRows_bounds error status :
  0 <= failedRows error status
  <= Zsum (map (fun b => Z.max 0 (bsNumRows b)) status).
Proof.
  unfold failedRows, Zsum.
  induction status as [|b rest IH]; cbn [map fold_right]; [lia|].
  assert (0 <= failedInBlock error b <= Z.max 0 (bsNumRows b)); [|lia].
  unfold failedInBlock. split; [lia|].
  pose proof (filter_length_le (fun e => ErrorCode_eqb e error)
                (firstn (Z.to_nat (bsNumRows b)) (errors b))) as Hle.
  rewrite length_firstn in Hle. lia.
Qed.

(** X3. [countErrors] returns the number of rows that carry the error
    code among the first [numRows] rows of the first [numBlocks] blocks,
    whenever the blocks and their rows lie inside the arrays and that
    number fits [int32_t]; it is never negative and never more than the
    number of rows visited. *)
Theorem countErrors_counts_matching_rows :
  forall status numBlocks error,
    numBlocks <= Z.of_nat (length status) ->
    Forall (fun b => bsNumRows b <= Z.of_nat (length (errors b)))
           (firstn (Z.to_nat numBlocks) status) ->
    failedRows error (firstn (Z.to_nat numBlocks) status) <= INT32_MAX ->
    countErrors status numBlocks error
    = Ok (failedRows error (firstn (Z.to_nat numBlocks) status))
    /\ 0 <= failedRows error (firstn (Z.to_nat numBlocks) status)
       <= Zsum (map (fun b => Z.max 0 (bsNumRows b))
                    (firstn (Z.to_nat numBlocks) status)).
Proof.
  intros status numBlocks error Hn Hrows Hfit.
  split; [|apply failedRows_bounds].
  destruct (countErrors_total status numBlocks error Hn Hrows) as [count Hrun].
  rewrite Hrun. f_equal.
  unfold countErrors, upTo in Hrun.
  apply (countBlocks_spec error status _ 0 0 count) in Hrun; try lia.
  - simpl in Hrun. lia.
  - simpl. lia.
Qed.

Lemma countErrors_counts_matching_rows_witness :
  countErrors
    [mkBlockStatus 3 [kOk; kInsufficientMemory; kInsufficientMemory;
                      kInsufficientMemory];
     mkBlockStatus 2 [kError; kInsufficientMemory];
     mkBlockStatus 1 [kInsufficientMemory]] 2 kInsufficientMemory
  = Ok (failedRows kInsufficientMemory
          (firstn (Z.to_nat 2)
             [mkBlockStatus 3 [kOk; kInsufficientMemory; kInsufficientMemory;
                               kInsufficientMemory];
              mkBlockStatus 2 [kError; kInsufficientMemory];
              mkBlockStatus 1 [kInsufficientMemory]]))
  /\ 0 <= failedRows kInsufficientMemory
            (firstn (Z.to_nat 2)
               [mkBlockStatus 3 [kOk; kInsufficientMemory; kInsufficientMemory;
                                 kInsufficientMemory];
                mkBlockStatus 2 [kError; kInsufficientMemory];
                mkBlockStatus 1 [kInsufficientMemory]])
     <= Zsum (map (fun b => Z.max 0 (bsNumRows b))
                (firstn (Z.to_nat 2)
                   [mkBlockStatus 3 [kOk; kInsufficientMemory;
                                     kInsufficientMemory; kInsufficientMemory];
                    mkBlockStatus 2 [kError; kInsufficientMemory];
                    mkBlockStatus 1 [kInsufficientMemory]])).
Proof.
  apply (countErrors_counts_matching_rows
           [mkBlockStatus 3 [kOk; kInsufficientMemory; kInsufficientMemory;
                             kInsufficientMemory];
            mkBlockStatus 2 [kError; kInsufficientMemory];
            mkBlockStatus 1 [kInsufficientMemory]] 2 kInsufficientMemory).
  - simpl. lia.
  - repeat constructor; simpl; lia.
  - vm_compute. congruence.
Defined.

(** ** Allocators: what a restock keeps and what the clamp guarantees *)

Lemma operatorState_store_other l id id' s :
  id <> id' ->
  operatorState (storeOperatorState l id' s) id = operatorState l id.
Proof.
  intros Hne. induction l as [|[k s0] l IH]; [reflexivity|].
  cbn [storeOperatorState operatorState].
  destruct (Z.eqb_spec k id') as [->|Hk]; cbn [operatorState].
  - destruct (Z.eqb_spec id' id); [congruence|reflexivity].
  - destruct (Z.eqb_spec k id); [reflexivity|exact IH].
Qed.

Lemma Zsum_le_const {A} (f : A -> Z) c l :
  Forall (fun a => f a <= c) l ->
  Zsum (map f l) <= Z.of_nat (length l) * c.
Proof.
  unfold Zsum. induction 1 as [|a l Ha Hl IH]; cbn [map fold_right length]; lia.
Qed.

Lemma trimRowsRef_caps a target :
  0 <= target ->
  Reference.availableFixedRef (Reference.trimRowsRef a target) <= target.
Proof.
  intros Ht.
  assert (Hone : forall r t, 0 <= t ->
            0 <= Reference.rangeAvailableFixed (Reference.trimFixed r t) <= t).
  { intros r t Hpos. unfold Reference.trimFixed, Reference.rangeAvailableFixed.
    destruct (Z.gtb_spec (rowLimit r - rowOffset r) t);
      cbn [Reference.setLimit rowOffset rowLimit].
    - destruct (Z.gtb_spec (rowOffset r) (rowOffset r + t)); lia.
    - destruct (Z.gtb_spec (rowOffset r) (rowLimit r)); lia. }
  unfold Reference.availableFixedRef, Reference.trimRowsRef.
  cbn [ranges0 ranges1].
  pose proof (Hone (ranges0 a) target Ht) as H0.
  pose proof (Hone (ranges1 a)
                (target - Reference.rangeAvailableFixed
                            (Reference.trimFixed (ranges0 a) target))
                ltac:(lia)) as H1.
  lia.
Qed.

Section Allocators.
Context `{WaveHeaders}.

(** X4. A restock does not lose a range that holds memory: when, after
    the row limits were raised, the primary range is fixed-full or empty,
    or the secondary slot is empty, every non-empty range held before (in
    the retired list or in the two slots) is still held afterwards, the
    retired list only grows at its end and the row size is kept. *)
Theorem restockAllocator_keeps_ranges :
  forall st size a st' a',
    restockAllocator st size a = Ok (st', a') ->
    fixedFull (ranges0 (snd (raiseRowLimits a size))) = true \/
    rangeEmpty (ranges0 (snd (raiseRowLimits a size))) = true \/
    rangeEmpty (ranges1 (snd (raiseRowLimits a size))) = true ->
    (exists more, ranges st' = ranges st ++ more) /\
    rowSize a' = rowSize (snd (raiseRowLimits a size)) /\
    forall r,
      In r (heldRanges (ranges st) (snd (raiseRowLimits a size))) ->
      rangeEmpty r = false ->
      In r (heldRanges (ranges st') a').
Proof.
  intros st size a st' a' Hrun Hpre. unfold restockAllocator in Hrun.
  destruct (raiseRowLimits a size) as [raised a1]. cbn [snd] in *.
  destruct (wrap32s (size - raised) <=? 0).
  { inversion Hrun; subst. split; [exists []; now rewrite app_nil_r|].
    split; [reflexivity|]. auto. }
  unfold retireIfFull in Hrun.
  destruct (fixedFull (ranges0 a1)) eqn:Hfull.
  - bind_inv Hrun as alloc Ealloc. destruct alloc as [buffer arena'].
    inversion Hrun; subst st' a'; clear Hrun.
    cbn [withStorage ranges rowSize].
    split; [eexists; reflexivity|].
    unfold installRange, heldRanges. cbn [ranges0 ranges1 rowSize].
    destruct (rangeEmpty (ranges1 a1)) eqn:He1; cbn [ranges0 ranges1 rowSize];
      (split; [reflexivity|]); intros r Hin Hr;
      apply in_app_or in Hin as [Hin|[<-|[<-|[]]]];
      try congruence;
      repeat rewrite in_app_iff; cbn [In]; auto.
  - bind_inv Hrun as alloc Ealloc. destruct alloc as [buffer arena'].
    inversion Hrun; subst st' a'; clear Hrun.
    cbn [withStorage ranges rowSize].
    split; [exists []; now rewrite app_nil_r|].
    unfold installRange, heldRanges.
    destruct (rangeEmpty (ranges0 a1)) eqn:He0; cbn [ranges0 ranges1 rowSize];
      (split; [reflexivity|]); intros r Hin Hr;
      apply in_app_or in Hin as [Hin|[<-|[<-|[]]]];
      try congruence;
      repeat rewrite in_app_iff; cbn [In]; auto.
    destruct Hpre as [Hp|[Hp|Hp]]; congruence.
Qed.

(** X5. After [setSizesToSafe] no partition can take more rows than its
    share [(maxEntries - numDistinct) / numPartitions], and all partitions
    together no more than the free entries of the table, provided
    [trimRows(n)] leaves at most [n] bytes available. *)
Theorem setSizesToSafe_caps_rows :
  forall st st' a0,
    setSizesToSafe st = Ok st' ->
    nth_error (allocators st) 0 = Some a0 ->
    0 < rowSize a0 ->
    Z.of_nat (length (allocators st)) = partitionMask (hashTable st) + 1 ->
    partitionMask (hashTable st) + 1 <= INT32_MAX ->
    0 <= maxEntries (hashTable st) - numDistinct (hashTable st) ->
    (maxEntries (hashTable st) - numDistinct (hashTable st)) * rowSize a0
    <= INT32_MAX ->
    (forall a target, 0 <= target -> availableFixed (trimRows a target) <= target) ->
    hashTable st' = hashTable st /\
    Forall (fun a => availableRows (rowSize a0) a
                     <= Z.quot (maxEntries (hashTable st) - numDistinct (hashTable st))
                               (partitionMask (hashTable st) + 1))
           (allocators st') /\
    Zsum (map (availableRows (rowSize a0)) (allocators st'))
    <= maxEntries (hashTable st) - numDistinct (hashTable st).
Proof.
  intros st st' a0 Hrun Ha0 Hrow Hlen Hn Hspace Hbytes Hlaw.
  unfold INT32_MAX in *.
  set (space := maxEntries (hashTable st) - numDistinct (hashTable st)) in *.
  set (n := partitionMask (hashTable st) + 1) in *.
  assert (Hn1 : 1 <= n).
  { apply nth_error_lt in Ha0. lia. }
  destruct (setSizesToSafe_trims st st' Hrun)
    as (a0' & allowed & Ha0' & Hallowed & Ht & _ & Hlen' & _ & Hdone).
  rewrite Ha0 in Ha0'. inversion Ha0'; subst a0'; clear Ha0'.
  fold space n in Hallowed, Hdone.
  assert (Hsp : wrap32s space = space) by (apply wrap32s_small; nia).
  rewrite Hsp, (wrap32s_small n) in Hallowed by lia.
  rewrite (wrap32s_small n), Z.max_r in Hdone by lia.
  apply cdiv_Ok in Hallowed as [_ ->].
  assert (Hq : 0 <= Z.quot space n <= space).
  { rewrite Z.quot_div_nonneg by lia. split; [apply Z.div_pos; lia|].
    apply Z.div_le_upper_bound; nia. }
  assert (Hall : Forall (fun a => availableRows (rowSize a0) a <= Z.quot space n)
                        (allocators st')).
  { rewrite Forall_forall. intros a Hin.
    apply In_nth_error in Hin as [i Hi].
    pose proof (nth_error_lt _ _ _ Hi) as Hil.
    destruct (Hdone (Z.of_nat i) ltac:(lia)) as (b & _ & Hb).
    rewrite Nat2Z.id, Hi in Hb. inversion Hb; subst a; clear Hb.
    unfold availableRows, trimToShare.
    destruct (Z.gtb_spec (Z.quot (availableFixed b) (rowSize a0)) (Z.quot space n))
      as [Hgt|Hle]; [|exact Hle].
    rewrite wrap32s_small by nia.
    pose proof (Hlaw b (Z.quot space n * rowSize a0) ltac:(nia)) as Hcap.
    apply (Z.quot_le_mono _ _ (rowSize a0)) in Hcap; [|lia].
    rewrite Z.quot_mul in Hcap by lia. exact Hcap. }
  split; [exact Ht|]. split; [exact Hall|].
  pose proof (Zsum_le_const _ _ _ Hall) as Hsum.
  rewrite Hlen', Hlen in Hsum.
  assert (n * Z.quot space n <= space).
  { rewrite Z.quot_div_nonneg by lia. apply Z.mul_div_le. lia. }
  lia.
Qed.

(** X6. [resupplyHashTable] returns only when no block is active, and
    then it has touched nothing but the aggregation's own operator state:
    the stream's rows, block statuses and grid state and every other
    operator state are as before, and in its own state the number of
    distinct entries, the partition mask and the number of allocators are
    unchanged; the device stream is read first and released last. *)
Theorem resupplyHashTable_frame :
  forall stream inst state stream' events,
    operatorState (operatorStates stream) (stateId inst) = Some state ->
    resupplyHashTable stream inst = Ok (stream', events) ->
    debugActiveBlockCounter state = 0 /\
    streamNumRows stream' = streamNumRows stream /\
    hostBlockStatus stream' = hostBlockStatus stream /\
    gridStatus stream' = gridStatus stream /\
    (forall id, id <> stateId inst ->
       operatorState (operatorStates stream') id
       = operatorState (operatorStates stream) id) /\
    (exists st',
       operatorState (operatorStates stream') (stateId inst) = Some st' /\
       numDistinct (hashTable st') = numDistinct (hashTable state) /\
       partitionMask (hashTable st') = partitionMask (hashTable state) /\
       length (allocators st') = length (allocators state)) /\
    hd_error events
    = Some (EvPrefetchToHost (alignedHead state) (alignedHeadSize state)) /\
    last events EvWait = EvRelease.
Proof.
  intros stream inst state stream' events Hstate Hrun.
  destruct (resupplyHashTable_steps stream inst stream' events Hrun)
    as (state0 & numFailed & increment & st1 & st2 & grown & old & st3 & launched
        & Hst & Hzero & _ & _ & _ & Hloop & Hgrow & Hsafe & _ & Hstream & Hev).
  rewrite Hstate in Hst. inversion Hst; subst state0; clear Hst.
  apply resupplyPartitions_done in Hloop as (Ht1 & _ & Hl1 & _).
  apply growBuckets_cases in Hgrow as [Ha2 Hcases].
  apply setSizesToSafe_trims in Hsafe
    as (a0 & allowed & _ & _ & Ht3 & _ & Hl3 & _).
  split; [exact Hzero|]. subst stream'.
  cbn [withOperatorStates streamNumRows hostBlockStatus gridStatus operatorStates].
  repeat (split; [reflexivity|]).
  split; [intros id Hid; now apply operatorState_store_other|].
  split.
  - exists st3. split; [now apply (operatorState_store _ _ state)|].
    rewrite Ht3, Hl3, Ha2, Hl1.
    destruct Hcases as [[_ (ob & b & ar & _ & _ & _ & Ht2 & _)]|[_ [-> _]]].
    + rewrite Ht2. cbn [numDistinct partitionMask]. rewrite Ht1. auto.
    + rewrite Ht1. auto.
  - subst events. split; [reflexivity|].
    rewrite !app_assoc. apply last_last.
Qed.

End Allocators.

Lemma restockAllocator_keeps_ranges_witness :
  exists st' a',
    @restockAllocator Reference.headers (exampleState 50) 100 spentAllocator
    = Ok (st', a') /\
    (exists more, ranges st' = ranges (exampleState 50) ++ more) /\
    rowSize a' = rowSize (snd (Reference.raiseRowLimitsRef spentAllocator 100)) /\
    forall r,
      In r (heldRanges (ranges (exampleState 50))
              (snd (Reference.raiseRowLimitsRef spentAllocator 100))) ->
      (capacity r =? 0) = false ->
      In r (heldRanges (ranges st') a').
Proof.
  destruct (@restockAllocator Reference.headers (exampleState 50) 100 spentAllocator)
    as [[st' a']|why] eqn:Hrun; [|vm_compute in Hrun; discriminate Hrun].
  exists st', a'. split; [reflexivity|].
  apply (@restockAllocator_keeps_ranges Reference.headers (exampleState 50) 100
           spentAllocator st' a').
  - exact Hrun.
  - left. reflexivity.
Defined.

Lemma setSizesToSafe_caps_rows_witness :
  exists st',
    @setSizesToSafe Reference.headers (exampleState 200) = Ok st' /\
    hashTable st' = hashTable (exampleState 200) /\
    Forall (fun a => @availableRows Reference.headers 16 a <= Z.quot (210 - 200) (0 + 1))
           (allocators st') /\
    Zsum (map (@availableRows Reference.headers 16) (allocators st')) <= 210 - 200.
Proof.
  destruct (@setSizesToSafe Reference.headers (exampleState 200))
    as [st'|why] eqn:Hrun; [|vm_compute in Hrun; discriminate Hrun].
  exists st'. split; [reflexivity|].
  apply (@setSizesToSafe_caps_rows Reference.headers (exampleState 200) st'
           (exampleAllocator 200)).
  - exact Hrun.
  - reflexivity.
  - simpl. lia.
  - reflexivity.
  - vm_compute. congruence.
  - vm_compute. congruence.
  - vm_compute. congruence.
  - intros a target Ht. apply trimRowsRef_caps. exact Ht.
Defined.

Lemma resupplyHashTable_frame_witness :
  exists stream' events,
    @resupplyHashTable Reference.headers (exampleStream 200) exampleAggregation
    = Ok (stream', events) /\
    debugActiveBlockCounter (exampleState 200) = 0 /\
    streamNumRows stream' = streamNumRows (exampleStream 200) /\
    hostBlockStatus stream' = hostBlockStatus (exampleStream 200) /\
    gridStatus stream' = gridStatus (exampleStream 200) /\
    (forall id, id <> stateId exampleAggregation ->
       operatorState (operatorStates stream') id
       = operatorState (operatorStates (exampleStream 200)) id) /\
    (exists st',
       operatorState (operatorStates stream') (stateId exampleAggregation)
       = Some st' /\
       numDistinct (hashTable st') = numDistinct (hashTable (exampleState 200)) /\
       partitionMask (hashTable st')
       = partitionMask (hashTable (exampleState 200)) /\
       length (allocators st') = length (allocators (exampleState 200))) /\
    hd_error events
    = Some (EvPrefetchToHost (alignedHead (exampleState 200))
              (alignedHeadSize (exampleState 200))) /\
    last events EvWait = EvRelease.
Proof.
  destruct (@resupplyHashTable Reference.headers (exampleStream 200)
              exampleAggregation)
    as [[stream' events]|why] eqn:Hrun; [|vm_compute in Hrun; discriminate Hrun].
  exists stream', events. split; [reflexivity|].
  apply (@resupplyHashTable_frame Reference.headers (exampleStream 200)
           exampleAggregation (exampleState 200) stream' events).
  - reflexivity.
  - exact Hrun.
Defined.

(** ** Reading the aggregation result *)

Section Read.
Context `{WaveHeaders}.

(** X7. A keyless aggregation is read exactly once: the first
    [AbstractReadAggregation::canAdvance] on a new state returns one row at
    the continue label and only clears [isNew]; every later call, from any
    stream, returns the empty result and changes nothing.  No call touches
    the device or the transfer arena. *)
Theorem readCanAdvance_single_row_once :
  forall label batchSize fuel mem stream transfer aggState,
    isGrouped aggState = false ->
    isNew aggState = true ->
    AbstractReadAggregation.canAdvance label batchSize fuel mem stream transfer
      aggState
    = Ok (mkAdvance 1 label false false false None 0,
          AbstractReadAggregation.setIsNew aggState false, transfer, [])
    /\ forall fuel2 stream2 transfer2,
         AbstractReadAggregation.canAdvance label batchSize fuel2 mem stream2
           transfer2 (AbstractReadAggregation.setIsNew aggState false)
         = Ok (emptyResult, AbstractReadAggregation.setIsNew aggState false,
               transfer2, []).
Proof.
  intros label batchSize fuel mem stream transfer aggState Hg Hn.
  unfold AbstractReadAggregation.canAdvance.
  cbn [AbstractReadAggregation.setIsNew AbstractReadAggregation.withDrain
       isGrouped isNew].
  rewrite Hg, Hn. split; reflexivity.
Qed.


End Read.

Lemma readCanAdvance_single_row_once_witness :
  @AbstractReadAggregation.canAdvance Reference.headers 3 81920 0 zeroMem
    (mkStream 1 0 [] (fun _ => None) [] (fun _ => None)) (mkArena 0 1024)
    globalState
  = Ok (mkAdvance 1 3 false false false None 0,
        AbstractReadAggregation.setIsNew globalState false, mkArena 0 1024, [])
  /\ forall fuel2 stream2 transfer2,
       @AbstractReadAggregation.canAdvance Reference.headers 3 81920 fuel2
         zeroMem stream2 transfer2
         (AbstractReadAggregation.setIsNew globalState false)
       = Ok (@emptyResult Reference.headers,
             AbstractReadAggregation.setIsNew globalState false, transfer2, []).
Proof.
  apply (@readCanAdvance_single_row_once Reference.headers 3 81920 0%nat zeroMem
           (mkStream 1 0 [] (fun _ => None) [] (fun _ => None)) (mkArena 0 1024)
           globalState).
  - reflexivity.
  - reflexivity.
Defined.


(** ** Setting up the drain *)

Lemma setNth_id {A} (l : list A) i a :
  nth_error l i = Some a -> setNth l i a = l.
Proof.
  revert i; induction l as [|x l IH]; intros [|i]; simpl; try discriminate.
  - now intros [= ->].
  - intros Hn. f_equal. now apply IH.
Qed.

Lemma setNth_twice {A} (l : list A) i a b :
  setNth (setNth l i a) i b = setNth l i b.
Proof.
  revert i; induction l as [|x l IH]; intros [|i]; simpl; auto.
  now rewrite IH.
Qed.

Lemma nth_error_done_rest {A} (f : A -> A) (l : list A) i :
  nth_error (map f (firstn i l) ++ skipn i l) i = nth_error l i.
Proof.
  revert i; induction l as [|x l IH]; intros [|i]; simpl; auto.
Qed.

Lemma setNth_done_rest {A} (f : A -> A) (l : list A) i a :
  nth_error l i = Some a ->
  setNth (map f (firstn i l) ++ skipn i l) i (f a)
  = map f (firstn (S i) l) ++ skipn (S i) l.
Proof.
  revert i; induction l as [|x l IH]; intros [|i]; simpl; try discriminate.
  - now intros [= ->].
  - intros Hn. f_equal. now apply IH.
Qed.

Lemma firstn_S_nth {A} (l : list A) i a :
  nth_error l i = Some a -> firstn (S i) l = firstn i l ++ [a].
Proof.
  revert i; induction l as [|x l IH]; intros [|i]; simpl; try discriminate.
  - now intros [= ->].
  - intros Hn. f_equal. now apply IH.
Qed.

Lemma resize_length {A} (l : list A) n d :
  length (AbstractReadAggregation.resize l n d) = Z.to_nat n.
Proof.
  unfold AbstractReadAggregation.resize.
  rewrite length_app, length_firstn, repeat_length. lia.
Qed.

Lemma withRanges_same st : withRanges st (allocators st) (ranges st) = st.
Proof. destruct st; reflexivity. Qed.

Section SetUp.
Context `{WaveHeaders}.

Lemma emptiedAllocator_twice a :
  rangeEmpty (ranges0 a) = true -> rangeEmpty (ranges1 a) = true ->
  emptiedAllocator a = a.
Proof.
  intros H0 H1. unfold emptiedAllocator. rewrite H0, H1. now destruct a.
Qed.

(** Both slots of partition [i]. *)
Lemma moveOutRanges_step i st st' :
  forEach (AbstractReadAggregation.moveOutRange i) [0; 1] st = Ok st' ->
  0 <= i /\
  exists a,
    nth_error (allocators st) (Z.to_nat i) = Some a /\
    st' = withRanges st
            (setNth (allocators st) (Z.to_nat i) (emptiedAllocator a))
            (ranges st ++ movedRanges (stateRowSize st) a).
Proof.
  cbn [forEach]. intros Hrun. bind_inv Hrun as s1 E1. bind_inv Hrun as s2 E2.
  inversion Hrun; subst s2; clear Hrun.
  unfold AbstractReadAggregation.moveOutRange in E1.
  bind_inv E1 as a Ea. apply at_Ok in Ea as [Hi Hnth]. split; [exact Hi|].
  exists a. split; [exact Hnth|].
  change (0 =? 0) with true in E1. cbv iota in E1.
  unfold AbstractReadAggregation.moveOutRange in E2.
  bind_inv E2 as a1 Ea1. apply at_Ok in Ea1 as [_ Hnth1].
  change (1 =? 0) with false in E2. cbv iota in E2.
  unfold movedRanges, emptiedAllocator. cbn [filter map].
  pose proof (nth_error_lt _ _ _ Hnth) as Hlt.
  destruct (rangeEmpty (ranges0 a)) eqn:He0; cbn [negb].
  - inversion E1; subst s1; clear E1.
    rewrite Hnth in Hnth1. inversion Hnth1; subst a1; clear Hnth1.
    destruct (rangeEmpty (ranges1 a)) eqn:He1; cbn [negb map app];
      inversion E2; subst st'; clear E2.
    + rewrite app_nil_r.
      replace (mkAllocator (rowSize a) (ranges0 a) (ranges1 a)) with a
        by now destruct a.
      rewrite (setNth_id _ _ _ Hnth). symmetry. apply withRanges_same.
    + reflexivity.
  - inversion E1; subst s1; clear E1.
    cbn [AbstractReadAggregation.withDrain allocators ranges stateRowSize
         arena isNew headResultRowPointers numReadStreams rangeIdx rowIdx
         stateNumRows bytes resultRowPointers resultRows temp tempContents]
      in Hnth1, E2.
    rewrite setNth_same in Hnth1 by assumption.
    inversion Hnth1; subst a1; clear Hnth1.
    cbn [ranges0 ranges1 rowSize] in E2.
    destruct (rangeEmpty (ranges1 a)) eqn:He1; cbn [negb map app];
      inversion E2; subst st'; clear E2.
    + reflexivity.
    + unfold withRanges.
      cbn [AbstractReadAggregation.withDrain allocators ranges stateRowSize
           arena isNew headResultRowPointers numReadStreams rangeIdx rowIdx
           stateNumRows bytes resultRowPointers resultRows temp tempContents
           alignedHead alignedHeadSize debugActiveBlockCounter hashTable
           buffers isGrouped maxReadStreams].
      rewrite setNth_twice, <- app_assoc. reflexivity.
Qed.

Lemma flattenPartitions_done n st0 st1 :
  forEach (fun s i => forEach (AbstractReadAggregation.moveOutRange i) [0; 1] s)
    (upTo n) st0 = Ok st1 ->
  st1 = withRanges st0
          (map emptiedAllocator (firstn (Z.to_nat n) (allocators st0))
           ++ skipn (Z.to_nat n) (allocators st0))
          (ranges st0
           ++ flat_map (movedRanges (stateRowSize st0))
                (firstn (Z.to_nat n) (allocators st0))).
Proof.
  intros Hrun.
  destruct (Z.le_gt_cases n 0) as [Hn|Hn].
  { rewrite upTo_nonpos in Hrun by assumption. inversion Hrun; subst.
    replace (Z.to_nat n) with O by lia. cbn [firstn skipn map flat_map app].
    rewrite app_nil_r. symmetry. apply withRanges_same. }
  apply (upTo_invariant
           (fun s i => forEach (AbstractReadAggregation.moveOutRange i) [0; 1] s)
           (fun j s =>
              s = withRanges st0
                    (map emptiedAllocator (firstn (Z.to_nat j) (allocators st0))
                     ++ skipn (Z.to_nat j) (allocators st0))
                    (ranges st0
                     ++ flat_map (movedRanges (stateRowSize st0))
                          (firstn (Z.to_nat j) (allocators st0))))
           n st0 st1); try lia; auto.
  - intros i t t' Hi Ht Hstep.
    apply moveOutRanges_step in Hstep as (_ & a & Hnth & ->). subst t.
    unfold withRanges in *.
    cbn [AbstractReadAggregation.withDrain allocators ranges stateRowSize
         arena isNew headResultRowPointers numReadStreams rangeIdx rowIdx
         stateNumRows bytes resultRowPointers resultRows temp tempContents
         alignedHead alignedHeadSize debugActiveBlockCounter hashTable
         buffers isGrouped maxReadStreams] in *.
    rewrite nth_error_done_rest in Hnth.
    replace (Z.to_nat (i + 1)) with (S (Z.to_nat i)) by lia.
    rewrite (setNth_done_rest _ _ _ _ Hnth).
    replace (flat_map (movedRanges (stateRowSize st0))
               (firstn (S (Z.to_nat i)) (allocators st0)))
      with (flat_map (movedRanges (stateRowSize st0))
              (firstn (Z.to_nat i) (allocators st0))
            ++ movedRanges (stateRowSize st0) a)
      by (rewrite (firstn_S_nth _ _ _ Hnth), flat_map_app; cbn [flat_map];
          now rewrite app_nil_r).
    rewrite <- app_assoc.
    unfold AbstractReadAggregation.withDrain.
    cbn [alignedHead alignedHeadSize debugActiveBlockCounter hashTable
         buffers isGrouped maxReadStreams stateRowSize].
    reflexivity.
  - cbn [firstn skipn map flat_map app Z.to_nat]. rewrite app_nil_r.
    symmetry. apply withRanges_same.
Qed.

(** X9. The first grouped read flattens the partitions: every non-empty
    range of the first [numPartitions] allocators is appended to the
    state's ranges once, in partition order with the primary slot first and
    reconciled by [clearOverflows], and its slot is left default
    constructed; the row and byte totals are those of [countResultRows] on
    the flattened list, the cursor is reset to (0, 0), one row-pointer slot
    per read stream is allocated and zeroed on the device, and the staging
    buffer of [batchSize + 1] words is taken from the transfer arena. *)
Theorem setUpDrain_flattens_partitions :
  forall batchSize mem transfer st st' transfer' events,
    AbstractReadAggregation.setUpDrain batchSize mem transfer st
    = Ok (st', transfer', events) ->
    ranges st'
    = ranges st
      ++ flat_map (movedRanges (stateRowSize st))
           (firstn (Z.to_nat (wrap32s (partitionMask (hashTable st) + 1)))
              (allocators st)) /\
    allocators st'
    = map emptiedAllocator
        (firstn (Z.to_nat (wrap32s (partitionMask (hashTable st) + 1)))
           (allocators st))
      ++ skipn (Z.to_nat (wrap32s (partitionMask (hashTable st) + 1)))
           (allocators st) /\
    (stateNumRows st', bytes st')
    = countResultRows mem (ranges st') (stateRowSize st) /\
    rangeIdx st' = 0 /\ rowIdx st' = 0 /\ isNew st' = false /\
    length (resultRows st') = Z.to_nat (maxReadStreams st) /\
    exists ptrs tmp,
      arenaAllocate (arena st) (maxReadStreams st * 8) = Ok (ptrs, arena st') /\
      arenaAllocate transfer (wrap32s (batchSize + 1) * 8) = Ok (tmp, transfer') /\
      resultRowPointers st' = Some ptrs /\
      headResultRowPointers st' = bufAddr ptrs /\
      numReadStreams st' = maxReadStreams st /\
      temp st' = Some tmp /\
      events = [EvMemset (bufAddr ptrs) 0 (maxReadStreams st * 8);
                EvPrefetchToDevice (alignedHead st) (alignedHeadSize st)].
Proof.
  intros batchSize mem transfer st st' transfer' events Hrun.
  unfold AbstractReadAggregation.setUpDrain in Hrun.
  bind_inv Hrun as s1 Eloop.
  apply flattenPartitions_done in Eloop. subst s1.
  unfold withRanges, AbstractReadAggregation.setIsNew in Hrun.
  cbn [AbstractReadAggregation.withDrain allocators ranges stateRowSize
       arena isNew headResultRowPointers numReadStreams rangeIdx rowIdx
       stateNumRows bytes resultRowPointers resultRows temp tempContents
       alignedHead alignedHeadSize debugActiveBlockCounter hashTable
       buffers isGrouped maxReadStreams] in Hrun.
  destruct (countResultRows mem _ (stateRowSize st)) as [r b] eqn:Hcount.
  bind_inv Hrun as alloc1 E1. destruct alloc1 as [ptrs arena'].
  bind_inv Hrun as alloc2 E2. destruct alloc2 as [tmp tr'].
  inversion Hrun; subst st' transfer' events; clear Hrun.
  cbn [AbstractReadAggregation.withDrain allocators ranges stateRowSize
       arena isNew headResultRowPointers numReadStreams rangeIdx rowIdx
       stateNumRows bytes resultRowPointers resultRows temp tempContents
       alignedHead alignedHeadSize debugActiveBlockCounter hashTable
       buffers isGrouped maxReadStreams].
  split; [reflexivity|]. split; [reflexivity|].
  split; [symmetry; exact Hcount|].
  repeat (split; [reflexivity|]).
  split; [apply resize_length|].
  exists ptrs, tmp. repeat (split; [assumption || reflexivity|]). reflexivity.
Qed.

(** X10. Every grouped read that returns leaves the state set up for the
    calling stream: [isNew] is cleared, the staging buffer exists and the
    stream has its row-pointer array, so the set-up and the per-stream
    allocation are not repeated by a later read. *)
Theorem readCanAdvance_sets_up_stream :
  forall label batchSize fuel mem stream transfer st result st' transfer' events,
    isGrouped st = true ->
    streamIdx stream < maxReadStreams st ->
    AbstractReadAggregation.canAdvance label batchSize fuel mem stream transfer st
    = Ok (result, st', transfer', events) ->
    0 <= streamIdx stream /\
    isGrouped st' = true /\ isNew st' = false /\
    maxReadStreams st' = maxReadStreams st /\
    stateRowSize st' = stateRowSize st /\
    (exists buffer,
       nth_error (resultRows st') (Z.to_nat (streamIdx stream))
       = Some (Some buffer)) /\
    (exists tmp, temp st' = Some tmp) /\
    (isNew st = false -> transfer' = transfer /\ ranges st' = ranges st).
Proof.
  intros label batchSize fuel mem stream transfer st result st' transfer' events
         Hg Hidx Hrun.
  unfold AbstractReadAggregation.canAdvance in Hrun. rewrite Hg in Hrun.
  destruct (Z.geb_spec (streamIdx stream) (maxReadStreams st)); [lia|].
  bind_inv Hrun as setup Esetup. destruct setup as [[s1 tr1] ev1].
  assert (Hs1 : isGrouped s1 = true /\ isNew s1 = false /\
                maxReadStreams s1 = maxReadStreams st /\
                stateRowSize s1 = stateRowSize st /\
                (isNew st = false -> tr1 = transfer /\ ranges s1 = ranges st)).
  { destruct (isNew st) eqn:Hnew.
    - unfold AbstractReadAggregation.setUpDrain in Esetup.
      bind_inv Esetup as s0 Eloop.
      apply flattenPartitions_done in Eloop. subst s0.
      unfold withRanges, AbstractReadAggregation.setIsNew in Esetup.
      cbn [AbstractReadAggregation.withDrain allocators ranges stateRowSize
           arena isNew headResultRowPointers numReadStreams rangeIdx rowIdx
           stateNumRows bytes resultRowPointers resultRows temp tempContents
           alignedHead alignedHeadSize debugActiveBlockCounter hashTable
           buffers isGrouped maxReadStreams] in Esetup.
      destruct (countResultRows mem _ (stateRowSize st)) as [r b].
      bind_inv Esetup as alloc1 E1. destruct alloc1 as [ptrs arena'].
      bind_inv Esetup as alloc2 E2. destruct alloc2 as [tmp tr'].
      inversion Esetup; subst; clear Esetup.
      cbn [AbstractReadAggregation.withDrain isGrouped isNew maxReadStreams
           stateRowSize].
      repeat (split; [assumption || reflexivity|]). discriminate.
    - inversion Esetup; subst; clear Esetup.
      repeat (split; [assumption || reflexivity|]). auto. }
  destruct Hs1 as (Hg1 & Hn1 & Hm1 & Hr1 & Hold).
  bind_inv Hrun as ensured Eens. destruct ensured as [s2 ev2].
  assert (Hs2 : 0 <= streamIdx stream /\
                isGrouped s2 = true /\ isNew s2 = false /\
                maxReadStreams s2 = maxReadStreams st /\
                stateRowSize s2 = stateRowSize st /\
                (exists buffer,
                   nth_error (resultRows s2) (Z.to_nat (streamIdx stream))
                   = Some (Some buffer)) /\
                temp s2 = temp s1 /\ ranges s2 = ranges s1).
  { unfold AbstractReadAggregation.ensureStreamBuffer in Eens.
    bind_inv Eens as slot Eslot. apply at_Ok in Eslot as [Hi Hslot].
    split; [exact Hi|].
    destruct slot as [buffer|].
    - inversion Eens; subst; clear Eens.
      repeat (split; [assumption|]). split; [eauto|]. auto.
    - bind_inv Eens as alloc Ealloc. destruct alloc as [buffer arena'].
      bind_inv Eens as ptrs Eptrs.
      inversion Eens; subst; clear Eens.
      cbn [AbstractReadAggregation.withDrain isGrouped isNew maxReadStreams
           stateRowSize resultRows temp ranges].
      repeat (split; [assumption|]).
      split; [|auto].
      exists buffer. apply setNth_same. eapply nth_error_lt; eauto. }
  destruct Hs2 as (Hi & Hg2 & Hn2 & Hm2 & Hr2 & [buffer Hbuf] & Ht2 & Hrs2).
  bind_inv Hrun as tmp Etmp.
  destruct (temp s2) as [tmp0|] eqn:Htmp; [|discriminate].
  bind_inv Hrun as d Ed.
  cbv zeta in Hrun.
  assert (Hfinal : forall res evs,
            Ok (res,
                AbstractReadAggregation.withDrain s2 (allocators s2) (arena s2)
                  (ranges s2) (isNew s2) (headResultRowPointers s2)
                  (numReadStreams s2) (startRange (d_cursor d))
                  (startRow (d_cursor d)) (stateNumRows s2) (bytes s2)
                  (resultRowPointers s2) (resultRows s2) (temp s2)
                  (d_fill d :: d_result d), tr1, evs)
            = Ok (result, st', transfer', events) ->
            0 <= streamIdx stream /\
            isGrouped st' = true /\ isNew st' = false /\
            maxReadStreams st' = maxReadStreams st /\
            stateRowSize st' = stateRowSize st /\
            (exists buffer,
               nth_error (resultRows st') (Z.to_nat (streamIdx stream))
               = Some (Some buffer)) /\
            (exists tmp, temp st' = Some tmp) /\
            (isNew st = false -> transfer' = transfer /\ ranges st' = ranges st)).
  { intros res evs Heq. inversion Heq; subst; clear Heq.
    cbn [AbstractReadAggregation.withDrain isGrouped isNew maxReadStreams
         stateRowSize resultRows temp ranges].
    repeat (split; [assumption|]).
    split; [eauto|]. split; [eauto|].
    intros Hnew. destruct (Hold Hnew) as [-> Hrs]. split; [reflexivity|].
    congruence. }
  rewrite Htmp in Hfinal.
  destruct (d_fill d =? 0).
  - exact (Hfinal _ _ Hrun).
  - bind_inv Hrun as slot Eslot. bind_inv Hrun as buf Ebuf.
    exact (Hfinal _ _ Hrun).
Qed.

End SetUp.

Lemma setUpDrain_flattens_partitions_witness :
  exists st' transfer' events,
    @AbstractReadAggregation.setUpDrain Reference.headers 5 zeroMem
      (mkArena 0 1024) (exampleState 50)
    = Ok (st', transfer', events) /\
    ranges st'
    = ranges (exampleState 50)
      ++ flat_map (@movedRanges Reference.headers (stateRowSize (exampleState 50)))
           (firstn (Z.to_nat (wrap32s (partitionMask (hashTable (exampleState 50)) + 1)))
              (allocators (exampleState 50))) /\
    allocators st'
    = map (@emptiedAllocator Reference.headers)
        (firstn (Z.to_nat (wrap32s (partitionMask (hashTable (exampleState 50)) + 1)))
           (allocators (exampleState 50)))
      ++ skipn (Z.to_nat (wrap32s (partitionMask (hashTable (exampleState 50)) + 1)))
           (allocators (exampleState 50)) /\
    (stateNumRows st', bytes st')
    = countResultRows zeroMem (ranges st') (stateRowSize (exampleState 50)) /\
    rangeIdx st' = 0 /\ rowIdx st' = 0 /\ isNew st' = false /\
    length (resultRows st') = Z.to_nat (maxReadStreams (exampleState 50)) /\
    exists ptrs tmp,
      arenaAllocate (arena (exampleState 50))
        (maxReadStreams (exampleState 50) * 8) = Ok (ptrs, arena st') /\
      arenaAllocate (mkArena 0 1024) (wrap32s (5 + 1) * 8) = Ok (tmp, transfer') /\
      resultRowPointers st' = Some ptrs /\
      headResultRowPointers st' = bufAddr ptrs /\
      numReadStreams st' = maxReadStreams (exampleState 50) /\
      temp st' = Some tmp /\
      events = [EvMemset (bufAddr ptrs) 0 (maxReadStreams (exampleState 50) * 8);
                EvPrefetchToDevice (alignedHead (exampleState 50))
                  (alignedHeadSize (exampleState 50))].
Proof.
  destruct (@AbstractReadAggregation.setUpDrain Reference.headers 5 zeroMem
              (mkArena 0 1024) (exampleState 50))
    as [[[st' transfer'] events]|why] eqn:Hrun;
    [|vm_compute in Hrun; discriminate Hrun].
  exists st', transfer', events. split; [reflexivity|].
  apply (@setUpDrain_flattens_partitions Reference.headers 5 zeroMem
           (mkArena 0 1024) (exampleState 50) st' transfer' events).
  exact Hrun.
Defined.

Lemma readCanAdvance_sets_up_stream_witness :
  exists result st' transfer' events,
    @AbstractReadAggregation.canAdvance Reference.headers 3 5 16 scenarioMem
      (mkStream 100 1 [] (fun _ => None) [] (fun _ => None)) (mkArena 0 1024)
      drainingState
    = Ok (result, st', transfer', events) /\
    0 <= 1 /\
    isGrouped st' = true /\ isNew st' = false /\
    maxReadStreams st' = maxReadStreams drainingState /\
    stateRowSize st' = stateRowSize drainingState /\
    (exists buffer,
       nth_error (resultRows st') (Z.to_nat 1) = Some (Some buffer)) /\
    (exists tmp, temp st' = Some tmp) /\
    (isNew drainingState = false ->
     transfer' = mkArena 0 1024 /\ ranges st' = ranges drainingState).
Proof.
  destruct (@AbstractReadAggregation.canAdvance Reference.headers 3 5 16
              scenarioMem
              (mkStream 100 1 [] (fun _ => None) [] (fun _ => None))
              (mkArena 0 1024) drainingState)
    as [[[[result st'] transfer'] events]|why] eqn:Hrun;
    [|vm_compute in Hrun; discriminate Hrun].
  exists result, st', transfer', events. split; [reflexivity|].
  apply (@readCanAdvance_sets_up_stream Reference.headers 3 5 16%nat scenarioMem
           (mkStream 100 1 [] (fun _ => None) [] (fun _ => None))
           (mkArena 0 1024) drainingState result st' transfer' events).
  - reflexivity.
  - simpl. lia.
  - exact Hrun.
Defined.

(** * Properties of Utf8Utils.cpp *)

Import Utf8.

(** ** UTF-8: bit operations on bytes *)

Lemma land_shiftl_low a b k :
  0 <= k -> 0 <= b < 2 ^ k -> Z.land (Z.shiftl a k) b = 0.
Proof.
  intros Hk Hb. apply Z.bits_inj'. intros n Hn.
  rewrite Z.land_spec, Z.bits_0.
  destruct (Z.lt_ge_cases n k) as [Hlt|Hge].
  - rewrite Z.shiftl_spec_low by assumption. reflexivity.
  - destruct (Z.eq_dec b 0) as [->|Hnz].
    + rewrite Z.bits_0. apply andb_false_r.
    + rewrite (Z.bits_above_log2 b n); [apply andb_false_r|lia|].
      apply Z.log2_lt_pow2; [lia|].
      apply Z.lt_le_trans with (2 ^ k); [lia|].
      apply Z.pow_le_mono_r; lia.
Qed.

Lemma lor_shiftl_add a b k :
  0 <= k -> 0 <= b < 2 ^ k -> Z.lor (Z.shiftl a k) b = a * 2 ^ k + b.
Proof.
  intros Hk Hb.
  pose proof (Z.add_lor_land (Z.shiftl a k) b) as Hadd.
  rewrite land_shiftl_low in Hadd by assumption.
  rewrite Z.shiftl_mul_pow2 in * by assumption. lia.
Qed.

Lemma land_low_bits b n : 0 <= n -> Z.land b (2 ^ n - 1) = b mod 2 ^ n.
Proof.
  intros Hn. rewrite <- Z.land_ones by assumption. f_equal.
  rewrite Z.ones_equiv. lia.
Qed.

Lemma land_63 b : Z.land b 63 = b mod 64.
Proof. exact (land_low_bits b 6 ltac:(lia)). Qed.
Lemma land_31 b : Z.land b 31 = b mod 32.
Proof. exact (land_low_bits b 5 ltac:(lia)). Qed.
Lemma land_15 b : Z.land b 15 = b mod 16.
Proof. exact (land_low_bits b 4 ltac:(lia)). Qed.
Lemma land_7 b : Z.land b 7 = b mod 8.
Proof. exact (land_low_bits b 3 ltac:(lia)). Qed.

Lemma bytes_all (P : Z -> bool) :
  forallb P (Zseq 0 256) = true -> forall b, isByte b -> P b = true.
Proof.
  intros Hall b Hb. rewrite forallb_forall in Hall. apply Hall.
  apply Zseq_In. unfold isByte in Hb. lia.
Qed.

Lemma utf_cont_range b :
  isByte b -> utf_cont b = (128 <=? b) && (b <? 192).
Proof.
  intros Hb.
  apply (bytes_all (fun b => Bool.eqb (utf_cont b) ((128 <=? b) && (b <? 192))))
    in Hb; [|vm_compute; reflexivity].
  now apply Bool.eqb_prop in Hb.
Qed.

Lemma IS_ASCII_range b : isByte b -> IS_ASCII b = (b <? 128).
Proof.
  intros Hb.
  apply (bytes_all (fun b => Bool.eqb (IS_ASCII b) (b <? 128))) in Hb;
    [|vm_compute; reflexivity].
  now apply Bool.eqb_prop in Hb.
Qed.

(** The code point assembled from two, three and four bytes. *)
Lemma codePoint2 b0 b1 :
  Z.lor (Z.shiftl (Z.land b0 31) 6) (Z.land b1 63)
  = (b0 mod 32) * 64 + b1 mod 64.
Proof.
  rewrite land_31, land_63.
  rewrite lor_shiftl_add; [reflexivity|lia|].
  apply Z.mod_pos_bound. lia.
Qed.

Lemma codePoint3 b0 b1 b2 :
  Z.lor (Z.lor (Z.shiftl (Z.land b0 15) 12) (Z.shiftl (Z.land b1 63) 6))
        (Z.land b2 63)
  = (b0 mod 16) * 4096 + (b1 mod 64) * 64 + b2 mod 64.
Proof.
  rewrite land_15, !land_63.
  pose proof (Z.mod_pos_bound b1 64 ltac:(lia)).
  pose proof (Z.mod_pos_bound b2 64 ltac:(lia)).
  replace (Z.shiftl (b0 mod 16) 12) with (Z.shiftl (Z.shiftl (b0 mod 16) 6) 6)
    by (rewrite !Z.shiftl_mul_pow2 by lia; lia).
  rewrite <- Z.shiftl_lor.
  rewrite (lor_shiftl_add (b0 mod 16) (b1 mod 64) 6) by lia.
  rewrite lor_shiftl_add by lia. lia.
Qed.

Lemma codePoint4 b0 b1 b2 b3 :
  Z.lor (Z.lor (Z.lor (Z.shiftl (Z.land b0 7) 18) (Z.shiftl (Z.land b1 63) 12))
               (Z.shiftl (Z.land b2 63) 6))
        (Z.land b3 63)
  = (b0 mod 8) * 262144 + (b1 mod 64) * 4096 + (b2 mod 64) * 64 + b3 mod 64.
Proof.
  rewrite land_7, !land_63.
  pose proof (Z.mod_pos_bound b1 64 ltac:(lia)).
  pose proof (Z.mod_pos_bound b2 64 ltac:(lia)).
  pose proof (Z.mod_pos_bound b3 64 ltac:(lia)).
  replace (Z.shiftl (b0 mod 8) 18) with (Z.shiftl (Z.shiftl (b0 mod 8) 6) 12)
    by (rewrite !Z.shiftl_mul_pow2 by lia; lia).
  rewrite <- Z.shiftl_lor.
  rewrite (lor_shiftl_add (b0 mod 8) (b1 mod 64) 6) by lia.
  replace (Z.shiftl (b0 mod 8 * 2 ^ 6 + b1 mod 64) 12)
    with (Z.shiftl (Z.shiftl (b0 mod 8 * 2 ^ 6 + b1 mod 64) 6) 6)
    by (rewrite !Z.shiftl_mul_pow2 by lia; lia).
  rewrite <- Z.shiftl_lor.
  rewrite (lor_shiftl_add (b0 mod 8 * 2 ^ 6 + b1 mod 64) (b2 mod 64) 6) by lia.
  rewrite lor_shiftl_add by lia. lia.
Qed.

Lemma at_cons_0 {A} (x : A) l : at_ (x :: l) 0 = Ok x.
Proof. reflexivity. Qed.

Lemma at_cons_S {A} (x : A) l i : 0 < i -> at_ (x :: l) i = at_ l (i - 1).
Proof.
  intros Hi. unfold at_.
  destruct (Z.ltb_spec i 0); [lia|]. destruct (Z.ltb_spec (i - 1) 0); [lia|].
  replace (Z.to_nat i) with (S (Z.to_nat (i - 1))) by lia. reflexivity.
Qed.

Lemma at_nil {A} i : @at_ A [] i = Fatal OutOfRange.
Proof.
  unfold at_. destruct (i <? 0); [reflexivity|].
  destruct (Z.to_nat i); reflexivity.
Qed.

Ltac at_simpl :=
  repeat first
    [ rewrite at_cons_0
    | rewrite at_cons_S by lia
    | rewrite at_nil ];
  cbn [bind Z.sub Z.pos_sub Pos.pred_double Z.succ_double Z.pred_double
       Z.double negb];
  repeat first
    [ rewrite at_cons_0
    | rewrite at_cons_S by lia
    | rewrite at_nil ];
  cbn [bind negb].

(** Split on the next test of the decision tree. *)
Ltac split_test :=
  match goal with
  | |- context [if ?a <? ?b then _ else _] => destruct (Z.ltb_spec a b)
  | |- context [if ?a =? ?b then _ else _] => destruct (Z.eqb_spec a b)
  | |- context [if negb (utf_cont ?x) then _ else _] =>
      let E := fresh "Hcont" in destruct (utf_cont x) eqn:E; cbn [negb]
  | |- context [if ?a && ?b then _ else _] =>
      let E := fresh "Hand" in destruct (a && b) eqn:E
  | |- context [at_ ?l _] =>
      is_var l; destruct l; cbn [length] in *; at_simpl
  end; try lia.

Lemma tryGet_bounds_aux input size :
  1 <= size <= Z.of_nat (length input) ->
  exists r cp,
    tryGetUtf8CharLength input size = Ok (r, cp) /\
    r <> 0 /\ -6 <= r <= 4 /\ Z.abs r <= size.
Proof.
  intros Hsize. unfold tryGetUtf8CharLength, firstByteCharLength.
  destruct input as [|b0 l]; [simpl in Hsize; lia|]. cbn [length] in Hsize.
  at_simpl.
  repeat split_test;
    try (eexists; eexists; split; [reflexivity|lia]).
Qed.

Lemma firstByte_cases b0 l :
  exists c,
    firstByteCharLength (b0 :: l) = Ok c /\
    ((c = 1 /\ b0 < 128) \/ (c = 2 /\ 192 <= b0 < 224) \/
     (c = 3 /\ 224 <= b0 < 240) \/ (c = 4 /\ 240 <= b0 < 248) \/
     (c = 5 /\ 248 <= b0 < 252) \/ (c = 6 /\ 252 <= b0 < 254) \/
     (c = -1 /\ (128 <= b0 < 192 \/ 254 <= b0))).
Proof.
  unfold firstByteCharLength. rewrite at_cons_0. cbn [bind].
  eexists. split; [reflexivity|].
  repeat match goal with
         | |- context [if ?a <? ?b then _ else _] => destruct (Z.ltb_spec a b)
         end; lia.
Qed.

Lemma cont_byte b : isByte b -> utf_cont b = true -> 128 <= b < 192.
Proof.
  intros Hb Hc. rewrite utf_cont_range in Hc by assumption.
  apply andb_true_iff in Hc as [H1 H2].
  apply Z.leb_le in H1. apply Z.ltb_lt in H2. lia.
Qed.

Lemma byte_cont b : 128 <= b < 192 -> utf_cont b = true.
Proof.
  intros Hb. rewrite utf_cont_range by (unfold isByte; lia).
  apply andb_true_iff. split; [apply Z.leb_le|apply Z.ltb_lt]; lia.
Qed.

Ltac bytes_of H :=
  repeat match type of H with
         | Forall _ (_ :: _) =>
             let Hb := fresh "Hb" in
             let H' := fresh "Hrest" in
             pose proof (Forall_inv H) as Hb;
             pose proof (Forall_inv_tail H) as H'; clear H; rename H' into H
         end.

Ltac bytes_eq :=
  repeat (apply (f_equal2 (@cons Z)); [Z.div_mod_to_equations; lia|]);
  reflexivity.

(** A positive result stands for a scalar value in canonical form. *)
Lemma tryGet_sound_aux input size r cp :
  Forall isByte input ->
  tryGetUtf8CharLength input size = Ok (r, cp) ->
  0 < r ->
  isScalar cp /\ encode cp = firstn (Z.to_nat r) input /\
  (Z.to_nat r <= length input)%nat.
Proof.
  intros Hbytes Hrun Hpos. unfold tryGetUtf8CharLength in Hrun.
  destruct input as [|b0 l].
  { unfold firstByteCharLength in Hrun. rewrite at_nil in Hrun. discriminate. }
  destruct (firstByte_cases b0 l) as [c [Hc Hcase]]. rewrite Hc in Hrun.
  cbn [bind] in Hrun. pose proof (Forall_inv Hbytes) as Hb0. unfold isByte in Hb0.
  unfold isScalar, kMinSurrogate, kMaxSurrogate in *.
  destruct Hcase as [[-> H0]|[[-> H0]|[[-> H0]|[[-> H0]|[[-> H0]|[[-> H0]|[-> H0]]]]]]];
    cbn [Z.ltb Z.eqb Z.compare Pos.compare Pos.compare_cont Pos.eqb] in Hrun;
    rewrite ?at_cons_0 in Hrun; cbn [bind] in Hrun.
  - (* one byte *)
    inversion Hrun; subst. unfold encode.
    destruct (Z.ltb_spec cp 128); [|lia].
    split; [lia|split; [reflexivity|cbn [length]; lia]].
  - (* two bytes *)
    destruct (size <? 2); [inversion Hrun; subst; lia|].
    destruct l as [|b1 l]; [rewrite at_cons_S, at_nil in Hrun by lia; discriminate|].
    rewrite at_cons_S, at_cons_0 in Hrun by lia. cbn [bind] in Hrun.
    destruct (utf_cont b1) eqn:Hc1; cbn [negb] in Hrun;
      [|inversion Hrun; subst; lia].
    bytes_of Hbytes. apply cont_byte in Hc1; [|assumption].
    rewrite codePoint2 in Hrun.
    destruct (Z.ltb_spec (b0 mod 32 * 64 + b1 mod 64) 128);
      inversion Hrun; subst; [lia|].
    unfold encode.
    destruct (Z.ltb_spec (b0 mod 32 * 64 + b1 mod 64) 128); [lia|].
    destruct (Z.ltb_spec (b0 mod 32 * 64 + b1 mod 64) 2048);
      [|Z.div_mod_to_equations; lia].
    split; [Z.div_mod_to_equations; lia|].
    change (Z.to_nat 2) with 2%nat. cbn [firstn].
    split; [bytes_eq|cbn [length]; lia].
  - (* three bytes *)
    destruct (size <? 2); [inversion Hrun; subst; lia|].
    destruct l as [|b1 l]; [rewrite at_cons_S, at_nil in Hrun by lia; discriminate|].
    rewrite at_cons_S, at_cons_0 in Hrun by lia. cbn [bind] in Hrun.
    destruct (utf_cont b1) eqn:Hc1; cbn [negb] in Hrun;
      [|inversion Hrun; subst; lia].
    destruct (size <? 3); [inversion Hrun; subst; lia|].
    destruct l as [|b2 l];
      [rewrite !at_cons_S, at_nil in Hrun by lia; discriminate|].
    rewrite !at_cons_S in Hrun by lia.
    change (2 - 1 - 1) with 0 in Hrun. rewrite at_cons_0 in Hrun. cbn [bind] in Hrun.
    destruct (utf_cont b2) eqn:Hc2; cbn [negb] in Hrun;
      [|inversion Hrun; subst; lia].
    bytes_of Hbytes.
    apply cont_byte in Hc1; [|assumption]. apply cont_byte in Hc2; [|assumption].
    rewrite codePoint3 in Hrun.
    set (v := b0 mod 16 * 4096 + b1 mod 64 * 64 + b2 mod 64) in *.
    destruct (Z.leb_spec 55296 v); destruct (Z.leb_spec v 57343);
      cbn [andb] in Hrun; try (inversion Hrun; subst; lia);
      (destruct (Z.ltb_spec v 2048); inversion Hrun; subst; [lia|]);
      unfold encode;
      (destruct (Z.ltb_spec v 128); [lia|]);
      (destruct (Z.ltb_spec v 2048); [lia|]);
      (destruct (Z.ltb_spec v 65536); [|subst v; Z.div_mod_to_equations; lia]);
      (split; [subst v; Z.div_mod_to_equations; lia|]);
      change (Z.to_nat 3) with 3%nat; cbn [firstn]; subst v;
      (split; [bytes_eq|cbn [length]; lia]).
  - (* four bytes *)
    destruct (size <? 2); [inversion Hrun; subst; lia|].
    destruct l as [|b1 l]; [rewrite at_cons_S, at_nil in Hrun by lia; discriminate|].
    rewrite at_cons_S, at_cons_0 in Hrun by lia. cbn [bind] in Hrun.
    destruct (utf_cont b1) eqn:Hc1; cbn [negb] in Hrun;
      [|inversion Hrun; subst; lia].
    destruct (size <? 3); [inversion Hrun; subst; lia|].
    destruct l as [|b2 l];
      [rewrite !at_cons_S, at_nil in Hrun by lia; discriminate|].
    rewrite !at_cons_S in Hrun by lia.
    change (2 - 1 - 1) with 0 in Hrun. rewrite at_cons_0 in Hrun. cbn [bind] in Hrun.
    destruct (utf_cont b2) eqn:Hc2; cbn [negb] in Hrun;
      [|inversion Hrun; subst; lia].
    destruct (size <? 4); [inversion Hrun; subst; lia|].
    destruct l as [|b3 l];
      [rewrite !at_cons_S, at_nil in Hrun by lia; discriminate|].
    rewrite !at_cons_S in Hrun by lia.
    change (3 - 1 - 1 - 1) with 0 in Hrun. rewrite at_cons_0 in Hrun.
    cbn [bind] in Hrun.
    destruct (utf_cont b3) eqn:Hc3; cbn [negb] in Hrun;
      [|inversion Hrun; subst; lia].
    bytes_of Hbytes.
    apply cont_byte in Hc1; [|assumption]. apply cont_byte in Hc2; [|assumption].
    apply cont_byte in Hc3; [|assumption].
    rewrite codePoint4 in Hrun.
    set (v := b0 mod 8 * 262144 + b1 mod 64 * 4096 + b2 mod 64 * 64 + b3 mod 64) in *.
    destruct (Z.ltb_spec v 1114112); destruct (Z.geb_spec v 65536);
      cbn [andb] in Hrun; inversion Hrun; subst; try lia.
    unfold encode.
    destruct (Z.ltb_spec v 128); [lia|].
    destruct (Z.ltb_spec v 2048); [lia|].
    destruct (Z.ltb_spec v 65536); [lia|].
    split; [lia|].
    change (Z.to_nat 4) with 4%nat. cbn [firstn]. subst v.
    split; [bytes_eq|cbn [length]; lia].
  - (* five bytes: never accepted *)
    exfalso.
    repeat match type of Hrun with
           | context [if ?c then _ else _] => destruct c
           | context [at_ ?x ?i] => destruct (at_ x i); cbn [bind] in Hrun
           end; inversion Hrun; subst; lia.
  - exfalso.
    repeat match type of Hrun with
           | context [if ?c then _ else _] => destruct c
           | context [at_ ?x ?i] => destruct (at_ x i); cbn [bind] in Hrun
           end; inversion Hrun; subst; lia.
  - inversion Hrun; subst; lia.
Qed.

Lemma encode_length cp : (1 <= length (encode cp) <= 4)%nat.
Proof.
  unfold encode.
  destruct (cp <? 128); [simpl; lia|]. destruct (cp <? 2048); [simpl; lia|].
  destruct (cp <? 65536); simpl; lia.
Qed.

Lemma tryGet_complete_aux cp rest size :
  isScalar cp ->
  Z.of_nat (length (encode cp)) <= size ->
  tryGetUtf8CharLength (encode cp ++ rest) size
  = Ok (Z.of_nat (length (encode cp)), cp).
Proof.
  unfold isScalar, kMinSurrogate, kMaxSurrogate. intros [Hr Hs] Hsize.
  unfold encode in *.
  destruct (Z.ltb_spec cp 128) as [H1|H1].
  { (* one byte *)
    cbn [app]. unfold tryGetUtf8CharLength.
    destruct (firstByte_cases cp rest) as [c [Hc Hcase]]. rewrite Hc. cbn [bind].
    assert (c = 1) by lia. subst c.
    cbn [Z.ltb Z.eqb Z.compare Pos.compare Pos.compare_cont Pos.eqb].
    rewrite at_cons_0. reflexivity. }
  destruct (Z.ltb_spec cp 2048) as [H2|H2].
  { (* two bytes *)
    cbn [app length] in *. unfold tryGetUtf8CharLength.
    destruct (firstByte_cases (192 + cp / 64) ((128 + cp mod 64) :: rest))
      as [c [Hc Hcase]]. rewrite Hc. cbn [bind].
    assert (c = 2) by (Z.div_mod_to_equations; lia). subst c.
    cbn [Z.ltb Z.eqb Z.compare Pos.compare Pos.compare_cont Pos.eqb].
    rewrite at_cons_0. cbn [bind].
    destruct (Z.ltb_spec size 2); [lia|].
    rewrite at_cons_S, at_cons_0 by lia. cbn [bind].
    rewrite byte_cont by (Z.div_mod_to_equations; lia). cbn [negb].
    rewrite codePoint2.
    assert (Hcp : (192 + cp / 64) mod 32 * 64 + (128 + cp mod 64) mod 64 = cp)
      by (Z.div_mod_to_equations; lia).
    rewrite Hcp. destruct (Z.ltb_spec cp 128); [lia|reflexivity]. }
  destruct (Z.ltb_spec cp 65536) as [H3|H3].
  { (* three bytes *)
    cbn [app length] in *. unfold tryGetUtf8CharLength.
    destruct (firstByte_cases (224 + cp / 4096)
                ((128 + (cp / 64) mod 64) :: (128 + cp mod 64) :: rest))
      as [c [Hc Hcase]]. rewrite Hc. cbn [bind].
    assert (c = 3) by (Z.div_mod_to_equations; lia). subst c.
    cbn [Z.ltb Z.eqb Z.compare Pos.compare Pos.compare_cont Pos.eqb].
    rewrite at_cons_0. cbn [bind].
    destruct (Z.ltb_spec size 2); [lia|].
    rewrite at_cons_S, at_cons_0 by lia. cbn [bind].
    rewrite byte_cont by (Z.div_mod_to_equations; lia). cbn [negb].
    destruct (Z.ltb_spec size 3); [lia|].
    rewrite !at_cons_S by lia. change (2 - 1 - 1) with 0. rewrite at_cons_0.
    cbn [bind].
    rewrite byte_cont by (Z.div_mod_to_equations; lia). cbn [negb].
    rewrite codePoint3.
    assert (Hcp : (224 + cp / 4096) mod 16 * 4096
                  + (128 + (cp / 64) mod 64) mod 64 * 64
                  + (128 + cp mod 64) mod 64 = cp)
      by (Z.div_mod_to_equations; lia).
    rewrite Hcp. unfold kMinSurrogate, kMaxSurrogate.
    destruct (Z.leb_spec 55296 cp); destruct (Z.leb_spec cp 57343);
      cbn [andb]; try lia;
      (destruct (Z.ltb_spec cp 2048); [lia|reflexivity]). }
  (* four bytes *)
  cbn [app length] in *. unfold tryGetUtf8CharLength.
  destruct (firstByte_cases (240 + cp / 262144)
              ((128 + (cp / 4096) mod 64) :: (128 + (cp / 64) mod 64)
               :: (128 + cp mod 64) :: rest))
    as [c [Hc Hcase]]. rewrite Hc. cbn [bind].
  assert (c = 4) by (Z.div_mod_to_equations; lia). subst c.
  cbn [Z.ltb Z.eqb Z.compare Pos.compare Pos.compare_cont Pos.eqb].
  rewrite at_cons_0. cbn [bind].
  destruct (Z.ltb_spec size 2); [lia|].
  rewrite at_cons_S, at_cons_0 by lia. cbn [bind].
  rewrite byte_cont by (Z.div_mod_to_equations; lia). cbn [negb].
  destruct (Z.ltb_spec size 3); [lia|].
  rewrite !at_cons_S by lia. change (2 - 1 - 1) with 0. rewrite at_cons_0.
  cbn [bind].
  rewrite byte_cont by (Z.div_mod_to_equations; lia). cbn [negb].
  destruct (Z.ltb_spec size 4); [lia|].
  rewrite !at_cons_S by lia. change (3 - 1 - 1 - 1) with 0. rewrite at_cons_0.
  cbn [bind].
  rewrite byte_cont by (Z.div_mod_to_equations; lia). cbn [negb].
  rewrite codePoint4.
  assert (Hcp : (240 + cp / 262144) mod 8 * 262144
                + (128 + (cp / 4096) mod 64) mod 64 * 4096
                + (128 + (cp / 64) mod 64) mod 64 * 64
                + (128 + cp mod 64) mod 64 = cp)
    by (Z.div_mod_to_equations; lia).
  rewrite Hcp.
  destruct (Z.ltb_spec cp 1114112); [|lia].
  destruct (Z.geb_spec cp 65536); [reflexivity|lia].
Qed.

Lemma at_app_here {A} (pre : list A) x rest :
  at_ (pre ++ x :: rest) (Z.of_nat (length pre)) = Ok x.
Proof.
  unfold at_. destruct (Z.ltb_spec (Z.of_nat (length pre)) 0); [lia|].
  rewrite Nat2Z.id, nth_error_app2 by lia. rewrite Nat.sub_diag. reflexivity.
Qed.

Lemma at_app_first {A} (pre l : list A) x rest :
  l = x :: rest -> at_ (pre ++ l) (Z.of_nat (length pre)) = Ok x.
Proof. intros ->. apply at_app_here. Qed.

Lemma skipn_app_here {A} (pre rest : list A) :
  skipn (Z.to_nat (Z.of_nat (length pre))) (pre ++ rest) = rest.
Proof.
  rewrite Nat2Z.id, skipn_app, Nat.sub_diag, skipn_all. reflexivity.
Qed.

Lemma encode_first cp :
  isScalar cp ->
  exists b bs, encode cp = b :: bs /\ isByte b /\
               (b < 128 -> bs = [] /\ b = cp).
Proof.
  unfold isScalar, encode, isByte. intros [Hr _].
  destruct (Z.ltb_spec cp 128).
  { eexists; eexists; split; [reflexivity|]. split; [lia|auto]. }
  destruct (Z.ltb_spec cp 2048).
  { eexists; eexists; split; [reflexivity|].
    split; [|intros ?; exfalso]; Z.div_mod_to_equations; lia. }
  destruct (Z.ltb_spec cp 65536);
    (eexists; eexists; split; [reflexivity|]);
    (split; [|intros ?; exfalso]); Z.div_mod_to_equations; lia.
Qed.

Section Replace.
Variable replacement : list Z -> Z -> Z -> list Z.

Lemma replaceLoop_valid cps : forall pre out fuel,
  Forall isScalar cps ->
  (length cps < fuel)%nat ->
  Z.of_nat (length (pre ++ concat (map encode cps))) <= 2147483647 ->
  replaceLoop replacement fuel (pre ++ concat (map encode cps))
    (Z.of_nat (length (pre ++ concat (map encode cps))))
    (Z.of_nat (length pre)) out
  = Ok (out ++ concat (map encode cps)).
Proof.
  induction cps as [|cp cps IH]; intros pre out fuel Hcps Hfuel Hint.
  - destruct fuel as [|fuel]; [lia|]. cbn [map concat replaceLoop].
    rewrite !app_nil_r. cbn [map concat] in Hint. rewrite app_nil_r in Hint.
    rewrite wrap64u_small by lia.
    destruct (Z.ltb_spec (Z.of_nat (length pre)) (Z.of_nat (length pre)));
      [lia|reflexivity].
  - destruct fuel as [|fuel]; [simpl in Hfuel; lia|].
    pose proof (Forall_inv Hcps) as Hcp. pose proof (Forall_inv_tail Hcps) as Hrest.
    cbn [map concat replaceLoop]. cbn [map concat] in Hint.
    destruct (encode_first cp Hcp) as [b [bs [Henc [Hb Hascii]]]].
    set (tail := concat (map encode cps)) in *.
    rewrite (wrap64u_small (Z.of_nat (length (pre ++ encode cp ++ tail))))
      by lia.
    assert (Hsplit : encode cp ++ tail = b :: (bs ++ tail))
      by (rewrite Henc; reflexivity).
    pose proof (encode_length cp) as Hlen.
    destruct (Z.ltb_spec (Z.of_nat (length pre))
                (Z.of_nat (length (pre ++ encode cp ++ tail)))) as [_|Hge];
      [|rewrite !length_app in Hge; lia].
    rewrite (at_app_first pre _ b (bs ++ tail) Hsplit). cbn [bind].
    rewrite IS_ASCII_range by assumption.
    destruct (Z.ltb_spec b 128) as [Hlow|Hhigh].
    + (* an ASCII byte is copied *)
      destruct (Hascii Hlow) as [-> ->].
      rewrite Henc in Hint. cbn [app] in Hint.
      specialize (IH (pre ++ [cp]) (out ++ [cp]) fuel Hrest
                     ltac:(simpl in Hfuel; lia)).
      rewrite <- !app_assoc in IH. cbn [app] in IH.
      specialize (IH Hint).
      rewrite Henc. cbn [app].
      rewrite wrap64u_small
        by (rewrite length_app in Hint; cbn [length] in Hint; lia).
      replace (Z.of_nat (length pre) + 1) with (Z.of_nat (length (pre ++ [cp])))
        by (rewrite length_app; simpl; lia).
      rewrite IH. reflexivity.
    + (* a multi-byte character is copied whole *)
      rewrite skipn_app_here.
      rewrite (wrap64u_small (_ - _)) by (rewrite !length_app in *; lia).
      rewrite wrap64s_small by (rewrite !length_app in *; lia).
      rewrite tryGet_complete_aux;
        [|assumption|rewrite !length_app; lia].
      cbn [bind].
      destruct (Z.gtb_spec (Z.of_nat (length (encode cp))) 0); [|lia].
      unfold readBytes.
      destruct (Z.leb_spec 0 (Z.of_nat (length (encode cp)))); [|lia].
      destruct (Z.leb_spec (Z.of_nat (length (encode cp)))
                  (Z.of_nat (length (encode cp ++ tail))));
        [|rewrite length_app in *; lia].
      cbn [andb bind].
      rewrite Nat2Z.id, firstn_app, Nat.sub_diag, firstn_all. cbn [firstn].
      rewrite app_nil_r.
      specialize (IH (pre ++ encode cp) (out ++ encode cp) fuel Hrest
                     ltac:(simpl in Hfuel; lia)).
      rewrite <- !app_assoc in IH. specialize (IH Hint).
      rewrite wrap64u_small by (rewrite !length_app in Hint; lia).
      replace (Z.of_nat (length pre) + Z.of_nat (length (encode cp)))
        with (Z.of_nat (length (pre ++ encode cp)))
        by (rewrite length_app; lia).
      rewrite IH. reflexivity.
Qed.

Section Bounded.
Variable k0 : Z.
Hypothesis Hk0 : 1 <= k0.
Hypothesis Hrepl :
  forall rest size n, 1 <= n <= 6 ->
                      Z.of_nat (length (replacement rest size n)) <= k0 * n.

Lemma replaceLoop_bounded input len : forall fuel inputIndex out,
  len <= Z.of_nat (length input) ->
  len <= 2147483647 ->
  0 <= inputIndex <= len ->
  (Z.to_nat (len - inputIndex) < fuel)%nat ->
  exists out',
    replaceLoop replacement fuel input len inputIndex out = Ok out' /\
    Z.of_nat (length out')
    <= Z.of_nat (length out) + k0 * (len - inputIndex).
Proof.
  induction fuel as [|fuel IH]; intros idx out Hlen Hint Hidx Hfuel; [lia|].
  cbn [replaceLoop]. rewrite (wrap64u_small len) by lia.
  destruct (Z.ltb_spec idx len) as [Hlt|Hge];
    [|exists out; split; [reflexivity|nia]].
  assert (Hnth : exists b, at_ input idx = Ok b).
  { unfold at_. destruct (Z.ltb_spec idx 0); [lia|].
    destruct (nth_error input (Z.to_nat idx)) eqn:E; [simpl; eauto|].
    apply nth_error_None in E. lia. }
  destruct Hnth as [b ->]. cbn [bind].
  destruct (IS_ASCII b).
  - rewrite wrap64u_small by lia.
    destruct (IH (idx + 1) (out ++ [b])) as [out' [Hrun Hbound]]; try lia.
    exists out'. split; [exact Hrun|].
    rewrite length_app in Hbound. simpl in Hbound. nia.
  - assert (Hrestlen : Z.of_nat (length (skipn (Z.to_nat idx) input))
                       = Z.of_nat (length input) - idx)
      by (rewrite length_skipn; lia).
    rewrite (wrap64u_small (len - idx)) by lia.
    rewrite wrap64s_small by lia.
    destruct (tryGet_bounds_aux (skipn (Z.to_nat idx) input) (len - idx))
      as [r [cp [Hget [Hnz [Hr Habs]]]]]; [lia|].
    rewrite Hget. cbn [bind].
    destruct (Z.gtb_spec r 0) as [Hpos|Hneg].
    + unfold readBytes.
      destruct (Z.leb_spec 0 r); [|lia].
      destruct (Z.leb_spec r (Z.of_nat (length (skipn (Z.to_nat idx) input))));
        [|lia].
      cbn [andb bind]. rewrite wrap64u_small by lia.
      destruct (IH (idx + r)
                  (out ++ firstn (Z.to_nat r) (skipn (Z.to_nat idx) input)))
        as [out' [Hrun Hbound]]; try lia.
      exists out'. split; [exact Hrun|].
      rewrite length_app, length_firstn in Hbound. nia.
    + rewrite wrap32s_small by lia. rewrite wrap64u_small by lia.
      destruct (IH (idx + - r)
                  (out ++ replacement (skipn (Z.to_nat idx) input) (len - idx) (- r)))
        as [out' [Hrun Hbound]]; try lia.
      exists out'. split; [exact Hrun|].
      rewrite length_app in Hbound.
      pose proof (Hrepl (skipn (Z.to_nat idx) input) (len - idx) (- r) ltac:(lia)).
      nia.
Qed.
End Bounded.

(** Valid UTF-8: the concatenated encodings of scalar values. *)
Lemma replaceLoop_output_valid input len :
  Forall isByte input ->
  (forall rest size n, exists cps,
      Forall isScalar cps /\ replacement rest size n = concat (map encode cps)) ->
  forall fuel inputIndex out out' done,
    Forall isScalar done -> out = concat (map encode done) ->
    replaceLoop replacement fuel input len inputIndex out = Ok out' ->
    exists cps, Forall isScalar cps /\ out' = concat (map encode cps).
Proof.
  intros Hbytes Hrepl.
  induction fuel as [|fuel IH]; intros idx out out' done Hdone Hout Hrun;
    [discriminate|].
  cbn [replaceLoop] in Hrun.
  destruct (idx <? wrap64u len); [|inversion Hrun; subst; eauto].
  destruct (at_ input idx) as [b|] eqn:Hb; [|discriminate]. cbn [bind] in Hrun.
  assert (Hbyte : isByte b).
  { apply at_Ok in Hb as [_ Hn]. rewrite Forall_forall in Hbytes.
    apply Hbytes. eapply nth_error_In; eauto. }
  rewrite IS_ASCII_range in Hrun by assumption.
  destruct (Z.ltb_spec b 128).
  - apply (IH _ _ _ (done ++ [b])) in Hrun; [exact Hrun| |].
    + apply Forall_app. split; [assumption|]. constructor; [|constructor].
      unfold isScalar, isByte, kMinSurrogate, kMaxSurrogate in *. lia.
    + rewrite map_app, concat_app. subst out. cbn [map concat].
      unfold encode. destruct (Z.ltb_spec b 128); [|lia].
      rewrite app_nil_r. reflexivity.
  - destruct (tryGetUtf8CharLength (skipn (Z.to_nat idx) input)
                (wrap64s (wrap64u (len - idx))))
      as [[r cp]|] eqn:Hget; [|discriminate]. cbn [bind] in Hrun.
    destruct (Z.gtb_spec r 0).
    + destruct (readBytes (skipn (Z.to_nat idx) input) r) as [chunk|] eqn:Hread;
        [|discriminate]. cbn [bind] in Hrun.
      assert (Hrestbytes : Forall isByte (skipn (Z.to_nat idx) input)).
      { rewrite Forall_forall in *. intros x Hx. apply Hbytes.
        rewrite <- (firstn_skipn (Z.to_nat idx) input). apply in_or_app. now right. }
      destruct (tryGet_sound_aux _ _ _ _ Hrestbytes Hget ltac:(lia)) as [Hsc [Henc _]].
      unfold readBytes in Hread.
      destruct ((0 <=? r) && (r <=? Z.of_nat (length (skipn (Z.to_nat idx) input))));
        [|discriminate]. inversion Hread; subst chunk; clear Hread.
      rewrite <- Henc in Hrun.
      apply (IH _ _ _ (done ++ [cp])) in Hrun; [exact Hrun| |].
      * apply Forall_app. split; [assumption|]. constructor; [assumption|constructor].
      * rewrite map_app, concat_app. subst out. cbn [map concat].
        rewrite app_nil_r. reflexivity.
    + destruct (Hrepl (skipn (Z.to_nat idx) input) (wrap64u (len - idx))
                  (wrap32s (- r)))
        as [cps [Hcps Heq]].
      rewrite Heq in Hrun.
      apply (IH _ _ _ (done ++ cps)) in Hrun; [exact Hrun| |].
      * apply Forall_app. split; assumption.
      * rewrite map_app, concat_app. subst out. reflexivity.
Qed.

End Replace.

Lemma replaceEachByte_length rest size n :
  0 <= n -> Z.of_nat (length (replaceEachByte rest size n)) = 3 * n.
Proof.
  intros Hn. unfold replaceEachByte.
  replace n with (Z.of_nat (Z.to_nat n)) at 2 by lia.
  induction (Z.to_nat n) as [|k IH]; [reflexivity|].
  cbn [repeat concat]. rewrite length_app. cbn [length]. lia.
Qed.

Lemma replaceEachByte_valid rest size n :
  exists cps, Forall isScalar cps /\
              replaceEachByte rest size n = concat (map encode cps).
Proof.
  exists (repeat 65533 (Z.to_nat n)). unfold replaceEachByte. split.
  - apply Forall_forall. intros x Hx. apply repeat_spec in Hx. subst x.
    unfold isScalar, kMinSurrogate, kMaxSurrogate. lia.
  - induction (Z.to_nat n) as [|k IH]; [reflexivity|].
    cbn [repeat map concat]. rewrite IH. reflexivity.
Qed.

Lemma isScalar_dec_true cp :
  (0 <=? cp) && (cp <? 1114112) && negb ((55296 <=? cp) && (cp <=? 57343)) = true ->
  isScalar cp.
Proof.
  unfold isScalar, kMinSurrogate, kMaxSurrogate. intros H.
  apply andb_true_iff in H as [H H3]. apply andb_true_iff in H as [H1 H2].
  apply Z.leb_le in H1. apply Z.ltb_lt in H2. split; [lia|].
  intros [H4 H5]. apply Z.leb_le in H4. apply Z.leb_le in H5.
  rewrite H4, H5 in H3. discriminate.
Qed.

(** ** UTF-8: the statements *)

(** X11. On a buffer of at least [size >= 1] bytes [tryGetUtf8CharLength]
    reads inside the buffer and returns a length that is never 0, lies
    between -6 and 4, and whose magnitude is at most [size]: a caller that
    advances by the magnitude stays inside its input. *)
Theorem tryGetUtf8CharLength_within_size :
  forall input size,
    1 <= size <= Z.of_nat (length input) ->
    exists r cp,
      tryGetUtf8CharLength input size = Ok (r, cp) /\
      r <> 0 /\ -6 <= r <= 4 /\ Z.abs r <= size.
Proof. exact tryGet_bounds_aux. Qed.

Lemma tryGetUtf8CharLength_within_size_witness :
  exists r cp,
    tryGetUtf8CharLength [240; 159; 152] 3 = Ok (r, cp) /\
    r <> 0 /\ -6 <= r <= 4 /\ Z.abs r <= 3.
Proof.
  apply (tryGetUtf8CharLength_within_size [240; 159; 152] 3). simpl. lia.
Defined.

(** X12. A positive result of [tryGetUtf8CharLength] stands for a Unicode
    scalar value: the stored code point is one, the result is the length of
    its canonical UTF-8 encoding, and the bytes covered are that encoding.
    Overlong forms, surrogates, values above U+10FFFF and the 5- and 6-byte
    forms are never accepted. *)
Theorem tryGetUtf8CharLength_accepts_only_canonical :
  forall input size r cp,
    Forall isByte input ->
    tryGetUtf8CharLength input size = Ok (r, cp) ->
    0 < r ->
    isScalar cp /\ r = Z.of_nat (length (encode cp)) /\
    encode cp = firstn (Z.to_nat r) input.
Proof.
  intros input size r cp Hbytes Hrun Hpos.
  destruct (tryGet_sound_aux input size r cp Hbytes Hrun Hpos)
    as [Hsc [Henc Hfit]].
  split; [exact Hsc|]. split; [|exact Henc].
  rewrite Henc, length_firstn. lia.
Qed.

Lemma tryGetUtf8CharLength_accepts_only_canonical_witness :
  isScalar 8364 /\ 3 = Z.of_nat (length (encode 8364)) /\
  encode 8364 = firstn (Z.to_nat 3) [226; 130; 172; 33].
Proof.
  apply (tryGetUtf8CharLength_accepts_only_canonical [226; 130; 172; 33] 4 3 8364).
  - repeat constructor; unfold isByte; lia.
  - reflexivity.
  - lia.
Defined.

(** X13. Every Unicode scalar value whose canonical UTF-8 encoding fits in
    [size] is accepted by [tryGetUtf8CharLength], whatever follows it: the
    result is the length of the encoding and the code point is the value. *)
Theorem tryGetUtf8CharLength_accepts_every_scalar :
  forall cp rest size,
    isScalar cp ->
    Z.of_nat (length (encode cp)) <= size ->
    tryGetUtf8CharLength (encode cp ++ rest) size
    = Ok (Z.of_nat (length (encode cp)), cp).
Proof. exact tryGet_complete_aux. Qed.

Lemma tryGetUtf8CharLength_accepts_every_scalar_witness :
  tryGetUtf8CharLength (encode 128512 ++ [65]) 5
  = Ok (Z.of_nat (length (encode 128512)), 128512).
Proof.
  apply (tryGetUtf8CharLength_accepts_every_scalar 128512 [65] 5).
  - apply isScalar_dec_true. reflexivity.
  - simpl. lia.
Defined.

(** X14. [replaceInvalidUTF8Characters] copies valid UTF-8 unchanged: on
    the concatenated encodings of scalar values (of a length that fits the
    [int32_t] parameter) it returns the input, whatever the replacement
    policy, with one loop round per character. *)
Theorem replaceInvalidUTF8Characters_keeps_valid :
  forall replacement cps fuel,
    Forall isScalar cps ->
    (length cps < fuel)%nat ->
    Z.of_nat (length (concat (map encode cps))) <= 2147483647 ->
    replaceInvalidUTF8Characters replacement fuel
      (concat (map encode cps)) (Z.of_nat (length (concat (map encode cps))))
    = Ok (concat (map encode cps)).
Proof.
  intros replacement cps fuel Hcps Hfuel Hint.
  exact (replaceLoop_valid replacement cps [] [] fuel Hcps Hfuel Hint).
Qed.

Lemma replaceInvalidUTF8Characters_keeps_valid_witness :
  replaceInvalidUTF8Characters replaceEachByte 5
    (concat (map encode [72; 233; 8364; 128512]))
    (Z.of_nat (length (concat (map encode [72; 233; 8364; 128512]))))
  = Ok (concat (map encode [72; 233; 8364; 128512])).
Proof.
  apply (replaceInvalidUTF8Characters_keeps_valid replaceEachByte
           [72; 233; 8364; 128512] 5).
  - repeat constructor; apply isScalar_dec_true; reflexivity.
  - simpl. lia.
  - simpl. lia.
Defined.

(** X15. [replaceInvalidUTF8Characters] terminates within [len] loop
    rounds without reading outside its [len] input bytes, and when the
    replacement for [n] invalid bytes is at most [k0 * n] bytes long
    ([k0 >= 1]) it writes at most [k0 * len] bytes. *)
Theorem replaceInvalidUTF8Characters_output_bound :
  forall replacement k0 input len fuel,
    1 <= k0 ->
    (forall rest size n, 1 <= n <= 6 ->
       Z.of_nat (length (replacement rest size n)) <= k0 * n) ->
    0 <= len <= Z.of_nat (length input) ->
    len <= 2147483647 ->
    (Z.to_nat len < fuel)%nat ->
    exists out,
      replaceInvalidUTF8Characters replacement fuel input len = Ok out /\
      Z.of_nat (length out) <= k0 * len.
Proof.
  intros replacement k0 input len fuel Hk0 Hrepl Hlen Hint Hfuel.
  destruct (replaceLoop_bounded replacement k0 Hk0 Hrepl input len fuel 0 [])
    as [out [Hrun Hbound]]; try lia.
  exists out. split; [exact Hrun|]. cbn [length] in Hbound. lia.
Qed.

Lemma replaceInvalidUTF8Characters_output_bound_witness :
  exists out,
    replaceInvalidUTF8Characters replaceEachByte 6 [65; 255; 226; 130; 66] 5
    = Ok out /\
    Z.of_nat (length out) <= 3 * 5.
Proof.
  apply (replaceInvalidUTF8Characters_output_bound replaceEachByte 3
           [65; 255; 226; 130; 66] 5 6).
  - lia.
  - intros rest size n Hn. rewrite replaceEachByte_length; lia.
  - simpl. lia.
  - lia.
  - simpl. lia.
Defined.

(** X16. The [std::string] overload never writes past the buffer it sizes
    as [len * replacementSize]: when every replacement for [n] invalid
    bytes is at most [replacementSize * n] bytes long, the call returns the
    output of the buffer version. *)
Theorem replaceInvalidUTF8CharactersString_fits :
  forall replacement replacementSize input len fuel,
    1 <= replacementSize <= 2147483647 ->
    (forall rest size n, 1 <= n <= 6 ->
       Z.of_nat (length (replacement rest size n)) <= replacementSize * n) ->
    0 <= len <= Z.of_nat (length input) ->
    len <= 2147483647 ->
    (Z.to_nat len < fuel)%nat ->
    exists out,
      replaceInvalidUTF8Characters replacement fuel input len = Ok out /\
      replaceInvalidUTF8CharactersString replacement replacementSize fuel
        input len = Ok out.
Proof.
  intros replacement k0 input len fuel Hk0 Hrepl Hlen Hint Hfuel.
  destruct (replaceLoop_bounded replacement k0 ltac:(lia) Hrepl input len
              fuel 0 [])
    as [out [Hrun Hbound]]; try lia.
  exists out. split; [exact Hrun|].
  unfold replaceInvalidUTF8CharactersString, replaceInvalidUTF8Characters.
  rewrite Hrun. cbn [bind].
  rewrite (wrap64u_small len) by lia.
  rewrite wrap64u_small by nia.
  cbn [length] in Hbound.
  destruct (Z.leb_spec (Z.of_nat (length out)) (len * k0)); [reflexivity|nia].
Qed.

Lemma replaceInvalidUTF8CharactersString_fits_witness :
  exists out,
    replaceInvalidUTF8Characters replaceEachByte 4 [255; 254; 253] 3 = Ok out /\
    replaceInvalidUTF8CharactersString replaceEachByte 3 4 [255; 254; 253] 3
    = Ok out.
Proof.
  apply (replaceInvalidUTF8CharactersString_fits replaceEachByte 3
           [255; 254; 253] 3 4).
  - lia.
  - intros rest size n Hn. rewrite replaceEachByte_length; lia.
  - simpl. lia.
  - lia.
  - simpl. lia.
Defined.

(** X17. When the replacement strings are valid UTF-8, every output of
    [replaceInvalidUTF8Characters] on a byte buffer is valid UTF-8: the
    concatenated canonical encodings of Unicode scalar values. *)
Theorem replaceInvalidUTF8Characters_output_valid :
  forall replacement fuel input len out,
    Forall isByte input ->
    (forall rest size n, exists cps,
        Forall isScalar cps /\
        replacement rest size n = concat (map encode cps)) ->
    replaceInvalidUTF8Characters replacement fuel input len = Ok out ->
    exists cps, Forall isScalar cps /\ out = concat (map encode cps).
Proof.
  intros replacement fuel input len out Hbytes Hrepl Hrun.
  exact (replaceLoop_output_valid replacement input len Hbytes Hrepl
           fuel 0 [] out [] (Forall_nil _) eq_refl Hrun).
Qed.

Lemma replaceInvalidUTF8Characters_output_valid_witness :
  exists cps,
    Forall isScalar cps /\
    [65; 239; 191; 189; 195; 169] = concat (map encode cps).
Proof.
  apply (replaceInvalidUTF8Characters_output_valid replaceEachByte 5
           [65; 237; 195; 169] 4).
  - repeat constructor; unfold isByte; lia.
  - apply replaceEachByte_valid.
  - reflexivity.
Defined.

(** X18. The lead byte of a canonical encoding announces its length:
    [firstByteCharLength] on the UTF-8 encoding of a Unicode scalar value,
    whatever follows it, is the number of bytes of that encoding. *)
Theorem firstByteCharLength_of_encoding :
  forall cp rest,
    isScalar cp ->
    firstByteCharLength (encode cp ++ rest)
    = Ok (Z.of_nat (length (encode cp))).
Proof.
  intros cp rest [Hr _]. unfold encode, firstByteCharLength.
  destruct (Z.ltb_spec cp 128);
    [|destruct (Z.ltb_spec cp 2048); [|destruct (Z.ltb_spec cp 65536)]];
    cbn [app length]; rewrite at_cons_0; cbn [bind]; f_equal;
    repeat match goal with
           | |- context [if ?a <? ?b then _ else _] =>
               destruct (Z.ltb_spec a b);
               try (exfalso; Z.div_mod_to_equations; lia)
           end; reflexivity.
Qed.

Lemma firstByteCharLength_of_encoding_witness :
  firstByteCharLength (encode 8364 ++ [65])
  = Ok (Z.of_nat (length (encode 8364))).
Proof.
  apply (firstByteCharLength_of_encoding 8364 [65]).
  apply isScalar_dec_true. reflexivity.
Defined.

Lemma encodings_length cps :
  (length cps <= length (concat (map encode cps)))%nat.
Proof.
  induction cps as [|cp cps IH]; [reflexivity|].
  cbn [map concat length]. rewrite length_app.
  pose proof (encode_length cp). lia.
Qed.

(** X19. Cleaning is idempotent: when the replacement strings are valid
    UTF-8, running [replaceInvalidUTF8Characters] on its own output (of a
    length that fits [int32_t]) returns that output unchanged. *)
Theorem replaceInvalidUTF8Characters_idempotent :
  forall replacement fuel input len out fuel2,
    Forall isByte input ->
    (forall rest size n, exists cps,
        Forall isScalar cps /\
        replacement rest size n = concat (map encode cps)) ->
    replaceInvalidUTF8Characters replacement fuel input len = Ok out ->
    Z.of_nat (length out) <= 2147483647 ->
    (length out < fuel2)%nat ->
    replaceInvalidUTF8Characters replacement fuel2 out (Z.of_nat (length out))
    = Ok out.
Proof.
  intros replacement fuel input len out fuel2 Hbytes Hrepl Hrun Hint Hfuel.
  destruct (replaceLoop_output_valid replacement input len Hbytes Hrepl
              fuel 0 [] out [] (Forall_nil _) eq_refl Hrun)
    as [cps [Hcps ->]].
  pose proof (encodings_length cps) as Hlen.
  exact (replaceLoop_valid replacement cps [] [] fuel2 Hcps ltac:(lia) Hint).
Qed.

Lemma replaceInvalidUTF8Characters_idempotent_witness :
  replaceInvalidUTF8Characters replaceEachByte 7 [65; 239; 191; 189; 195; 169]
    (Z.of_nat (length [65; 239; 191; 189; 195; 169]))
  = Ok [65; 239; 191; 189; 195; 169].
Proof.
  apply (replaceInvalidUTF8Characters_idempotent replaceEachByte 5
           [65; 237; 195; 169] 4 [65; 239; 191; 189; 195; 169] 7).
  - repeat constructor; unfold isByte; lia.
  - apply replaceEachByte_valid.
  - reflexivity.
  - simpl. lia.
  - simpl. lia.
Defined.
